(** * mjson: a shallow embedding of the path rewriter and its scanner

    The development follows [mjson.go].  Go byte slices and strings are
    lists of bytes, Go [int]s are integers of [Z] (every integer the code
    computes is bounded by the length of a buffer, so it never wraps; the one
    place where the 64-bit range matters is [strconv.Atoi], which checks it).
    A run-time panic ("index out of range", "slice bounds out of range") and a
    loop that never exits are explicit outcomes of the embedding. *)

From Stdlib Require Import Strings.Byte Strings.String.
From Stdlib Require Import List ZArith NArith Lia Bool.
Import ListNotations.
Local Open Scope byte_scope.
Local Open Scope Z_scope.


(* ------------------------------------------------------------------ *)
(** ** Outcomes of Go code *)

(** What can go wrong when the Go code runs:
    - [BufferRange]: an index or slice expression on the JSON buffer is out
      of range (Go panics);
    - [PathRange]: a slice expression on the path string is out of range (Go
      panics);
    - [NoProgress]: a loop iteration ends in the state it began in, so the Go
      loop never exits;
    - [FuelExhausted]: the iteration bound of the embedding ran out (shown
      below not to happen on well-formed documents). *)
Inductive failure : Type :=
| BufferRange
| PathRange
| NoProgress
| FuelExhausted.

Inductive outcome (A : Type) : Type :=
| Ok (a : A)
| Fail (f : failure).

Arguments Ok {A} a.
Arguments Fail {A} f.

Definition bind {A B : Type} (m : outcome A) (k : A -> outcome B) : outcome B :=
  match m with
  | Ok a => k a
  | Fail f => Fail f
  end.

Notation "x <- m ;; k" := (bind m (fun x => k))
  (at level 61, m at next level, right associativity).

(* ------------------------------------------------------------------ *)
(** ** Go slices *)

Definition len {A : Type} (s : list A) : Z := Z.of_nat (length s).

(** [s[i]] *)
Definition index (f : failure) (s : list byte) (i : Z) : outcome byte :=
  if (0 <=? i) && (i <? len s)
  then Ok (nth (Z.to_nat i) s x00)
  else Fail f.

(** [s[lo:]] *)
Definition slice_from (f : failure) (s : list byte) (lo : Z) : outcome (list byte) :=
  if (0 <=? lo) && (lo <=? len s)
  then Ok (skipn (Z.to_nat lo) s)
  else Fail f.

(** [s[:hi]] and [s[lo:hi]].  Go bounds [hi] by the capacity of a slice; all
    uses below have [hi <= len s] whenever [lo <= hi], so the bound by the
    length is the same test. *)
Definition slice (f : failure) (s : list byte) (lo hi : Z) : outcome (list byte) :=
  if (0 <=? lo) && (lo <=? hi) && (hi <=? len s)
  then Ok (firstn (Z.to_nat (hi - lo)) (skipn (Z.to_nat lo) s))
  else Fail f.

(** [s[i] = c] *)
Definition store (s : list byte) (i : Z) (c : byte) : outcome (list byte) :=
  if (0 <=? i) && (i <? len s)
  then Ok (firstn (Z.to_nat i) s ++ c :: skipn (S (Z.to_nat i)) s)
  else Fail BufferRange.

(** [copy(s[off:], src)]: copies [min(len(s[off:]), len(src))] bytes. *)
Definition copy_at (s : list byte) (off : Z) (src : list byte) : outcome (list byte) :=
  dst <- slice_from BufferRange s off ;;
  let n := Nat.min (length dst) (length src) in
  Ok (firstn (Z.to_nat off) s ++ firstn n src ++ skipn n dst).

(** [bytes.Equal] and [==] on strings. *)
Fixpoint bytes_eqb (a b : list byte) : bool :=
  match a, b with
  | [], [] => true
  | x :: a', y :: b' => Byte.eqb x y && bytes_eqb a' b'
  | _, _ => false
  end.

(** The position of the first byte satisfying [p], counted from [i];
    [-1] when there is none ([for i, c := range s { if p(c) { return i } };
    return -1]). *)
Fixpoint index_where (p : byte -> bool) (i : Z) (s : list byte) : Z :=
  match s with
  | [] => -1
  | c :: tl => if p c then i else index_where p (i + 1) tl
  end.

(** [strings.IndexByte] *)
Definition IndexByte (s : list byte) (c : byte) : Z :=
  index_where (fun d => Byte.eqb d c) 0 s.

(* ------------------------------------------------------------------ *)
(** ** strconv.Atoi

    Go's standard library, on a 64-bit platform: an optional sign, then one
    or more decimal digits, and the value has to fit an [int]. *)

Definition max_int : Z := 9223372036854775807.
Definition min_int : Z := -9223372036854775808.

Definition is_digit (c : byte) : bool :=
  (N.leb (Byte.to_N "0") (Byte.to_N c)) && (N.leb (Byte.to_N c) (Byte.to_N "9")).

Definition digit_val (c : byte) : Z := Z.of_N (Byte.to_N c) - 48.

Fixpoint digits_val (acc : Z) (s : list byte) : option Z :=
  match s with
  | [] => Some acc
  | c :: tl => if is_digit c then digits_val (10 * acc + digit_val c) tl else None
  end.

Definition Atoi (s : list byte) : option Z :=
  match s with
  | [] => None
  | c :: tl =>
      let '(neg, body) :=
        if Byte.eqb c "-" then (true, tl)
        else if Byte.eqb c "+" then (false, tl)
        else (false, s) in
      match body with
      | [] => None
      | _ =>
          match digits_val 0 body with
          | Some v =>
              let v := if neg then - v else v in
              if (min_int <=? v) && (v <=? max_int) then Some v else None
          | None => None
          end
      end
  end.

(* ------------------------------------------------------------------ *)
(** ** The scanner *)

Definition quote : byte := x22.
Definition backslash : byte := x5c.

(** The test of [consumeWhitespace] and [prevChar]:
    [c > ' ' || (c != ' ' && c != '\t' && c != '\n' && c != '\r')]. *)
Definition nonspace (c : byte) : bool :=
  N.ltb (Byte.to_N " ") (Byte.to_N c)
  || (negb (Byte.eqb c " ") && negb (Byte.eqb c x09)
      && negb (Byte.eqb c x0a) && negb (Byte.eqb c x0d)).

Fixpoint consumeWhitespace (json : list byte) : list byte :=
  match json with
  | [] => []
  | c :: tl => if nonspace c then json else consumeWhitespace tl
  end.

(** [prevChar]: [k] is [j + 1] for the loop variable [j], which runs from
    [i - 1] down to [0]. *)
Fixpoint prevChar_from (json : list byte) (k : nat) (i : Z) : outcome byte :=
  match k with
  | O => index BufferRange json i
  | S j =>
      c <- index BufferRange json (Z.of_nat j) ;;
      if nonspace c then Ok c else prevChar_from json j i
  end.

Definition prevChar (json : list byte) (i : Z) : outcome byte :=
  prevChar_from json (Z.to_nat i) i.

Definition consumeSeparator (json : list byte) : outcome (list byte) :=
  json <- slice_from BufferRange json 1 ;;
  Ok (consumeWhitespace json).

(** [consumeString]: [string_scan json l] is the loop at index [i] with
    [l = json[i:]]; a backslash skips the byte after it. *)
Fixpoint string_scan (json l : list byte) : list byte :=
  match l with
  | [] => json
  | c :: l' =>
      if Byte.eqb c quote then l'
      else if Byte.eqb c backslash then
        match l' with
        | [] => json
        | _ :: l'' => string_scan json l''
        end
      else string_scan json l'
  end.

Definition consumeString (json : list byte) : list byte :=
  match json with
  | [] => json
  | _ :: l => string_scan json l
  end.

Definition numchar (c : byte) : bool :=
  is_digit c
  || Byte.eqb c "+" || Byte.eqb c "-" || Byte.eqb c "."
  || Byte.eqb c "e" || Byte.eqb c "E".

Fixpoint consumeNumber (json : list byte) : list byte :=
  match json with
  | [] => []
  | c :: tl => if numchar c then consumeNumber tl else json
  end.

(** [consumeObject] and [consumeArray] are the same loop over different
    delimiters, as are [indexObject] and [indexArray]. *)
Section Nested.

Variables opening closing : byte.

(** The bytes the loop stops at. *)
Definition special (c : byte) : bool :=
  Byte.eqb c opening || Byte.eqb c closing || Byte.eqb c quote.

Definition indexNested (json : list byte) : Z :=
  index_where special 0 json.

(** The loop [for n > 0 { ... }].  Every iteration that does not fail
    shortens [json], except when [consumeString] finds no closing quote and
    returns its argument (or when no case of the switch applies): then the
    next iteration starts in the same state, and the Go loop spins. *)
Fixpoint consumeNested_loop (fuel : nat) (n : Z) (json : list byte)
  : outcome (list byte) :=
  if n >? 0 then
    match fuel with
    | O => Fail FuelExhausted
    | S fuel' =>
        json <- slice_from BufferRange json (indexNested json) ;;
        c <- index BufferRange json 0 ;;
        if Byte.eqb c opening then
          json <- slice_from BufferRange json 1 ;;
          consumeNested_loop fuel' (n + 1) json
        else if Byte.eqb c closing then
          json <- slice_from BufferRange json 1 ;;
          consumeNested_loop fuel' (n - 1) json
        else if Byte.eqb c quote then
          let json' := consumeString json in
          if len json' =? len json then Fail NoProgress
          else consumeNested_loop fuel' n json'
        else Fail NoProgress
    end
  else Ok json.

Definition consumeNested (json : list byte) : outcome (list byte) :=
  json <- slice_from BufferRange json 1 ;;
  consumeNested_loop (S (length json)) 1 json.

End Nested.

(** [runs opening closing n s r]: started at depth [n] on [s], the loop exits
    with [r] left. *)
Definition runs (opening closing : byte) (n : Z) (s r : list byte) : Prop :=
  exists fuel, consumeNested_loop opening closing fuel n s = Ok r.

Definition indexObject : list byte -> Z := indexNested "{" "}".
Definition indexArray : list byte -> Z := indexNested "[" "]".
Definition consumeObject : list byte -> outcome (list byte) := consumeNested "{" "}".
Definition consumeArray : list byte -> outcome (list byte) := consumeNested "[" "]".

Definition consumeValue (json : list byte) : outcome (list byte) :=
  c <- index BufferRange json 0 ;;
  if Byte.eqb c "{" then consumeObject json
  else if Byte.eqb c "[" then consumeArray json
  else if Byte.eqb c quote then Ok (consumeString json)
  else if Byte.eqb c "t" || Byte.eqb c "n" then slice_from BufferRange json 4
  else if Byte.eqb c "f" then slice_from BufferRange json 5
  else Ok (consumeNumber json).

Definition parseString (json : list byte) : outcome (list byte * list byte) :=
  let after := consumeString json in
  let strLen := len json - len after - 2 in
  key <- slice BufferRange json 1 (1 + strLen) ;;
  Ok (key, after).

(* ------------------------------------------------------------------ *)
(** ** The accessor locator *)

(** The loop over the members of an object, [for json[0] != '}' { ... }].
    [parseString] fails or consumes at least two bytes, so the number of
    iterations is bounded by the length of [json]. *)
Fixpoint object_loop (fuel : nat) (origLen : Z) (bacc json : list byte)
  : outcome Z :=
  c <- index BufferRange json 0 ;;
  if negb (Byte.eqb c "}") then
    match fuel with
    | O => Fail FuelExhausted
    | S fuel' =>
        kj <- parseString json ;;
        let '(key, json) := kj in
        let json := consumeWhitespace json in
        json <- consumeSeparator json ;;
        if bytes_eqb key bacc then Ok (origLen - len json)
        else
          json <- consumeValue json ;;
          let json := consumeWhitespace json in
          c <- index BufferRange json 0 ;;
          json <- (if Byte.eqb c "," then consumeSeparator json else Ok json) ;;
          object_loop fuel' origLen bacc json
    end
  else Ok (origLen - len json).

(** The loop over the elements of an array,
    [for n > arrayLen && json[0] != ']' { ... }]; [arrayLen] grows by one in
    every iteration, so [n] bounds their number. *)
Fixpoint array_loop (fuel : nat) (n arrayLen : Z) (json : list byte)
  : outcome (list byte * Z) :=
  if n >? arrayLen then
    c <- index BufferRange json 0 ;;
    if negb (Byte.eqb c "]") then
      match fuel with
      | O => Fail FuelExhausted
      | S fuel' =>
          json <- consumeValue json ;;
          let arrayLen := arrayLen + 1 in
          let json := consumeWhitespace json in
          c <- index BufferRange json 0 ;;
          json <- (if Byte.eqb c "," then consumeSeparator json else Ok json) ;;
          array_loop fuel' n arrayLen json
      end
    else Ok (json, arrayLen)
  else Ok (json, arrayLen).

Definition locateAccessor (json acc : list byte) : outcome Z :=
  let origLen := len json in
  let json := consumeWhitespace json in
  if (len json =? 0) || (len json <? len acc) then Ok (-1)
  else
    c <- index BufferRange json 0 ;;
    if Byte.eqb c "{" then
      json <- consumeSeparator json ;;
      object_loop (S (length json)) origLen acc json
    else if Byte.eqb c "[" then
      match Atoi acc with
      | None => Ok (-1)
      | Some n =>
          if n <? 0 then Ok (-1)
          else
            json <- consumeSeparator json ;;
            ja <- array_loop (Z.to_nat n) n 0 json ;;
            let '(json, arrayLen) := ja in
            if n >? arrayLen then Ok (-1) else Ok (origLen - len json)
      end
    else if Byte.eqb c "n" then
      match Atoi acc with
      | Some 0 =>
          json <- slice_from BufferRange json 3 ;;
          Ok (origLen - len json)
      | _ => Ok (-1)
      end
    else Ok (-1).

(* ------------------------------------------------------------------ *)
(** ** The path rewriter *)

(** A [[]byte] argument: its bytes and its capacity. *)
Record buffer : Type := Buffer { bytes : list byte; cap : Z }.

(** What a call hands back: the bytes of the returned slice, the bytes of the
    caller's buffer after the call, and whether the returned slice lies in
    the storage of that buffer. *)
Record result : Type := Result { ret : list byte; buf : list byte; shared : bool }.

(** [return json] *)
Definition return_json (json : list byte) : result :=
  {| ret := json; buf := json; shared := true |}.

(** How one iteration of the accessor loop ends: the loop goes on with the
    cursors [i] and [j], it ends at [i] with the last accessor, or the
    function returns [json]. *)
Inductive walk : Type :=
| Next (i j : Z)
| Done (i : Z) (lastAcc : list byte)
| Reject.

(** The body of [for j := 0; lastAcc == ""; j++ { ... }], from the values of
    [i] and [j] at its start to those at the start of the next iteration. *)
Definition iteration (json path : list byte) (i j : Z) : outcome walk :=
  pj <- slice_from PathRange path j ;;
  let dotIndex := IndexByte pj "." in
  let lastAcc := if dotIndex =? -1 then pj else [] in
  let dotIndex := if dotIndex =? -1 then len pj else dotIndex in
  acc <- slice PathRange path j (j + dotIndex) ;;
  let j := j + dotIndex in
  ji <- slice_from BufferRange json i ;;
  accIndex <- locateAccessor ji acc ;;
  if accIndex =? -1 then Ok Reject
  else
    c <- index BufferRange json accIndex ;;
    if (Byte.eqb c "]" || Byte.eqb c "}" || Byte.eqb c "l") && bytes_eqb lastAcc []
    then Ok Reject
    else
      let i := i + accIndex in
      if bytes_eqb lastAcc [] then Ok (Next i (j + 1)) else Ok (Done i lastAcc).

(** The loop.  [j] grows in every iteration and an iteration with [j] beyond
    the end of [path] fails, so [length path + 2] bounds their number. *)
Fixpoint locate_loop (fuel : nat) (json path : list byte) (i j : Z) : outcome walk :=
  match fuel with
  | O => Fail FuelExhausted
  | S fuel' =>
      w <- iteration json path i j ;;
      match w with
      | Next i' j' => locate_loop fuel' json path i' j'
      | _ => Ok w
      end
  end.

(** The loop from the start of the path. *)
Definition locatePath (json path : list byte) : outcome walk :=
  locate_loop (length path + 2) json path 0 0.

(** [for j := 0; j < count; j++ { json[i+j] = ' ' }] *)
Fixpoint pad_spaces (count : nat) (json : list byte) (i j : Z) : outcome (list byte) :=
  match count with
  | O => Ok json
  | S count' =>
      json <- store json (i + j) " " ;;
      pad_spaces count' json i (j + 1)
  end.

(** The part of [rewritePath] after the accessor loop. *)
Definition rewriteAt (json : list byte) (i : Z) (lastAcc val : list byte)
  (inPlace : bool) : outcome result :=
  c <- index BufferRange json i ;;
  let appendNull := Byte.eqb c "l" && bytes_eqb lastAcc ["0"] in
  let i := if appendNull then i - 3 else i in
  ji <- slice_from BufferRange json i ;;
  rest <- consumeValue ji ;;
  overwritten <-
    (if inPlace then
       c <- index BufferRange json i ;;
       let oldLen :=
         if negb (Byte.eqb c "}") && negb (Byte.eqb c "]")
         then len ji - len rest else 0 in
       let newLen := if appendNull then len val + 2 else len val in
       if newLen <=? oldLen then
         json <- (if appendNull then
                    json <- store json i "[" ;;
                    json <- copy_at json (i + 1) val ;;
                    store json (i + newLen - 1) "]"
                  else copy_at json i val) ;;
         json <- pad_spaces (Z.to_nat (oldLen - newLen)) json (i + newLen) 0 ;;
         Ok (Some json)
       else Ok None
     else Ok None) ;;
  match overwritten with
  | Some json => Ok (return_json json)
  | None =>
      pre <- slice BufferRange json 0 i ;;
      c <- index BufferRange json i ;;
      mid <-
        (if Byte.eqb c "}" then
           p <- prevChar json i ;;
           Ok ((if negb (Byte.eqb p "{") then [","] else [])
                 ++ quote :: lastAcc ++ quote :: ":" :: val)
         else if Byte.eqb c "]" then
           p <- prevChar json i ;;
           Ok ((if negb (Byte.eqb p "[") then [","] else []) ++ val)
         else if Byte.eqb c "n" then Ok ("[" :: val ++ ["]"])
         else Ok val) ;;
      Ok {| ret := pre ++ mid ++ rest; buf := json; shared := false |}
  end.

Definition rewritePath (json : buffer) (path val : list byte) (inPlace : bool)
  : outcome result :=
  match path with
  | [] =>
      if inPlace then
        (* append(json[:0], val...) *)
        if len val <=? cap json then
          Ok {| ret := val;
                buf := firstn (length (bytes json))
                         (val ++ skipn (length val) (bytes json));
                shared := true |}
        else Ok {| ret := val; buf := bytes json; shared := false |}
      else Ok {| ret := val; buf := bytes json; shared := false |}
  | _ =>
      w <- locatePath (bytes json) path ;;
      match w with
      | Done i lastAcc => rewriteAt (bytes json) i lastAcc val inPlace
      | Reject => Ok (return_json (bytes json))
      | Next _ _ => Fail FuelExhausted
      end
  end.

(** The entry points.  The value encoder ([marshal], over [strconv] and
    [encoding/json]) runs before [rewritePath] and is not part of this
    development: [val] is the encoded value, [marshal(obj)]. *)
Definition Set_ (json : buffer) (path val : list byte) : outcome result :=
  rewritePath json path val false.

Definition SetInPlace (json : buffer) (path val : list byte) : outcome result :=
  rewritePath json path val true.

Definition SetRawInPlace (json : buffer) (path val : list byte) : outcome result :=
  rewritePath json path val true.

(* ------------------------------------------------------------------ *)
(** ** Test vectors *)

(** JSON text for the examples: the bytes of [s] with every apostrophe
    turned into a double quote. *)
Definition js (s : string) : list byte :=
  map (fun c => if Byte.eqb c "'" then quote else c) (list_byte_of_string s).

(** [[]byte(s)] with no spare capacity. *)
Definition doc (s : string) : buffer :=
  {| bytes := js s; cap := len (js s) |}.

Definition returned (r : outcome result) : outcome (list byte) :=
  x <- r ;; Ok (ret x).

(* ------------------------------------------------------------------ *)
(** ** Well-formed JSON text

    The grammar of RFC 8259 over bytes, with its whitespace kept, and a
    little more: a string body is any bytes in which every backslash has a
    byte after it and no other double quote occurs, a number is any run of
    the bytes [0-9+-.eE] that starts with a digit or a minus sign.  Every JSON
    text is well formed in this sense. *)

Definition all_ws (w : list byte) : Prop := Forall (fun c => nonspace c = false) w.

Inductive str_body : list byte -> Prop :=
| str_nil : str_body []
| str_plain c s :
    Byte.eqb c quote = false -> Byte.eqb c backslash = false ->
    str_body s -> str_body (c :: s)
| str_escape c s : str_body s -> str_body (backslash :: c :: s).

Definition num_body (s : list byte) : Prop :=
  match s with
  | [] => False
  | c :: _ => (is_digit c || Byte.eqb c "-") = true /\ Forall (fun d => numchar d = true) s
  end.

(** An element of an array and a member of an object, as they are written:
    the value and the key with the whitespace around them. *)
Record element : Type := Element {
  e_pre : list byte;
  e_val : list byte;
  e_post : list byte
}.

Record member : Type := Member {
  m_pre : list byte;
  m_key : list byte;
  m_mid : list byte;
  m_sep : list byte;
  m_val : list byte;
  m_post : list byte
}.

Definition render_element (e : element) : list byte :=
  e_pre e ++ e_val e ++ e_post e.

(** The text of a member up to its value, and all of it. *)
Definition member_head (m : member) : list byte :=
  m_pre m ++ quote :: m_key m ++ quote :: m_mid m ++ ":" :: m_sep m.

Definition render_member (m : member) : list byte :=
  member_head m ++ m_val m ++ m_post m.

(** Items separated by commas. *)
Fixpoint commas (items : list (list byte)) : list byte :=
  match items with
  | [] => []
  | [x] => x
  | x :: rest => x ++ "," :: commas rest
  end.

Definition render_elements (es : list element) : list byte :=
  commas (map render_element es).

Definition render_members (ms : list member) : list byte :=
  commas (map render_member ms).

Definition render_array (w : list byte) (es : list element) : list byte :=
  "[" :: w ++ render_elements es ++ ["]"].

Definition render_object (w : list byte) (ms : list member) : list byte :=
  "{" :: w ++ render_members ms ++ ["}"].

Inductive wf_value : list byte -> Prop :=
| wf_null : wf_value ["n"; "u"; "l"; "l"]
| wf_true : wf_value ["t"; "r"; "u"; "e"]
| wf_false : wf_value ["f"; "a"; "l"; "s"; "e"]
| wf_number s : num_body s -> wf_value s
| wf_string s : str_body s -> wf_value (quote :: s ++ [quote])
| wf_array w es : all_ws w -> wf_elements es -> wf_value (render_array w es)
| wf_object w ms : all_ws w -> wf_members ms -> wf_value (render_object w ms)
with wf_elements : list element -> Prop :=
| wf_elements_nil : wf_elements []
| wf_elements_cons e es :
    all_ws (e_pre e) -> wf_value (e_val e) -> all_ws (e_post e) ->
    wf_elements es -> wf_elements (e :: es)
with wf_members : list member -> Prop :=
| wf_members_nil : wf_members []
| wf_members_cons m ms :
    all_ws (m_pre m) -> str_body (m_key m) -> all_ws (m_mid m) ->
    all_ws (m_sep m) -> wf_value (m_val m) -> all_ws (m_post m) ->
    wf_members ms -> wf_members (m :: ms).

Scheme wf_value_mut := Minimality for wf_value Sort Prop
  with wf_elements_mut := Minimality for wf_elements Sort Prop
  with wf_members_mut := Minimality for wf_members Sort Prop.

Combined Scheme wf_mutual from wf_value_mut, wf_elements_mut, wf_members_mut.

(** What may follow a value for the scanner to stop at its end: a number
    ends where the run of number bytes ends. *)
Definition follow_ok (rest : list byte) : Prop :=
  match rest with
  | [] => True
  | c :: _ => numchar c = false
  end.

(** A document: one value with whitespace around it. *)
Definition wf_document (json : list byte) : Prop :=
  exists w0 v w1, json = w0 ++ v ++ w1 /\ all_ws w0 /\ wf_value v /\ all_ws w1.
(** Comma-separated items around one of them:
    [commas (l1 ++ x :: l2) = items_before l1 ++ x ++ items_after l2]. *)
Definition items_before (l : list (list byte)) : list byte :=
  concat (map (fun x => x ++ [","]) l).

Definition items_after (l : list (list byte)) : list byte :=
  concat (map (fun x => "," :: x) l).

Definition members_before (ms : list member) : list byte :=
  items_before (map render_member ms).

Definition members_after (ms : list member) : list byte :=
  items_after (map render_member ms).

Definition elements_before (es : list element) : list byte :=
  items_before (map render_element es).

Definition elements_after (es : list element) : list byte :=
  items_after (map render_element es).

(** The offset, in the text of the members of an object, of the value of the
    first member whose key has exactly the bytes of [acc]. *)
Fixpoint member_offset (acc : list byte) (ms : list member) : option Z :=
  match ms with
  | [] => None
  | m :: ms' =>
      if bytes_eqb (m_key m) acc then Some (len (member_head m))
      else
        match member_offset acc ms' with
        | Some k => Some (len (render_member m) + 1 + k)
        | None => None
        end
  end.

(** The states the accessor loop passes through: [reaches json path i j]
    when an iteration of the loop starts with the cursors [i] and [j]. *)
Inductive reaches (json path : list byte) : Z -> Z -> Prop :=
| reaches_start : reaches json path 0 0
| reaches_next i j i' j' :
    reaches json path i j ->
    iteration json path i j = Ok (Next i' j') ->
    reaches json path i' j'.

(** An accessor holds no dot. *)
Definition dot_free (acc : list byte) : Prop :=
  Forall (fun c => Byte.eqb c "." = false) acc.

(** The test of the loop for an append point. *)
Definition closer (c : byte) : bool :=
  Byte.eqb c "]" || Byte.eqb c "}" || Byte.eqb c "l".

(** The literal [null]. *)
Definition null : list byte := ["n"; "u"; "l"; "l"].

(** Whether a comma goes before what is appended. *)
Definition comma_after {A : Type} (items : list A) : list byte :=
  match items with
  | [] => []
  | _ :: _ => [","]
  end.


(* ------------------------------------------------------------------ *)
(** ** Where the answers of the locator point

    The package comment: "The Set functions do nothing if the supplied path is
    malformed.  A path is considered malformed if its path references an
    element that does not exist [...].  If this special index is not the last
    accessor, the path is considered malformed (and thus is ignored)."  The
    definitions below follow a path with the answers of [locateAccessor]
    itself, and look at the byte of the document that an answer points to. *)

(** Where the answer of the locator points. *)
Inductive landing : Type :=
| AtValue (off : Z)
| AtClosing (off : Z)
| AtNullEnd (off : Z)
| Nowhere.

(** The answer of [locateAccessor] on [json[i:]] for [acc], as an offset into
    [json]: nowhere when it is [-1]; else on a closing brace or bracket (the
    place where the last accessor may add a member or an element), on the
    last byte of a [null], or on a value, by the byte of [json] at [i + r]
    (the byte that the test of the loop is meant to read). *)
Definition landing_of (json : list byte) (i : Z) (acc : list byte) : outcome landing :=
  ji <- slice_from BufferRange json i ;;
  r <- locateAccessor ji acc ;;
  if r =? -1 then Ok Nowhere
  else
    c <- index BufferRange json (i + r) ;;
    if Byte.eqb c "}" || Byte.eqb c "]" then Ok (AtClosing (i + r))
    else if Byte.eqb c "l" then Ok (AtNullEnd (i + r))
    else Ok (AtValue (i + r)).

(** The accessors of a path: its pieces between the dots. *)
Fixpoint segments (path : list byte) : list (list byte) :=
  match path with
  | [] => [[]]
  | c :: tl =>
      if Byte.eqb c "." then [] :: segments tl
      else
        match segments tl with
        | s :: ss => (c :: s) :: ss
        | [] => [[c]]
        end
  end.

Fixpoint join_dots (segs : list (list byte)) : list byte :=
  match segs with
  | [] => []
  | [s] => s
  | s :: ss => s ++ "." :: join_dots ss
  end.

(** The walk along the accessors with these answers stops short: the
    locator finds nothing for an accessor, or an accessor that is not the
    last one lands elsewhere than on a value. *)
Fixpoint walk_stops (json : list byte) (i : Z) (segs : list (list byte)) : outcome bool :=
  match segs with
  | [] => Ok false
  | [acc] =>
      l <- landing_of json i acc ;;
      Ok match l with Nowhere => true | _ => false end
  | acc :: rest =>
      l <- landing_of json i acc ;;
      match l with
      | AtValue off => walk_stops json off rest
      | _ => Ok true
      end
  end.

(* ------------------------------------------------------------------ *)
(** ** Cursors in a well-formed document *)

(** At the offset [k] of [json] there is a value. *)
Definition value_at (json : list byte) (k : Z) : Prop :=
  exists pre v rest,
    json = pre ++ v ++ rest /\ len pre = k /\ wf_value v /\ follow_ok rest.

(** ... a closing brace or bracket. *)
Definition closing_at (json : list byte) (k : Z) : Prop :=
  exists pre c rest,
    json = pre ++ c :: rest /\ len pre = k /\ (c = "}" \/ c = "]").

(** ... the last byte of a [null]. *)
Definition null_at (json : list byte) (k : Z) : Prop :=
  exists pre rest, json = pre ++ null ++ rest /\ len pre + 3 = k.

(** The places the locator answers with. *)
Definition target_ok (json : list byte) (k : Z) : Prop :=
  value_at json k \/ closing_at json k \/ null_at json k.

(** The cursors of the accessor loop: before a value, with whitespace in
    between at the start of the document, or on a byte that the loop takes
    for an append point. *)
Definition state_ok (json : list byte) (i : Z) : Prop :=
  (exists pre w v rest,
      json = pre ++ w ++ v ++ rest /\ len pre = i /\ all_ws w /\ wf_value v
      /\ follow_ok rest)
  \/ (exists c, index BufferRange json i = Ok c /\ closer c = true).

(** What an iteration of the accessor loop does from a cursor of a
    well-formed document. *)
Definition iteration_good (json path : list byte) (j : Z) (o : outcome walk) : Prop :=
  match o with
  | Ok Reject => True
  | Ok (Next i' j') => state_ok json i' /\ j < j' <= len path + 1
  | Ok (Done k _) => target_ok json k
  | Fail f => f = PathRange
  end.

(** What the accessor loop does from such a cursor. *)
Definition loop_good (json : list byte) (o : outcome walk) : Prop :=
  match o with
  | Ok Reject => True
  | Ok (Done k _) => target_ok json k
  | Ok (Next _ _) => False
  | Fail f => f = PathRange
  end.


(* ------------------------------------------------------------------ *)
(** ** Strings that are not closed *)

(** The bytes after an opening quote among which the loop of
    [consumeString] meets no closing quote: every double quote has a
    backslash before it that escapes it, and the text may end in a backslash
    that escapes nothing. *)
Inductive str_open : list byte -> Prop :=
| open_nil : str_open []
| open_backslash : str_open [backslash]
| open_plain c s :
    Byte.eqb c quote = false -> Byte.eqb c backslash = false ->
    str_open s -> str_open (c :: s)
| open_escape c s : str_open s -> str_open (backslash :: c :: s).

(* ------------------------------------------------------------------ *)
(** ** The bounds of the embedding *)

(** The outcome [m] is not the one that the embedding adds to those of the
    Go code. *)
Definition within_bound {A : Type} (m : outcome A) : Prop := m <> Fail FuelExhausted.

(* ------------------------------------------------------------------ *)
(** ** The tables of the tests of the repository

    The tables of [mjson_test.go], with the texts as bytes. *)

Definition TestRewritePath_table : list (list byte * list byte * list byte * list byte) :=
  [ ([], [], [], []);
    ((js "'foo'"), [], [], []);
    ([], (js "foo"), [], []);
    ([], [], (js "'foo'"), (js "'foo'"));
    ((js "'foo'"), [], (js "'bar'"), (js "'bar'"));
    ((js "{'foo':'bar'}"), (js "foo"), (js "'baz'"), (js "{'foo':'baz'}"));
    ((js "{'foo':'bar', 'bar':'baz'}"), (js "bar"), (js "'quux'"), (js "{'foo':'bar', 'bar':'quux'}"));
    ((js "{'foo': {'bar': 'baz'}}"), (js "foo.bar"), (js "'quux'"), (js "{'foo': {'bar': 'quux'}}"));
    ((js "{'foo':'bar'}"), (js "bar"), (js "'baz'"), (js "{'foo':'bar','bar':'baz'}"));
    ((js "{'foo': {}}"), (js "foo.bar"), (js "'baz'"), (js "{'foo': {'bar':'baz'}}"));
    ((js "[]"), (js "foo"), (js "'bar'"), (js "[]"));
    ((js "[1]"), (js "0"), (js "'bar'"), (js "['bar']"));
    ((js "[1, 2]"), (js "0"), (js "'bar'"), (js "['bar', 2]"));
    ((js "[1, 2]"), (js "1"), (js "'bar'"), (js "[1, 'bar']"));
    ((js "[]"), (js "0"), (js "'bar'"), (js "['bar']"));
    ((js "[1]"), (js "1"), (js "'bar'"), (js "[1,'bar']"));
    ((js "['foo', 'bar']"), (js "2"), (js "'baz'"), (js "['foo', 'bar','baz']"));
    ((js "[[1,2], [3,4]]"), (js "1.0"), (js "'baz'"), (js "[[1,2], ['baz',4]]"));
    ((js "[[1,2], [3,4]]"), (js "1.2"), (js "'baz'"), (js "[[1,2], [3,4,'baz']]"));
    ((js "[[1,2], [3,4]]"), (js "2.0"), (js "'baz'"), (js "[[1,2], [3,4]]"));
    ((js "[[1,2], [3,4]]"), (js "2"), (js "'baz'"), (js "[[1,2], [3,4],'baz']"));
    ((js "{'foo': [1,2]}"), (js "foo.0"), (js "'bar'"), (js "{'foo': ['bar',2]}"));
    ((js "{'foo': [1,2]}"), (js "foo.2"), (js "'bar'"), (js "{'foo': [1,2,'bar']}"));
    ((js "{'foo': [1,2]}"), (js "bar.2"), (js "'bar'"), (js "{'foo': [1,2]}"));
    ((js "[{'foo': 'bar'}]"), (js "0.foo"), (js "'baz'"), (js "[{'foo': 'baz'}]"));
    ((js "[{}, {'foo': 'bar'}]"), (js "1.foo"), (js "'baz'"), (js "[{}, {'foo': 'baz'}]"));
    ((js "[{'foo': 'bar'}]"), (js "1.foo"), (js "'baz'"), (js "[{'foo': 'bar'}]"));
    ((js "null"), (js "foo"), (js "'bar'"), (js "null"));
    ((js "null"), (js "0"), (js "'bar'"), (js "['bar']"));
    ((js "{'foo': null}"), (js "foo.0"), (js "'bar'"), (js "{'foo': ['bar']}"));
    ((js "{'foo': [{}, {'bar': [{'baz':''}]}}]"), (js "foo.1.bar.0.baz"), (js "'quux'"), (js "{'foo': [{}, {'bar': [{'baz':'quux'}]}}]")) ].

Definition TestRewritePathInPlace_table : list (list byte * list byte * list byte * list byte) :=
  [ ((js "'foo'"), [], [], []);
    ((js "'foo'"), [], (js "'bar'"), (js "'bar'"));
    ((js "{'foo':'bar'}"), (js "foo"), (js "'baz'"), (js "{'foo':'baz'}"));
    ((js "{'foo':'bar', 'bar':'quux'}"), (js "bar"), (js "'baz'"), (js "{'foo':'bar', 'bar':'baz' }"));
    ((js "{'foo': {'bar': 'baz'}}"), (js "foo.bar"), (js "'quux'"), (js "{'foo': {'bar': 'quux'}}"));
    ((js "{'foo':'bar'}"), (js "bar"), (js "'baz'"), (js "{'foo':'bar','bar':'baz'}"));
    ((js "{'foo': {}}"), (js "foo.bar"), (js "'baz'"), (js "{'foo': {'bar':'baz'}}"));
    ((js "[]"), (js "foo"), (js "'bar'"), (js "[]"));
    ((js "[10]"), (js "0"), (js "1"), (js "[1 ]"));
    ((js "[1, 2]"), (js "0"), (js "'bar'"), (js "['bar', 2]"));
    ((js "[[1,2], [3,4]]"), (js "1"), (js "'baz'"), (js "[[1,2], 'baz']"));
    ((js "null"), (js "foo"), (js "'bar'"), (js "null"));
    ((js "null"), (js "0"), (js "1"), (js "[1] "));
    ((js "{'foo': null}"), (js "foo.0"), (js "1"), (js "{'foo': [1] }")) ].

Definition TestLocateAccessor_table : list (list byte * list byte * Z) :=
  [ ((js "{}"), (js "foo"), (-1));
    ((js "{'foo':0}"), (js "foo"), 7);
    ((js "{'foo':0}"), (js "bar"), 8);
    ((js "{'foo':0}3"), (js "foo"), 7);
    ((js "{'foo':0} 3"), (js "foo"), 7);
    ((js "{'foo':0,'bar':7}"), (js "bar"), 15);
    ((js "{'foo':0 , 'bar':7}"), (js "bar"), 17);
    ((js "{'foo':0,'bar':7}3"), (js "bar"), 15);
    ((js "{'foo':0,'bar':7} 3"), (js "bar"), 15);
    ((js "[1,2,3]"), (js "0"), 1);
    ((js "[1,2,3]"), (js "1"), 3);
    ((js "[1,2,3]"), (js "2"), 5);
    ((js "[1,2,3]"), (js "3"), 6);
    ((js "[1,2,3]"), (js "4"), (-1));
    ((js "[1,2,3]"), (js "foo"), (-1));
    ((js "[]"), (js "0"), 1);
    ((js "[]"), (js "1"), (-1));
    ((js "null"), (js "0"), 3);
    ((js "null"), (js "1"), (-1));
    ((js "'foo'"), (js "foo"), (-1));
    ((js "'{\'foo\': 3}'"), (js "foo"), (-1));
    ((js "3"), (js "foo"), (-1));
    ((js "3"), (js "3"), (-1)) ].

Definition TestParseString_table : list (list byte * list byte * list byte) :=
  [ ((js "''"), [], []);
    ((js "'foo'"), (js "foo"), []);
    ((js "'foo':'bar'"), (js "foo"), (js ":'bar'"));
    ((js "'foo' : 'bar'"), (js "foo"), (js " : 'bar'"));
    ((js "'foo\'bar'"), (js "foo\'bar"), []);
    ((js "'foo\'bar':'baz'"), (js "foo\'bar"), (js ":'baz'"));
    ((js "'foo\\\'bar':'baz'"), (js "foo\\\'bar"), (js ":'baz'")) ].

Definition TestConsumeWhitespace_table : list (list byte * list byte) :=
  [ ([" "], []);
    ([" "; "3"], (js "3"));
    ([x09], []);
    ([x09; "3"], (js "3"));
    ([x0a], []);
    ([x0a; "3"], (js "3"));
    ([x0d], []);
    ([x0d; "3"], (js "3"));
    ([" "; x09; x0a; x0d], []);
    ([" "; x09; x0a; x0d; "3"], (js "3")) ].

Definition TestPrevChar_table : list (list byte * Z * byte) :=
  [ ([" "], 0, " ");
    ([" "; "3"], 1, "3");
    ([x09], 0, x09);
    ([x09; "3"], 1, "3");
    ([x0a], 0, x0a);
    ([x0a; "3"], 1, "3");
    ([x0d], 0, x0d);
    ([x0d; "3"], 1, "3");
    ([" "; x09; x0a; x0d], 3, x0d);
    ([" "; x09; x0a; x0d; "3"], 4, "3");
    (["["; "]"], 1, "[");
    ([" "; "]"], 1, "]");
    (["["; "1"; "]"], 2, "1");
    (["{"; "}"], 1, "{");
    ([" "; "}"], 1, "}");
    ((js "{'foo'}"), 6, quote) ].

Definition TestConsumeSeparator_table : list (list byte * list byte) :=
  [ (["["], []);
    (["["; " "; x0d; x0a; x09], []);
    (["["; "3"], (js "3"));
    (["["; " "; x0d; x0a; x09; "3"], (js "3"));
    (["{"], []);
    (["{"; " "; x0d; x0a; x09], []);
    (["{"; "3"], (js "3"));
    (["{"; " "; x0d; x0a; x09; "3"], (js "3"));
    (["}"], []);
    (["}"; " "; x0d; x0a; x09], []);
    (["}"; "3"], (js "3"));
    (["}"; " "; x0d; x0a; x09; "3"], (js "3"));
    (["]"], []);
    (["]"; " "; x0d; x0a; x09], []);
    (["]"; "3"], (js "3"));
    (["]"; " "; x0d; x0a; x09; "3"], (js "3"));
    ([":"], []);
    ([":"; " "; x0d; x0a; x09], []);
    ([":"; "3"], (js "3"));
    ([":"; " "; x0d; x0a; x09; "3"], (js "3"));
    ([","], []);
    ([","; " "; x0d; x0a; x09], []);
    ([","; "3"], (js "3"));
    ([","; " "; x0d; x0a; x09; "3"], (js "3")) ].

Definition TestConsumeValue_table : list (list byte * list byte) :=
  [ ((js "{}"), []);
    ((js "{}3"), (js "3"));
    ((js "{} 3"), (js " 3"));
    ((js "{'foo':0}"), []);
    ((js "{'foo':0}3"), (js "3"));
    ((js "{'foo':0} 3"), (js " 3"));
    ((js "{'foo':0,'bar':7}"), []);
    ((js "{'foo':0,'bar':7}3"), (js "3"));
    ((js "{'foo':0,'bar':7} 3"), (js " 3"));
    ((js "{'foo':0 , 'bar':7}"), []);
    ((js "{'foo':0 , 'bar':7}3"), (js "3"));
    ((js "{'foo':0 , 'bar':7} 3"), (js " 3"));
    ((js "{'':''}"), []);
    ((js "{'':''}3"), (js "3"));
    ((js "{'':''} 3"), (js " 3"));
    ((js "{'}':'}'}"), []);
    ((js "{'}':'}'}3"), (js "3"));
    ((js "{'}':'}'} 3"), (js " 3"));
    ((js "{'':{}}"), []);
    ((js "{'':{}}3"), (js "3"));
    ((js "{'':{}} 3"), (js " 3"));
    ((js "{'}':['}{']}"), []);
    ((js "{'}':['}{']}3"), (js "3"));
    ((js "{'}':['}{']} 3"), (js " 3"));
    ((js "{'':{'':{'':{}}}}"), []);
    ((js "{'':{'':{'':{}}}}3"), (js "3"));
    ((js "{'':{'':{'':{}}}} 3"), (js " 3"));
    ((js "[]"), []);
    ((js "[]3"), (js "3"));
    ((js "[] 3"), (js " 3"));
    ((js "[0]"), []);
    ((js "[0]3"), (js "3"));
    ((js "[0] 3"), (js " 3"));
    ((js "[0,1]"), []);
    ((js "[0,1]3"), (js "3"));
    ((js "[0,1] 3"), (js " 3"));
    ((js "[0 , 1]"), []);
    ((js "[0 , 1]3"), (js "3"));
    ((js "[0 , 1] 3"), (js " 3"));
    ((js "['', '']"), []);
    ((js "['', '']3"), (js "3"));
    ((js "['', ''] 3"), (js " 3"));
    ((js "[[], []]"), []);
    ((js "[[], []]3"), (js "3"));
    ((js "[[], []] 3"), (js " 3"));
    ((js "['[', ']']"), []);
    ((js "['[', ']']3"), (js "3"));
    ((js "['[', ']'] 3"), (js " 3"));
    ((js "[[']', ']'], [{'foo':[]}]]"), []);
    ((js "[[']', ']'], [{'foo':[]}]]3"), (js "3"));
    ((js "[[']', ']'], [{'foo':[]}]] 3"), (js " 3"));
    ((js "''"), []);
    ((js "'foo'"), []);
    ((js "'foo':'bar'"), (js ":'bar'"));
    ((js "'foo' : 'bar'"), (js " : 'bar'"));
    ((js "'foo\'bar'"), []);
    ((js "'foo\'bar':'baz'"), (js ":'baz'"));
    ((js "true"), []);
    ((js "false"), []);
    ((js "null"), []);
    ((js "true3"), (js "3"));
    ((js "false3"), (js "3"));
    ((js "null3"), (js "3"));
    ((js "true 3"), (js " 3"));
    ((js "false 3"), (js " 3"));
    ((js "null 3"), (js " 3"));
    ((js "-0"), []);
    ((js "-0 true"), (js " true"));
    ((js "0"), []);
    ((js "0 true"), (js " true"));
    ((js "0.0"), []);
    ((js "0.0 true"), (js " true"));
    ((js "1.0"), []);
    ((js "1.0 true"), (js " true"));
    ((js "10"), []);
    ((js "10 true"), (js " true"));
    ((js "10.1"), []);
    ((js "10.1 true"), (js " true"));
    ((js "1e7"), []);
    ((js "1e7 true"), (js " true"));
    ((js "1e+7"), []);
    ((js "1e+7 true"), (js " true"));
    ((js "1e-7"), []);
    ((js "1e-7 true"), (js " true"));
    ((js "1.0e7"), []);
    ((js "1.0e7 true"), (js " true"));
    ((js "1.0e+7"), []);
    ((js "1.0e+7 true"), (js " true"));
    ((js "1.0e-7"), []);
    ((js "1.0e-7 true"), (js " true"));
    ((js "10.1e7"), []);
    ((js "10.1e7 true"), (js " true"));
    ((js "10.1e+7"), []);
    ((js "10.1e+7 true"), (js " true"));
    ((js "10.1e-7"), []);
    ((js "10.1e-7 true"), (js " true")) ].

Definition TestConsumeObject_table : list (list byte * list byte) :=
  [ ((js "{}"), []);
    ((js "{}3"), (js "3"));
    ((js "{} 3"), (js " 3"));
    ((js "{'foo':0}"), []);
    ((js "{'foo':0}3"), (js "3"));
    ((js "{'foo':0} 3"), (js " 3"));
    ((js "{'foo':0,'bar':7}"), []);
    ((js "{'foo':0,'bar':7}3"), (js "3"));
    ((js "{'foo':0,'bar':7} 3"), (js " 3"));
    ((js "{'foo':0 , 'bar':7}"), []);
    ((js "{'foo':0 , 'bar':7}3"), (js "3"));
    ((js "{'foo':0 , 'bar':7} 3"), (js " 3"));
    ((js "{'':''}"), []);
    ((js "{'':''}3"), (js "3"));
    ((js "{'':''} 3"), (js " 3"));
    ((js "{'}':'}'}"), []);
    ((js "{'}':'}'}3"), (js "3"));
    ((js "{'}':'}'} 3"), (js " 3"));
    ((js "{'':{}}"), []);
    ((js "{'':{}}3"), (js "3"));
    ((js "{'':{}} 3"), (js " 3"));
    ((js "{'}':['}{']}"), []);
    ((js "{'}':['}{']}3"), (js "3"));
    ((js "{'}':['}{']} 3"), (js " 3"));
    ((js "{'':{'':{'':{}}}}"), []);
    ((js "{'':{'':{'':{}}}}3"), (js "3"));
    ((js "{'':{'':{'':{}}}} 3"), (js " 3")) ].

Definition TestConsumeArray_table : list (list byte * list byte) :=
  [ ((js "[]"), []);
    ((js "[]3"), (js "3"));
    ((js "[] 3"), (js " 3"));
    ((js "[0]"), []);
    ((js "[0]3"), (js "3"));
    ((js "[0] 3"), (js " 3"));
    ((js "[0,1]"), []);
    ((js "[0,1]3"), (js "3"));
    ((js "[0,1] 3"), (js " 3"));
    ((js "[0 , 1]"), []);
    ((js "[0 , 1]3"), (js "3"));
    ((js "[0 , 1] 3"), (js " 3"));
    ((js "['', '']"), []);
    ((js "['', '']3"), (js "3"));
    ((js "['', ''] 3"), (js " 3"));
    ((js "[[], []]"), []);
    ((js "[[], []]3"), (js "3"));
    ((js "[[], []] 3"), (js " 3"));
    ((js "['[', ']']"), []);
    ((js "['[', ']']3"), (js "3"));
    ((js "['[', ']'] 3"), (js " 3"));
    ((js "[[']', ']'], [{'foo':[]}]]"), []);
    ((js "[[']', ']'], [{'foo':[]}]]3"), (js "3"));
    ((js "[[']', ']'], [{'foo':[]}]] 3"), (js " 3")) ].

Definition TestConsumeString_table : list (list byte * list byte) :=
  [ ((js "''"), []);
    ((js "'foo'"), []);
    ((js "'foo':'bar'"), (js ":'bar'"));
    ((js "'foo' : 'bar'"), (js " : 'bar'"));
    ((js "'foo\'bar'"), []);
    ((js "'foo\'bar':'baz'"), (js ":'baz'"));
    ((js "'foo\\\'bar':'baz'"), (js ":'baz'")) ].

Definition TestConsumeNumber_table : list (list byte * list byte) :=
  [ ((js "-0"), []);
    ((js "-0 true"), (js " true"));
    ((js "0"), []);
    ((js "0 true"), (js " true"));
    ((js "0.0"), []);
    ((js "0.0 true"), (js " true"));
    ((js "1.0"), []);
    ((js "1.0 true"), (js " true"));
    ((js "10"), []);
    ((js "10 true"), (js " true"));
    ((js "10.1"), []);
    ((js "10.1 true"), (js " true"));
    ((js "1e7"), []);
    ((js "1e7 true"), (js " true"));
    ((js "1e+7"), []);
    ((js "1e+7 true"), (js " true"));
    ((js "1e-7"), []);
    ((js "1e-7 true"), (js " true"));
    ((js "1.0e7"), []);
    ((js "1.0e7 true"), (js " true"));
    ((js "1.0e+7"), []);
    ((js "1.0e+7 true"), (js " true"));
    ((js "1.0e-7"), []);
    ((js "1.0e-7 true"), (js " true"));
    ((js "10.1e7"), []);
    ((js "10.1e7 true"), (js " true"));
    ((js "10.1e+7"), []);
    ((js "10.1e+7 true"), (js " true"));
    ((js "10.1e-7"), []);
    ((js "10.1e-7 true"), (js " true")) ].

(** What the loops over the tables check. *)
Definition expect (o : outcome (list byte)) (exp : list byte) : bool :=
  match o with
  | Ok r => bytes_eqb r exp
  | Fail _ => false
  end.

Definition run_rewritePath (inPlace : bool)
  (t : list byte * list byte * list byte * list byte) : bool :=
  let '(json, path, val, exp) := t in
  expect (returned (rewritePath (Buffer json (len json)) path val inPlace)) exp.

Definition run_locateAccessor (t : list byte * list byte * Z) : bool :=
  let '(json, acc, loc) := t in
  match locateAccessor json acc with
  | Ok r => r =? loc
  | Fail _ => false
  end.

Definition run_parseString (t : list byte * list byte * list byte) : bool :=
  let '(json, str, rest) := t in
  match parseString json with
  | Ok (key, after) => bytes_eqb key str && bytes_eqb after rest
  | Fail _ => false
  end.

Definition run_prevChar (t : list byte * Z * byte) : bool :=
  let '(json, i, c) := t in
  match prevChar json i with
  | Ok d => Byte.eqb d c
  | Fail _ => false
  end.

Definition run_scanner (f : list byte -> outcome (list byte))
  (t : list byte * list byte) : bool :=
  let '(json, rest) := t in expect (f json) rest.
(* ------------------------------------------------------------------ *)
(** ** Slices and bytes *)

Lemma len_nil {A : Type} : len (@nil A) = 0.
Proof. reflexivity. Qed.

Lemma len_cons {A : Type} (x : A) (s : list A) : len (x :: s) = len s + 1.
Proof. unfold len. simpl length. lia. Qed.

Lemma len_app {A : Type} (a b : list A) : len (a ++ b) = len a + len b.
Proof. unfold len. rewrite length_app. lia. Qed.

Lemma len_nonneg {A : Type} (s : list A) : 0 <= len s.
Proof. unfold len. lia. Qed.

Lemma len_to_nat {A : Type} (s : list A) : Z.to_nat (len s) = length s.
Proof. unfold len. lia. Qed.

Lemma len_repeat {A : Type} (x : A) (n : nat) : len (repeat x n) = Z.of_nat n.
Proof. unfold len. now rewrite repeat_length. Qed.

Lemma len_zero_nil {A : Type} (s : list A) : len s = 0 -> s = [].
Proof. destruct s; [reflexivity|]. rewrite len_cons. pose proof (len_nonneg s). lia. Qed.

Create Rewrite HintDb len.
#[local] Hint Rewrite @len_cons @len_app @len_repeat : len.

Ltac lens := autorewrite with len in *;
  repeat match goal with
         | |- context [@len ?A (@nil ?A)] => change (@len A (@nil A)) with 0
         | H : context [@len ?A (@nil ?A)] |- _ =>
             change (@len A (@nil A)) with 0 in H
         end;
  repeat match goal with
         | |- context [len ?s] =>
             lazymatch goal with
             | _ : 0 <= len s |- _ => fail
             | _ => pose proof (len_nonneg s)
             end
         | _ : context [len ?s] |- _ =>
             lazymatch goal with
             | _ : 0 <= len s |- _ => fail
             | _ => pose proof (len_nonneg s)
             end
         end.

Lemma eqb_refl (c : byte) : Byte.eqb c c = true.
Proof. now apply Byte.byte_dec_lb. Qed.

Lemma eqb_eq (c d : byte) : Byte.eqb c d = true <-> c = d.
Proof. split; [apply Byte.byte_dec_bl | apply Byte.byte_dec_lb]. Qed.

Lemma eqb_neq (c d : byte) : Byte.eqb c d = false <-> c <> d.
Proof.
  split.
  - apply Byte.eqb_false.
  - intros H. destruct (Byte.eqb c d) eqn:E; [|reflexivity].
    apply eqb_eq in E. contradiction.
Qed.

Lemma bytes_eqb_eq (a b : list byte) : bytes_eqb a b = true <-> a = b.
Proof.
  revert b. induction a as [|x a IH]; intros [|y b]; simpl; split; intros H;
    try reflexivity; try discriminate.
  - apply andb_true_iff in H as [H1 H2]. apply eqb_eq in H1. apply IH in H2.
    now subst.
  - injection H as -> ->. rewrite eqb_refl. simpl. now apply IH.
Qed.

Lemma bytes_eqb_refl (a : list byte) : bytes_eqb a a = true.
Proof. now apply bytes_eqb_eq. Qed.

Lemma bytes_eqb_neq (a b : list byte) : bytes_eqb a b = false <-> a <> b.
Proof.
  destruct (bytes_eqb a b) eqn:E; split; intros H; try reflexivity; try discriminate.
  - apply bytes_eqb_eq in E. contradiction.
  - intros ->. rewrite bytes_eqb_refl in E. discriminate.
Qed.

Lemma index_zero (f : failure) (c : byte) (s : list byte) : index f (c :: s) 0 = Ok c.
Proof. unfold index. rewrite len_cons. pose proof (len_nonneg s).
  replace (0 <? len s + 1) with true by (symmetry; apply Z.ltb_lt; lia). reflexivity. Qed.

Lemma index_nil (f : failure) (i : Z) : index f [] i = Fail f.
Proof. unfold index. change (len (@nil byte)) with 0. destruct (0 <=? i) eqn:E; [|reflexivity].
  apply Z.leb_le in E. replace (i <? 0) with false by (symmetry; apply Z.ltb_ge; lia).
  reflexivity. Qed.

Lemma index_app_len (f : failure) (a : list byte) (c : byte) (s : list byte) :
  index f (a ++ c :: s) (len a) = Ok c.
Proof.
  unfold index. lens.
  replace (0 <=? len a) with true by (symmetry; apply Z.leb_le; lia).
  replace (len a <? len a + (len s + 1)) with true by (symmetry; apply Z.ltb_lt; lia).
  simpl. rewrite len_to_nat. now rewrite nth_middle.
Qed.

Lemma slice_from_zero (f : failure) (s : list byte) : slice_from f s 0 = Ok s.
Proof. unfold slice_from. pose proof (len_nonneg s).
  replace (0 <=? len s) with true by (symmetry; apply Z.leb_le; lia). reflexivity. Qed.

Lemma slice_from_one (f : failure) (c : byte) (s : list byte) :
  slice_from f (c :: s) 1 = Ok s.
Proof. unfold slice_from. rewrite len_cons. pose proof (len_nonneg s).
  replace (1 <=? len s + 1) with true by (symmetry; apply Z.leb_le; lia). reflexivity. Qed.

Lemma slice_from_app_len (f : failure) (a b : list byte) :
  slice_from f (a ++ b) (len a) = Ok b.
Proof.
  unfold slice_from. lens.
  replace (0 <=? len a) with true by (symmetry; apply Z.leb_le; lia).
  replace (len a <=? len a + len b) with true by (symmetry; apply Z.leb_le; lia).
  simpl. rewrite len_to_nat. now rewrite skipn_app, skipn_all, Nat.sub_diag.
Qed.

Lemma slice_from_ok (f : failure) (s : list byte) (i : Z) (r : list byte) :
  slice_from f s i = Ok r ->
  0 <= i <= len s /\ r = skipn (Z.to_nat i) s /\ s = firstn (Z.to_nat i) s ++ r.
Proof.
  unfold slice_from. destruct (0 <=? i) eqn:E1; [|discriminate].
  destruct (i <=? len s) eqn:E2; [|discriminate]. simpl. intros [= <-].
  apply Z.leb_le in E1, E2. now rewrite firstn_skipn.
Qed.

Lemma slice_prefix (f : failure) (a b : list byte) :
  slice f (a ++ b) 0 (len a) = Ok a.
Proof.
  unfold slice. lens.
  replace (0 <=? len a) with true by (symmetry; apply Z.leb_le; lia).
  replace (len a <=? len a + len b) with true by (symmetry; apply Z.leb_le; lia).
  simpl. rewrite Z.sub_0_r, len_to_nat. now rewrite firstn_app, firstn_all, Nat.sub_diag, app_nil_r.
Qed.

Lemma slice_middle (f : failure) (a b c : list byte) :
  slice f (a ++ b ++ c) (len a) (len a + len b) = Ok b.
Proof.
  unfold slice. lens.
  replace (0 <=? len a) with true by (symmetry; apply Z.leb_le; lia).
  replace (len a <=? len a + len b) with true by (symmetry; apply Z.leb_le; lia).
  replace (len a + len b <=? len a + (len b + len c)) with true
    by (symmetry; apply Z.leb_le; lia).
  simpl. replace (len a + len b - len a) with (len b) by lia.
  rewrite !len_to_nat, skipn_app, skipn_all, Nat.sub_diag. simpl.
  now rewrite firstn_app, firstn_all, Nat.sub_diag, app_nil_r.
Qed.

Lemma bind_ok (A B : Type) (a : A) (k : A -> outcome B) : bind (Ok a) k = k a.
Proof. reflexivity. Qed.

Lemma slice_from_fail (f g : failure) (s : list byte) (i : Z) :
  slice_from f s i = Fail g -> g = f.
Proof. unfold slice_from. destruct (_ && _); congruence. Qed.

Lemma index_fail (f g : failure) (s : list byte) (i : Z) :
  index f s i = Fail g -> g = f.
Proof. unfold index. destruct (_ && _); congruence. Qed.

Lemma slice_fail (f g : failure) (s : list byte) (i j : Z) :
  slice f s i j = Fail g -> g = f.
Proof. unfold slice. destruct (_ && _); congruence. Qed.

(** Appends to the right, conses to the front. *)
Ltac norm_app := cbn [app]; repeat (rewrite <- app_assoc; cbn [app]).
(* ------------------------------------------------------------------ *)
(** ** The scanner on well-formed text *)

Arguments Byte.eqb : simpl never.
Arguments nonspace : simpl never.
Arguments numchar : simpl never.
Arguments is_digit : simpl never.

(** Decide the byte comparisons of the goal that are between constants. *)
Ltac byte_tests :=
  repeat match goal with
         | |- context [Byte.eqb ?a ?b] =>
             let v := eval vm_compute in (Byte.eqb a b) in
             match v with
             | true => change (Byte.eqb a b) with true
             | false => change (Byte.eqb a b) with false
             end
         end;
  cbv beta iota delta [orb andb negb].

(** Facts about single bytes, by cases on the byte. *)
Lemma space_not_special (c : byte) :
  nonspace c = false ->
  Byte.eqb c "{" = false /\ Byte.eqb c "}" = false /\ Byte.eqb c "[" = false
  /\ Byte.eqb c "]" = false /\ Byte.eqb c quote = false /\ Byte.eqb c "," = false
  /\ Byte.eqb c ":" = false /\ numchar c = false.
Proof. destruct c; vm_compute; intros; try discriminate; repeat split. Qed.

Lemma numchar_not_special (c : byte) :
  numchar c = true ->
  nonspace c = true /\ Byte.eqb c "{" = false /\ Byte.eqb c "}" = false
  /\ Byte.eqb c "[" = false /\ Byte.eqb c "]" = false /\ Byte.eqb c quote = false
  /\ Byte.eqb c "," = false /\ Byte.eqb c "l" = false.
Proof. destruct c; vm_compute; intros; try discriminate; repeat split. Qed.

Lemma number_head (c : byte) :
  (is_digit c || Byte.eqb c "-") = true ->
  numchar c = true /\ Byte.eqb c "t" = false /\ Byte.eqb c "n" = false
  /\ Byte.eqb c "f" = false.
Proof. destruct c; vm_compute; intros; try discriminate; repeat split. Qed.

Lemma all_ws_app (a b : list byte) : all_ws a -> all_ws b -> all_ws (a ++ b).
Proof. unfold all_ws. intros. apply Forall_app. now split. Qed.

Lemma consumeWhitespace_ws (w s : list byte) :
  all_ws w -> consumeWhitespace (w ++ s) = consumeWhitespace s.
Proof.
  induction 1 as [|c w Hc _ IH]; [reflexivity|].
  simpl. now rewrite Hc.
Qed.

Lemma consumeWhitespace_stop (c : byte) (s : list byte) :
  nonspace c = true -> consumeWhitespace (c :: s) = c :: s.
Proof. intros H. simpl. now rewrite H. Qed.

Lemma consumeWhitespace_skip (w : list byte) (c : byte) (s : list byte) :
  all_ws w -> nonspace c = true -> consumeWhitespace (w ++ c :: s) = c :: s.
Proof. intros Hw Hc. rewrite consumeWhitespace_ws by assumption.
  now apply consumeWhitespace_stop. Qed.

Lemma consumeSeparator_skip (d : byte) (w : list byte) (c : byte) (s : list byte) :
  all_ws w -> nonspace c = true -> consumeSeparator (d :: w ++ c :: s) = Ok (c :: s).
Proof.
  intros Hw Hc. unfold consumeSeparator. rewrite slice_from_one. simpl.
  now rewrite consumeWhitespace_skip.
Qed.

Lemma string_scan_body (json b s : list byte) :
  str_body b -> string_scan json (b ++ quote :: s) = s.
Proof.
  induction 1 as [|c b Hq Hb _ IH|c b _ IH]; simpl.
  - reflexivity.
  - now rewrite Hq, Hb.
  - exact IH.
Qed.

Lemma consumeString_string (b s : list byte) :
  str_body b -> consumeString (quote :: b ++ quote :: s) = s.
Proof. intros H. simpl. now apply string_scan_body. Qed.

Lemma parseString_string (b s : list byte) :
  str_body b -> parseString (quote :: b ++ quote :: s) = Ok (b, s).
Proof.
  intros H. unfold parseString. rewrite consumeString_string by assumption.
  change (quote :: b ++ quote :: s) with ([quote] ++ b ++ quote :: s).
  replace (1 + (len ([quote] ++ b ++ quote :: s) - len s - 2)) with (len [quote] + len b)
    by (lens; lia).
  change 1 with (len [quote]). now rewrite slice_middle.
Qed.

Lemma consumeNumber_run (v s : list byte) :
  Forall (fun d => numchar d = true) v -> follow_ok s -> consumeNumber (v ++ s) = s.
Proof.
  induction 1 as [|c v Hc _ IH]; intros Hs; simpl.
  - destruct s as [|d s]; [reflexivity|]. simpl in *. now rewrite Hs.
  - rewrite Hc. now apply IH.
Qed.

Lemma string_scan_length (json l : list byte) :
  (length l <= length json)%nat -> (length (string_scan json l) <= length json)%nat.
Proof.
  assert (H : forall k l, (length l <= k)%nat -> (length l <= length json)%nat ->
            (length (string_scan json l) <= length json)%nat).
  { induction k as [|k IH]; intros l0 Hle Hl.
    - destruct l0; [simpl; lia | simpl in Hle; lia].
    - destruct l0 as [|c l0]; simpl; [lia|].
      destruct (Byte.eqb c quote); [simpl in Hl; lia|].
      destruct (Byte.eqb c backslash).
      + destruct l0 as [|d l0]; [lia|]. apply IH; simpl in *; lia.
      + apply IH; simpl in *; lia. }
  apply (H (length l)). lia.
Qed.

Lemma consumeString_length (json : list byte) :
  (length (consumeString json) <= length json)%nat.
Proof.
  destruct json as [|c l]; simpl; [lia|].
  apply (string_scan_length (c :: l) l). simpl. lia.
Qed.
Lemma gtb_true (a b : Z) : a > b -> (a >? b) = true.
Proof. intros H. rewrite Z.gtb_ltb. apply Z.ltb_lt. lia. Qed.

Lemma gtb_false (a b : Z) : a <= b -> (a >? b) = false.
Proof. intros H. rewrite Z.gtb_ltb. apply Z.ltb_ge. lia. Qed.

Lemma slice_from_succ (f : failure) (c : byte) (s : list byte) (k : Z) :
  0 <= k -> slice_from f (c :: s) (k + 1) = slice_from f s k.
Proof.
  intros Hk. unfold slice_from. rewrite len_cons.
  replace (0 <=? k + 1) with true by (symmetry; apply Z.leb_le; lia).
  replace (0 <=? k) with true by (symmetry; apply Z.leb_le; lia).
  replace (k + 1 <=? len s + 1) with (k <=? len s)
    by (destruct (k <=? len s) eqn:E; symmetry;
        [apply Z.leb_le; apply Z.leb_le in E | apply Z.leb_gt; apply Z.leb_gt in E]; lia).
  simpl. destruct (k <=? len s); [|reflexivity].
  replace (Z.to_nat (k + 1)) with (S (Z.to_nat k)) by lia. reflexivity.
Qed.

Lemma slice_from_neg (f : failure) (s : list byte) : slice_from f s (-1) = Fail f.
Proof. reflexivity. Qed.

Lemma index_where_shift (p : byte -> bool) (s : list byte) :
  forall i, 0 <= i ->
    (index_where p i s = -1 /\ index_where p (i + 1) s = -1)
    \/ (i <= index_where p i s /\ index_where p (i + 1) s = index_where p i s + 1).
Proof.
  induction s as [|c s IH]; intros i Hi; simpl.
  - now left.
  - destruct (p c).
    + right. lia.
    + destruct (IH (i + 1)) as [[H1 H2]|[H1 H2]]; [lia| |].
      * left. now split.
      * right. split; [lia|assumption].
Qed.

Lemma index_where_none (p : byte -> bool) (s : list byte) :
  forall i, Forall (fun c => p c = false) s -> index_where p i s = -1.
Proof.
  intros i H. revert i. induction H as [|c s Hc _ IH]; intros i; simpl; [reflexivity|].
  rewrite Hc. apply IH.
Qed.

Section NestedFacts.

Variables opening closing : byte.
Hypothesis delimiters :
  (opening = "{" /\ closing = "}") \/ (opening = "[" /\ closing = "]").

Local Abbreviation special := (special opening closing) (only parsing).
Local Abbreviation loop := (consumeNested_loop opening closing) (only parsing).
Local Abbreviation runs := (runs opening closing) (only parsing).

Lemma loop_unfold (fuel : nat) (n : Z) (json : list byte) :
  loop (S fuel) n json =
    if n >? 0 then
      json <- slice_from BufferRange json (indexNested opening closing json) ;;
      c <- index BufferRange json 0 ;;
      if Byte.eqb c opening then
        json <- slice_from BufferRange json 1 ;;
        loop fuel (n + 1) json
      else if Byte.eqb c closing then
        json <- slice_from BufferRange json 1 ;;
        loop fuel (n - 1) json
      else if Byte.eqb c quote then
        let json' := consumeString json in
        if len json' =? len json then Fail NoProgress
        else loop fuel n json'
      else Fail NoProgress
    else Ok json.
Proof. reflexivity. Qed.

Lemma loop_done (fuel : nat) (n : Z) (json : list byte) :
  n <= 0 -> loop fuel n json = Ok json.
Proof.
  intros Hn. destruct fuel; simpl;
    rewrite (gtb_false n 0) by lia;
    reflexivity.
Qed.

Lemma special_opening : special opening = true.
Proof. unfold special. now rewrite eqb_refl. Qed.

Lemma special_closing : special closing = true.
Proof. unfold special. rewrite (eqb_refl closing). now rewrite orb_true_r. Qed.

Lemma special_quote : special quote = true.
Proof. unfold special. rewrite (eqb_refl quote). now rewrite orb_true_r. Qed.

Lemma closing_not_opening : Byte.eqb closing opening = false.
Proof. destruct delimiters as [[-> ->]|[-> ->]]; reflexivity. Qed.

Lemma quote_not_delimiter :
  Byte.eqb quote opening = false /\ Byte.eqb quote closing = false.
Proof. destruct delimiters as [[-> ->]|[-> ->]]; split; reflexivity. Qed.

Lemma indexNested_cons (c : byte) (s : list byte) :
  indexNested opening closing (c :: s) = if special c then 0 else index_where special 1 s.
Proof. reflexivity. Qed.

Lemma indexNested_where (s : list byte) :
  indexNested opening closing s = index_where special 0 s.
Proof. reflexivity. Qed.

Lemma head_special (c : byte) (s : list byte) :
  special c = true ->
  slice_from BufferRange (c :: s) (indexNested opening closing (c :: s)) = Ok (c :: s).
Proof.
  intros H. rewrite indexNested_cons, H. apply slice_from_zero.
Qed.

Lemma loop_skip (fuel : nat) (n : Z) (c : byte) (s : list byte) :
  n > 0 -> special c = false -> loop fuel n (c :: s) = loop fuel n s.
Proof.
  intros Hn Hc. destruct fuel as [|fuel].
  - simpl. rewrite (gtb_true n 0) by lia. reflexivity.
  - rewrite !loop_unfold.
    rewrite (gtb_true n 0) by lia.
    rewrite indexNested_cons, indexNested_where, Hc.
    destruct (index_where_shift special s 0) as [[H1 H2]|[H1 H2]]; [lia| |];
      change (0 + 1) with 1 in H2.
    + rewrite H1, H2. reflexivity.
    + rewrite H2. now rewrite slice_from_succ.
Qed.

Lemma loop_skip_all (fuel : nat) (n : Z) (w s : list byte) :
  n > 0 -> Forall (fun c => special c = false) w ->
  loop fuel n (w ++ s) = loop fuel n s.
Proof.
  intros Hn H. induction H as [|c w Hc _ IH]; [reflexivity|].
  simpl. now rewrite loop_skip.
Qed.

Lemma loop_open (fuel : nat) (n : Z) (s : list byte) :
  n > 0 -> loop (S fuel) n (opening :: s) = loop fuel (n + 1) s.
Proof.
  intros Hn. rewrite loop_unfold.
  rewrite (gtb_true n 0) by lia.
  rewrite head_special by apply special_opening. rewrite ?bind_ok.
  rewrite index_zero. rewrite ?bind_ok. rewrite eqb_refl, slice_from_one. reflexivity.
Qed.

Lemma loop_close (fuel : nat) (n : Z) (s : list byte) :
  n > 0 -> loop (S fuel) n (closing :: s) = loop fuel (n - 1) s.
Proof.
  intros Hn. rewrite loop_unfold.
  rewrite (gtb_true n 0) by lia.
  rewrite head_special by apply special_closing. rewrite ?bind_ok.
  rewrite index_zero. rewrite ?bind_ok.
  rewrite closing_not_opening, eqb_refl, slice_from_one. reflexivity.
Qed.

Lemma loop_string (fuel : nat) (n : Z) (b s : list byte) :
  n > 0 -> str_body b ->
  loop (S fuel) n (quote :: b ++ quote :: s) = loop fuel n s.
Proof.
  intros Hn Hb. rewrite loop_unfold.
  rewrite (gtb_true n 0) by lia.
  rewrite head_special by apply special_quote. rewrite ?bind_ok.
  rewrite index_zero. rewrite ?bind_ok.
  destruct quote_not_delimiter as [-> ->]. rewrite eqb_refl.
  cbv zeta. rewrite consumeString_string by assumption.
  replace (len s =? len (quote :: b ++ quote :: s)) with false; [reflexivity|].
  symmetry. apply Z.eqb_neq. lens. lia.
Qed.

(** More fuel does not change an answer. *)
Lemma loop_mono (fuel : nat) :
  forall n json x, loop fuel n json = x -> x <> Fail FuelExhausted ->
  forall fuel', (fuel <= fuel')%nat -> loop fuel' n json = x.
Proof.
  induction fuel as [|fuel IH]; intros n json x Hx Hne fuel' Hle.
  - simpl in Hx. destruct (n >? 0) eqn:En.
    + congruence.
    + subst x. destruct fuel'; simpl; now rewrite En.
  - destruct fuel' as [|fuel']; [lia|].
    rewrite loop_unfold in *. destruct (n >? 0); [|assumption].
    destruct (slice_from BufferRange json _) as [j1|]; [|assumption]. simpl bind in *.
    destruct (index BufferRange j1 0) as [c|]; [|assumption]. simpl bind in *.
    destruct (Byte.eqb c opening).
    { destruct (slice_from BufferRange j1 1) as [j2|]; [|assumption]. simpl bind in *.
      apply (IH _ _ _ Hx Hne). lia. }
    destruct (Byte.eqb c closing).
    { destruct (slice_from BufferRange j1 1) as [j2|]; [|assumption]. simpl bind in *.
      apply (IH _ _ _ Hx Hne). lia. }
    destruct (Byte.eqb c quote); [|assumption].
    cbv zeta in *. destruct (len (consumeString j1) =? len j1); [assumption|].
    apply (IH _ _ _ Hx Hne). lia.
Qed.

(** Fuel beyond the length of the text is never used up. *)
Lemma loop_fuel (fuel : nat) :
  forall n json, (length json < fuel)%nat -> loop fuel n json <> Fail FuelExhausted.
Proof.
  induction fuel as [|fuel IH]; intros n json Hlen; [lia|].
  rewrite loop_unfold. destruct (n >? 0); [|simpl; discriminate].
  destruct (slice_from BufferRange json _) as [j1|] eqn:E1;
    [|apply slice_from_fail in E1; subst; simpl; discriminate].
  rewrite ?bind_ok. apply slice_from_ok in E1 as (_ & E1 & _).
  assert (H1 : (length j1 <= length json)%nat).
  { subst j1. rewrite length_skipn. lia. }
  destruct j1 as [|c j2]; [rewrite index_nil; simpl; discriminate|].
  rewrite index_zero. rewrite ?bind_ok. simpl in H1.
  destruct (Byte.eqb c opening).
  { rewrite slice_from_one. rewrite ?bind_ok. apply IH. lia. }
  destruct (Byte.eqb c closing).
  { rewrite slice_from_one. rewrite ?bind_ok. apply IH. lia. }
  destruct (Byte.eqb c quote); [|simpl; discriminate].
  cbv zeta. destruct (len (consumeString (c :: j2)) =? len (c :: j2)) eqn:E;
    [simpl; discriminate|].
  apply IH. apply Z.eqb_neq in E. unfold len in E.
  pose proof (consumeString_length (c :: j2)). simpl length in *. lia.
Qed.

Lemma loop_enough (fuel : nat) (n : Z) (json r : list byte) :
  loop fuel n json = Ok r -> loop (S (length json)) n json = Ok r.
Proof.
  intros H.
  pose proof (loop_fuel (S (length json)) n json ltac:(lia)) as Hf.
  pose proof (loop_mono _ _ _ _ eq_refl Hf (Nat.max fuel (S (length json)))
                ltac:(lia)) as H1.
  pose proof (loop_mono _ _ _ _ H ltac:(discriminate)
                (Nat.max fuel (S (length json))) ltac:(lia)) as H2.
  congruence.
Qed.

Lemma runs_skip_all (n : Z) (w s r : list byte) :
  n > 0 -> Forall (fun c => special c = false) w -> runs n s r -> runs n (w ++ s) r.
Proof. intros Hn Hw [fuel H]. exists fuel. now rewrite loop_skip_all. Qed.

Lemma runs_skip (n : Z) (c : byte) (s r : list byte) :
  n > 0 -> special c = false -> runs n s r -> runs n (c :: s) r.
Proof. intros Hn Hw [fuel H]. exists fuel. now rewrite loop_skip. Qed.

Lemma runs_open (n : Z) (s r : list byte) :
  n > 0 -> runs (n + 1) s r -> runs n (opening :: s) r.
Proof. intros Hn [fuel H]. exists (S fuel). now rewrite loop_open. Qed.

Lemma runs_close (n : Z) (s r : list byte) :
  n > 0 -> runs (n - 1) s r -> runs n (closing :: s) r.
Proof. intros Hn [fuel H]. exists (S fuel). now rewrite loop_close. Qed.

Lemma runs_string (n : Z) (b s r : list byte) :
  n > 0 -> str_body b -> runs n s r -> runs n (quote :: b ++ quote :: s) r.
Proof. intros Hn Hb [fuel H]. exists (S fuel). now rewrite loop_string. Qed.

Lemma space_plain (c : byte) : nonspace c = false -> special c = false.
Proof.
  intros H. apply space_not_special in H as (H1 & H2 & H3 & H4 & H5 & _).
  unfold special. destruct delimiters as [[-> ->]|[-> ->]];
    rewrite ?H1, ?H2, ?H3, ?H4, ?H5; reflexivity.
Qed.

Lemma numchar_plain (c : byte) : numchar c = true -> special c = false.
Proof.
  intros H. apply numchar_not_special in H as (_ & H1 & H2 & H3 & H4 & H5 & _).
  unfold special. destruct delimiters as [[-> ->]|[-> ->]];
    rewrite ?H1, ?H2, ?H3, ?H4, ?H5; reflexivity.
Qed.

Lemma ws_plain (w : list byte) : all_ws w -> Forall (fun c => special c = false) w.
Proof. intros H. eapply Forall_impl; [|exact H]. apply space_plain. Qed.

End NestedFacts.
(* ------------------------------------------------------------------ *)
(** ** Scanning well-formed values *)

Lemma commas_cons_app (x : list byte) (l : list (list byte)) (s : list byte) :
  commas (x :: l) ++ s =
    x ++ match l with [] => s | _ :: _ => "," :: commas l ++ s end.
Proof.
  destruct l as [|y l]; [reflexivity|].
  change (commas (x :: y :: l)) with (x ++ "," :: commas (y :: l)).
  now rewrite <- app_assoc.
Qed.

Lemma render_elements_cons (e : element) (es : list element) (s : list byte) :
  render_elements (e :: es) ++ s =
    e_pre e ++ e_val e ++ e_post e
      ++ match es with [] => s | _ :: _ => "," :: render_elements es ++ s end.
Proof.
  unfold render_elements. simpl map. rewrite commas_cons_app.
  unfold render_element. rewrite <- !app_assoc. now destruct es.
Qed.

Lemma render_members_cons (m : member) (ms : list member) (s : list byte) :
  render_members (m :: ms) ++ s =
    m_pre m ++ quote :: m_key m ++ quote :: m_mid m ++ ":" :: m_sep m
      ++ m_val m ++ m_post m
      ++ match ms with [] => s | _ :: _ => "," :: render_members ms ++ s end.
Proof.
  unfold render_members. simpl map. rewrite commas_cons_app.
  unfold render_member, member_head.
  repeat (rewrite <- ?app_assoc; simpl). now destruct ms.
Qed.

Section ScanValue.

Variables opening closing : byte.
Hypothesis delimiters :
  (opening = "{" /\ closing = "}") \/ (opening = "[" /\ closing = "]").

Local Abbreviation runs := (runs opening closing) (only parsing).

Lemma literal_plain (c : byte) :
  In c ["n"; "u"; "l"; "t"; "r"; "e"; "f"; "a"; "s"; ","; ":"] ->
  special opening closing c = false.
Proof.
  intros H. unfold special. simpl in H.
  destruct delimiters as [[-> ->]|[-> ->]];
    repeat (destruct H as [<-|H]; [reflexivity|]); contradiction.
Qed.

Lemma scan_wf :
  (forall v, wf_value v ->
     forall n s r, n > 0 -> runs n s r -> runs n (v ++ s) r)
  /\ (forall es, wf_elements es ->
     forall n s r, n > 0 -> runs n s r -> runs n (render_elements es ++ s) r)
  /\ (forall ms, wf_members ms ->
     forall n s r, n > 0 -> runs n s r -> runs n (render_members ms ++ s) r).
Proof.
  apply wf_mutual.
  - (* null *) intros n s r Hn H. simpl.
    repeat (apply runs_skip; [assumption | apply literal_plain; simpl; tauto |]).
    assumption.
  - (* true *) intros n s r Hn H. simpl.
    repeat (apply runs_skip; [assumption | apply literal_plain; simpl; tauto |]).
    assumption.
  - (* false *) intros n s r Hn H. simpl.
    repeat (apply runs_skip; [assumption | apply literal_plain; simpl; tauto |]).
    assumption.
  - (* number *) intros v Hv n s r Hn H.
    apply runs_skip_all; try assumption.
    destruct v as [|c v]; [constructor|]. destruct Hv as [_ Hv].
    eapply Forall_impl; [|exact Hv]. intros a. now apply numchar_plain.
  - (* string *) intros b Hb n s r Hn H.
    change ((quote :: b ++ [quote]) ++ s) with (quote :: (b ++ [quote]) ++ s).
    rewrite <- app_assoc. simpl. now apply runs_string.
  - (* array *) intros w es Hw _ IH n s r Hn H. unfold render_array.
    change (("[" :: w ++ render_elements es ++ ["]"]) ++ s)
      with ("[" :: (w ++ render_elements es ++ ["]"]) ++ s).
    rewrite <- !app_assoc. simpl.
    pose proof delimiters as D. destruct D as [[Ho Hc]|[Ho Hc]].
    + apply runs_skip; try assumption; [subst; reflexivity|].
      apply runs_skip_all; try assumption; [now apply ws_plain|].
      apply IH; [assumption|].
      apply runs_skip; try assumption. subst; reflexivity.
    + rewrite <- Ho at 1. apply runs_open; [assumption..|].
      apply runs_skip_all; try assumption; [lia | now apply ws_plain|].
      apply IH; [lia|].
      rewrite <- Hc. apply runs_close; [assumption | lia |].
      now replace (n + 1 - 1) with n by lia.
  - (* object *) intros w ms Hw _ IH n s r Hn H. unfold render_object.
    change (("{" :: w ++ render_members ms ++ ["}"]) ++ s)
      with ("{" :: (w ++ render_members ms ++ ["}"]) ++ s).
    rewrite <- !app_assoc. simpl.
    pose proof delimiters as D. destruct D as [[Ho Hc]|[Ho Hc]].
    + rewrite <- Ho at 1. apply runs_open; [assumption..|].
      apply runs_skip_all; try assumption; [lia | now apply ws_plain|].
      apply IH; [lia|].
      rewrite <- Hc. apply runs_close; [assumption | lia |].
      now replace (n + 1 - 1) with n by lia.
    + apply runs_skip; try assumption; [subst; reflexivity|].
      apply runs_skip_all; try assumption; [now apply ws_plain|].
      apply IH; [assumption|].
      apply runs_skip; try assumption. subst; reflexivity.
  - (* no element *) intros n s r _ H. exact H.
  - (* elements *) intros e es Hpre _ IHv Hpost _ IHes n s r Hn H.
    rewrite render_elements_cons.
    apply runs_skip_all; try assumption; [now apply ws_plain|].
    apply IHv; [assumption|].
    apply runs_skip_all; try assumption; [now apply ws_plain|].
    destruct es as [|e' es]; [assumption|].
    apply runs_skip; try assumption; [apply literal_plain; simpl; tauto|].
    now apply IHes.
  - (* no member *) intros n s r _ H. exact H.
  - (* members *) intros m ms Hpre Hkey Hmid Hsep _ IHv Hpost _ IHms n s r Hn H.
    rewrite render_members_cons.
    apply runs_skip_all; try assumption; [now apply ws_plain|].
    apply runs_string; try assumption.
    apply runs_skip_all; try assumption; [now apply ws_plain|].
    apply runs_skip; try assumption; [apply literal_plain; simpl; tauto|].
    apply runs_skip_all; try assumption; [now apply ws_plain|].
    apply IHv; [assumption|].
    apply runs_skip_all; try assumption; [now apply ws_plain|].
    destruct ms as [|m' ms]; [assumption|].
    apply runs_skip; try assumption; [apply literal_plain; simpl; tauto|].
    now apply IHms.
Qed.

(** The loop of [consumeObject] (or [consumeArray]) on the text of an
    object (or array) after its opening delimiter. *)
Lemma consumeNested_body (body s : list byte) :
  (forall n r, n > 0 -> runs n (closing :: s) r -> runs n (body ++ closing :: s) r) ->
  consumeNested opening closing (opening :: body ++ closing :: s) = Ok s.
Proof.
  intros H. unfold consumeNested. rewrite slice_from_one, bind_ok.
  destruct (H 1 s ltac:(lia)) as [fuel Hf].
  - apply runs_close; [assumption | lia |]. exists O. now apply loop_done.
  - eapply loop_enough. exact Hf.
Qed.

End ScanValue.
Lemma consumeValue_wf (v s : list byte) :
  wf_value v -> follow_ok s -> consumeValue (v ++ s) = Ok s.
Proof.
  intros Hv Hs. destruct Hv as [ | | |v Hv|b Hb|w es Hw Hes|w ms Hw Hms].
  - unfold consumeValue. simpl app. rewrite index_zero, bind_ok. byte_tests.
    apply (slice_from_app_len BufferRange ["n"; "u"; "l"; "l"]).
  - unfold consumeValue. simpl app. rewrite index_zero, bind_ok. byte_tests.
    apply (slice_from_app_len BufferRange ["t"; "r"; "u"; "e"]).
  - unfold consumeValue. simpl app. rewrite index_zero, bind_ok. byte_tests.
    apply (slice_from_app_len BufferRange ["f"; "a"; "l"; "s"; "e"]).
  - destruct v as [|c v]; [contradiction|]. destruct Hv as [Hc Hv].
    unfold consumeValue. simpl app. rewrite index_zero, bind_ok.
    destruct (number_head c Hc) as (Hn & -> & -> & ->).
    destruct (numchar_not_special c Hn) as (_ & -> & _ & -> & _ & -> & _).
    byte_tests. change (c :: v ++ s) with ((c :: v) ++ s). now rewrite consumeNumber_run.
  - unfold consumeValue. simpl app. rewrite index_zero, bind_ok.
    byte_tests. rewrite <- app_assoc. simpl app.
    now rewrite consumeString_string.
  - unfold consumeValue, render_array. simpl app. rewrite index_zero, bind_ok.
    byte_tests. rewrite <- !app_assoc. simpl app. unfold consumeArray.
    rewrite app_assoc. apply consumeNested_body; [now right|].
    intros n r Hn H. rewrite <- app_assoc.
    apply runs_skip_all; [assumption | apply ws_plain; [now right | assumption] |].
    now apply (scan_wf "[" "]" ltac:(now right)).
  - unfold consumeValue, render_object. simpl app. rewrite index_zero, bind_ok.
    byte_tests. rewrite <- !app_assoc. simpl app. unfold consumeObject.
    rewrite app_assoc. apply consumeNested_body; [now left|].
    intros n r Hn H. rewrite <- app_assoc.
    apply runs_skip_all; [assumption | apply ws_plain; [now left | assumption] |].
    now apply (scan_wf "{" "}" ltac:(now left)).
Qed.

(** The first byte of a value. *)
Lemma wf_value_head (v : list byte) :
  wf_value v ->
  exists c tl, v = c :: tl /\ nonspace c = true /\ Byte.eqb c "}" = false
    /\ Byte.eqb c "]" = false /\ Byte.eqb c "l" = false /\ Byte.eqb c "," = false.
Proof.
  intros Hv. destruct Hv as [ | | |v Hv|b Hb|w es Hw Hes|w ms Hw Hms];
    try (eexists; eexists; split; [reflexivity|]; repeat split; reflexivity).
  destruct v as [|c v]; [contradiction|]. destruct Hv as [Hc Hv].
  exists c, v. split; [reflexivity|].
  destruct (number_head c Hc) as (Hn & _).
  destruct (numchar_not_special c Hn) as (H1 & _ & H2 & _ & H3 & _ & H4 & H5).
  now repeat split.
Qed.

(** The last byte of a value. *)
Lemma wf_value_last (v : list byte) :
  wf_value v ->
  exists b c, v = b ++ [c] /\ nonspace c = true /\ Byte.eqb c "{" = false
    /\ Byte.eqb c "[" = false.
Proof.
  intros Hv. destruct Hv as [ | | |v Hv|b Hb|w es Hw Hes|w ms Hw Hms].
  - exists ["n"; "u"; "l"], "l". now repeat split.
  - exists ["t"; "r"; "u"], "e". now repeat split.
  - exists ["f"; "a"; "l"; "s"], "e". now repeat split.
  - destruct v as [|c v]; [contradiction|]. destruct Hv as [_ Hv].
    destruct (@exists_last _ (c :: v) ltac:(discriminate)) as (b & d & E).
    exists b, d. split; [assumption|]. rewrite E in Hv.
    apply Forall_app in Hv as [_ Hv]. inversion Hv as [|? ? Hd _]; subst.
    destruct (numchar_not_special _ Hd) as (H1 & H2 & _ & H3 & _).
    now repeat split.
  - exists (quote :: b), quote. now repeat split.
  - exists ("[" :: w ++ render_elements es), "]". unfold render_array.
    split; [|now repeat split]. simpl. now rewrite <- app_assoc.
  - exists ("{" :: w ++ render_members ms), "}". unfold render_object.
    split; [|now repeat split]. simpl. now rewrite <- app_assoc.
Qed.

Lemma follow_ok_ws (w : list byte) (c : byte) (s : list byte) :
  all_ws w -> numchar c = false -> follow_ok (w ++ c :: s).
Proof.
  intros Hw Hc. destruct w as [|d w]; [exact Hc|].
  simpl. inversion Hw as [|? ? Hd _]; subst.
  now destruct (space_not_special _ Hd) as (_ & _ & _ & _ & _ & _ & _ & H).
Qed.

Lemma follow_ok_all_ws (w : list byte) : all_ws w -> follow_ok w.
Proof.
  intros Hw. destruct w as [|d w]; [exact I|].
  simpl. inversion Hw as [|? ? Hd _]; subst.
  now destruct (space_not_special _ Hd) as (_ & _ & _ & _ & _ & _ & _ & H).
Qed.

Lemma consumeWhitespace_value (w v s : list byte) :
  all_ws w -> wf_value v -> consumeWhitespace (w ++ v ++ s) = v ++ s.
Proof.
  intros Hw Hv. destruct (wf_value_head _ Hv) as (c & tl & -> & Hc & _).
  simpl app. now apply consumeWhitespace_skip.
Qed.

Lemma consumeSeparator_value (d : byte) (w v s : list byte) :
  all_ws w -> wf_value v -> consumeSeparator (d :: w ++ v ++ s) = Ok (v ++ s).
Proof.
  intros Hw Hv. unfold consumeSeparator. rewrite slice_from_one, bind_ok.
  now rewrite consumeWhitespace_value.
Qed.
(* ------------------------------------------------------------------ *)
(** ** The accessor locator on well-formed containers *)

Lemma object_loop_unfold (fuel : nat) (origLen : Z) (bacc json : list byte) :
  object_loop (S fuel) origLen bacc json =
    (c <- index BufferRange json 0 ;;
     if negb (Byte.eqb c "}") then
       kj <- parseString json ;;
       let '(key, json) := kj in
       let json := consumeWhitespace json in
       json <- consumeSeparator json ;;
       if bytes_eqb key bacc then Ok (origLen - len json)
       else
         json <- consumeValue json ;;
         let json := consumeWhitespace json in
         c <- index BufferRange json 0 ;;
         json <- (if Byte.eqb c "," then consumeSeparator json else Ok json) ;;
         object_loop fuel origLen bacc json
     else Ok (origLen - len json)).
Proof. reflexivity. Qed.

Lemma object_loop_closing (fuel : nat) (origLen : Z) (bacc rest : list byte) :
  object_loop fuel origLen bacc ("}" :: rest) = Ok (origLen - len ("}" :: rest)).
Proof. destruct fuel; cbn [object_loop]; rewrite index_zero, bind_ok; reflexivity. Qed.

Lemma object_loop_spec (ms : list member) :
  wf_members ms ->
  forall fuel origLen acc rest,
    (length ms < fuel)%nat ->
    object_loop fuel origLen acc (consumeWhitespace (render_members ms ++ "}" :: rest)) =
      Ok (origLen - len (render_members ms ++ "}" :: rest)
          + match member_offset acc ms with
            | Some k => k
            | None => len (render_members ms)
            end).
Proof.
  induction 1 as [|m ms Hpre Hkey Hmid Hsep Hval Hpost Hms IH];
    intros fuel origLen acc rest Hfuel.
  - change (render_members []) with (@nil byte). cbn [app member_offset].
    rewrite consumeWhitespace_stop by reflexivity.
    rewrite object_loop_closing. f_equal. change (len (@nil byte)) with 0. lia.
  - destruct fuel as [|fuel]; [simpl in Hfuel; lia|].
    set (X := match ms with
              | [] => "}" :: rest
              | _ :: _ => "," :: render_members ms ++ "}" :: rest
              end).
    assert (HX : exists d X', X = d :: X' /\ nonspace d = true /\ numchar d = false).
    { subst X. destruct ms; eexists; eexists; (split; [reflexivity|]); now split. }
    destruct HX as (d & X' & EX & Hd & Hnd).
    assert (Hnext : (if Byte.eqb d "," then consumeSeparator X else Ok X)
                    = Ok (consumeWhitespace (render_members ms ++ "}" :: rest))).
    { subst X. destruct ms as [|m' ms'].
      - injection EX as <- <-. reflexivity.
      - injection EX as <- <-. byte_tests. unfold consumeSeparator.
        now rewrite slice_from_one, bind_ok. }
    remember (len (render_members (m :: ms) ++ "}" :: rest)) as T eqn:ET.
    assert (Hlen : T = len (member_head m) + len (m_val m) + len (m_post m) + len X).
    { subst T. rewrite render_members_cons. fold X. unfold member_head. lens. lia. }
    assert (Hm : len (render_member m)
                 = len (member_head m) + len (m_val m) + len (m_post m)).
    { unfold render_member. lens. lia. }
    rewrite render_members_cons. fold X.
    rewrite consumeWhitespace_skip by (assumption || reflexivity).
    rewrite object_loop_unfold, index_zero, bind_ok. byte_tests.
    rewrite parseString_string, bind_ok by assumption. cbv beta iota zeta.
    rewrite consumeWhitespace_skip by (assumption || reflexivity).
    rewrite consumeSeparator_value, bind_ok by assumption.
    cbn [member_offset].
    destruct (bytes_eqb (m_key m) acc) eqn:Ekey.
    + f_equal. lens. lia.
    + rewrite consumeValue_wf, bind_ok;
        [|assumption | rewrite EX; now apply follow_ok_ws].
      cbv zeta.
      assert (Hcw : consumeWhitespace (m_post m ++ X) = X)
        by (rewrite EX; now apply consumeWhitespace_skip).
      assert (Hix : index BufferRange X 0 = Ok d) by (rewrite EX; apply index_zero).
      rewrite Hcw, Hix, bind_ok, Hnext, bind_ok.
      rewrite IH by (simpl in Hfuel; lia).
      f_equal.
      assert (HX3 : len X = match ms with
                            | [] => len ("}" :: rest)
                            | _ :: _ => 1 + len (render_members ms ++ "}" :: rest)
                            end).
      { subst X. destruct ms; lens; lia. }
      destruct ms as [|m' ms'].
      * cbn [member_offset]. change (render_members []) with (@nil byte).
        change (render_members [m]) with (render_member m).
        cbn [app]. change (len (@nil byte)) with 0. lens. lia.
      * change (render_members (m :: m' :: ms'))
          with (render_member m ++ "," :: render_members (m' :: ms')).
        destruct (member_offset acc (m' :: ms')) as [k|]; lens; lia.
Qed.
Lemma commas_split (l1 : list (list byte)) (x : list byte) (l2 : list (list byte)) :
  commas (l1 ++ x :: l2) = items_before l1 ++ x ++ items_after l2.
Proof.
  induction l1 as [|y l1 IH].
  - simpl app. change (items_before []) with (@nil byte). simpl app.
    induction l2 as [|z l2 IH2] in x |- *.
    + simpl. now rewrite app_nil_r.
    + change (commas (x :: z :: l2)) with (x ++ "," :: commas (z :: l2)).
      rewrite IH2. reflexivity.
  - change ((y :: l1) ++ x :: l2) with (y :: (l1 ++ x :: l2)).
    destruct (l1 ++ x :: l2) as [|z l] eqn:E.
    + destruct l1; discriminate.
    + change (commas (y :: z :: l)) with (y ++ "," :: commas (z :: l)).
      rewrite IH. unfold items_before. simpl. now rewrite <- !app_assoc.
Qed.

Lemma render_elements_split (es1 : list element) (e : element) (es2 : list element) :
  render_elements (es1 ++ e :: es2)
  = elements_before es1 ++ e_pre e ++ e_val e ++ e_post e ++ elements_after es2.
Proof.
  unfold render_elements, elements_before, elements_after.
  rewrite map_app. simpl map. rewrite commas_split. unfold render_element.
  now rewrite <- !app_assoc.
Qed.

Lemma render_members_split (ms1 : list member) (m : member) (ms2 : list member) :
  render_members (ms1 ++ m :: ms2)
  = members_before ms1 ++ member_head m ++ m_val m ++ m_post m ++ members_after ms2.
Proof.
  unfold render_members, members_before, members_after.
  rewrite map_app. simpl map. rewrite commas_split. unfold render_member.
  now rewrite <- !app_assoc.
Qed.

Lemma array_loop_unfold (fuel : nat) (n arrayLen : Z) (json : list byte) :
  array_loop (S fuel) n arrayLen json =
    if n >? arrayLen then
      c <- index BufferRange json 0 ;;
      if negb (Byte.eqb c "]") then
        json <- consumeValue json ;;
        let arrayLen := arrayLen + 1 in
        let json := consumeWhitespace json in
        c <- index BufferRange json 0 ;;
        json <- (if Byte.eqb c "," then consumeSeparator json else Ok json) ;;
        array_loop fuel n arrayLen json
      else Ok (json, arrayLen)
    else Ok (json, arrayLen).
Proof. reflexivity. Qed.

Lemma array_loop_stop (fuel : nat) (n arrayLen : Z) (json : list byte) :
  n <= arrayLen -> array_loop fuel n arrayLen json = Ok (json, arrayLen).
Proof. intros H. destruct fuel; cbn [array_loop]; now rewrite (gtb_false n arrayLen). Qed.

Lemma array_loop_closing (fuel : nat) (n arrayLen : Z) (rest : list byte) :
  array_loop fuel n arrayLen ("]" :: rest) = Ok ("]" :: rest, arrayLen).
Proof.
  destruct fuel; cbn [array_loop]; destruct (n >? arrayLen); try reflexivity;
    rewrite index_zero, bind_ok; reflexivity.
Qed.

Lemma array_loop_spec (es : list element) :
  wf_elements es ->
  forall fuel n arrayLen rest,
    arrayLen <= n -> (Z.to_nat (n - arrayLen) <= fuel)%nat ->
    array_loop fuel n arrayLen (consumeWhitespace (render_elements es ++ "]" :: rest)) =
      Ok (consumeWhitespace
            (render_elements (skipn (Z.to_nat (n - arrayLen)) es) ++ "]" :: rest),
          Z.min n (arrayLen + len es)).
Proof.
  induction 1 as [|e es Hpre Hval Hpost Hes IH]; intros fuel n a rest Han Hfuel.
  - rewrite skipn_nil. change (render_elements []) with (@nil byte). cbn [app].
    rewrite consumeWhitespace_stop by reflexivity. rewrite array_loop_closing.
    change (len (@nil element)) with 0. now replace (Z.min n (a + 0)) with a by lia.
  - destruct (Z.eq_dec n a) as [->|Hne].
    + rewrite array_loop_stop by lia. rewrite Z.sub_diag. cbn [Z.to_nat skipn].
      f_equal. f_equal. lens. lia.
    + destruct fuel as [|fuel]; [lia|].
      set (X := match es with
                | [] => "]" :: rest
                | _ :: _ => "," :: render_elements es ++ "]" :: rest
                end).
      assert (HX : exists d X', X = d :: X' /\ nonspace d = true /\ numchar d = false).
      { subst X. destruct es; eexists; eexists; (split; [reflexivity|]); now split. }
      destruct HX as (d & X' & EX & Hd & Hnd).
      assert (Hnext : (if Byte.eqb d "," then consumeSeparator X else Ok X)
                      = Ok (consumeWhitespace (render_elements es ++ "]" :: rest))).
      { subst X. destruct es as [|e' es'].
        - injection EX as <- <-. reflexivity.
        - injection EX as <- <-. byte_tests. unfold consumeSeparator.
          now rewrite slice_from_one, bind_ok. }
      rewrite render_elements_cons. fold X.
      rewrite consumeWhitespace_value by assumption.
      destruct (wf_value_head _ Hval) as (c & tl & Ev & Hc & _ & Hc2 & _).
      rewrite array_loop_unfold, (gtb_true n a) by lia.
      rewrite Ev at 1. cbn [app]. rewrite index_zero, bind_ok, Hc2. cbn [negb].
      rewrite consumeValue_wf, bind_ok;
        [|assumption | rewrite EX; now apply follow_ok_ws].
      cbv zeta.
      assert (Hcw : consumeWhitespace (e_post e ++ X) = X)
        by (rewrite EX; now apply consumeWhitespace_skip).
      assert (Hix : index BufferRange X 0 = Ok d) by (rewrite EX; apply index_zero).
      rewrite Hcw, Hix, bind_ok, Hnext, bind_ok.
      rewrite IH by lia.
      replace (Z.to_nat (n - a)) with (S (Z.to_nat (n - (a + 1)))) by lia.
      cbn [skipn]. f_equal. f_equal. lens. lia.
Qed.

Lemma members_length (ms : list member) : len ms <= len (render_members ms).
Proof.
  induction ms as [|m ms IH]; [reflexivity|].
  pose proof (render_members_cons m ms []) as E. rewrite !app_nil_r in E.
  rewrite E. destruct ms as [|m' ms']; lens; lia.
Qed.

Lemma members_fuel (ms : list member) (s : list byte) :
  wf_members ms ->
  (length ms <= length (consumeWhitespace (render_members ms ++ s)))%nat.
Proof.
  intros H. apply Nat2Z.inj_le. fold (len ms).
  fold (len (consumeWhitespace (render_members ms ++ s))).
  destruct H as [|m ms Hpre Hkey Hmid Hsep Hval Hpost Hms];
    [apply len_nonneg|].
  rewrite render_members_cons.
  rewrite consumeWhitespace_skip by (assumption || reflexivity).
  pose proof (members_length ms) as Hl.
  destruct ms as [|m' ms']; lens; lia.
Qed.

(** The locator on an object: the value of the first member whose key has the
    bytes of the accessor, or else the closing brace; nothing at all when
    the text from the opening brace on is shorter than the accessor. *)
Lemma locateAccessor_object (w0 w : list byte) (ms : list member)
  (rest acc : list byte) :
  all_ws w0 -> all_ws w -> wf_members ms ->
  locateAccessor (w0 ++ render_object w ms ++ rest) acc =
    if len (render_object w ms ++ rest) <? len acc then Ok (-1)
    else Ok (len w0 + 1 + len w
             + match member_offset acc ms with
               | Some k => k
               | None => len (render_members ms)
               end).
Proof.
  intros Hw0 Hw Hms. unfold locateAccessor, render_object.
  cbn [app]. rewrite <- !app_assoc. cbn [app].
  rewrite consumeWhitespace_skip by (assumption || reflexivity).
  set (J := "{" :: w ++ render_members ms ++ "}" :: rest).
  replace (len J =? 0) with false
    by (symmetry; apply Z.eqb_neq; subst J; lens; lia).
  cbn [orb]. destruct (len J <? len acc); [reflexivity|].
  subst J. rewrite index_zero, bind_ok. byte_tests.
  unfold consumeSeparator. rewrite slice_from_one, bind_ok.
  rewrite consumeWhitespace_ws by assumption. rewrite bind_ok.
  rewrite object_loop_spec by (assumption || (pose proof (members_fuel ms ("}" :: rest) Hms); lia)).
  f_equal. lens. lia.
Qed.
(** The locator on an array, for an accessor that [Atoi] reads as [n]. *)
Lemma locateAccessor_array (w0 w : list byte) (es : list element)
  (rest acc : list byte) (n : Z) :
  all_ws w0 -> all_ws w -> wf_elements es -> Atoi acc = Some n -> 0 <= n ->
  locateAccessor (w0 ++ render_array w es ++ rest) acc =
    if len (render_array w es ++ rest) <? len acc then Ok (-1)
    else if n >? len es then Ok (-1)
    else Ok (len w0 + 1 + len w + len (render_elements es ++ "]" :: rest)
             - len (consumeWhitespace
                      (render_elements (skipn (Z.to_nat n) es) ++ "]" :: rest))).
Proof.
  intros Hw0 Hw Hes Hacc Hn. unfold locateAccessor, render_array.
  cbn [app]. rewrite <- !app_assoc. cbn [app].
  rewrite consumeWhitespace_skip by (assumption || reflexivity).
  set (J := "[" :: w ++ render_elements es ++ "]" :: rest).
  replace (len J =? 0) with false
    by (symmetry; apply Z.eqb_neq; subst J; lens; lia).
  cbn [orb]. destruct (len J <? len acc); [reflexivity|].
  subst J. rewrite index_zero, bind_ok. byte_tests. rewrite Hacc.
  replace (n <? 0) with false by (symmetry; apply Z.ltb_ge; lia).
  unfold consumeSeparator. rewrite slice_from_one, bind_ok.
  rewrite consumeWhitespace_ws by assumption. rewrite bind_ok.
  rewrite array_loop_spec by (assumption || lia).
  rewrite bind_ok. cbv beta iota. rewrite Z.sub_0_r. cbn [Z.add].
  destruct (n >? len es) eqn:E.
  - apply Z.gtb_lt in E. rewrite (gtb_true n (Z.min n (len es))) by lia. reflexivity.
  - rewrite Z.gtb_ltb in E. apply Z.ltb_ge in E.
    rewrite (gtb_false n (Z.min n (len es))) by lia. f_equal. lens. lia.
Qed.

Lemma locateAccessor_not_index (w0 w : list byte) (es : list element)
  (rest acc : list byte) :
  all_ws w0 -> (Atoi acc = None \/ exists n, Atoi acc = Some n /\ n < 0) ->
  locateAccessor (w0 ++ render_array w es ++ rest) acc = Ok (-1).
Proof.
  intros Hw0 Hacc. unfold locateAccessor, render_array.
  cbn [app]. rewrite <- !app_assoc. cbn [app].
  rewrite consumeWhitespace_skip by (assumption || reflexivity).
  destruct (_ || _); [reflexivity|].
  rewrite index_zero, bind_ok. byte_tests.
  destruct Hacc as [->|(n & -> & Hn)]; [reflexivity|].
  now replace (n <? 0) with true by (symmetry; apply Z.ltb_lt; lia).
Qed.

(** ... at an element: the offset of its value. *)
Lemma locateAccessor_element (w0 w : list byte) (es1 : list element) (e : element)
  (es2 : list element) (rest acc : list byte) :
  all_ws w0 -> all_ws w -> wf_elements (es1 ++ e :: es2) ->
  Atoi acc = Some (len es1) ->
  len acc <= len (render_array w (es1 ++ e :: es2) ++ rest) ->
  locateAccessor (w0 ++ render_array w (es1 ++ e :: es2) ++ rest) acc =
    Ok (len (w0 ++ "[" :: w ++ elements_before es1 ++ e_pre e)).
Proof.
  intros Hw0 Hw Hes Hacc Hguard.
  rewrite (locateAccessor_array w0 w _ rest acc (len es1)) by (assumption || apply len_nonneg).
  replace (_ <? len acc) with false by (symmetry; apply Z.ltb_ge; lia).
  rewrite gtb_false by (lens; lia).
  rewrite len_to_nat, skipn_app, skipn_all, Nat.sub_diag. cbn [skipn app].
  assert (He : wf_value (e_val e)).
  { clear - Hes. induction es1 as [|x es1 IH]; inversion Hes; subst; auto. }
  assert (Hpre : all_ws (e_pre e)).
  { clear - Hes. induction es1 as [|x es1 IH]; inversion Hes; subst; auto. }
  rewrite render_elements_cons, consumeWhitespace_value by assumption.
  f_equal. rewrite render_elements_split.
  replace (match es2 with
           | [] => "]" :: rest
           | _ :: _ => "," :: render_elements es2 ++ "]" :: rest
           end) with (elements_after es2 ++ "]" :: rest).
  - lens. lia.
  - destruct es2 as [|e2 es2]; [reflexivity|].
    pose proof (render_elements_split [] e2 es2) as E.
    change ([] ++ e2 :: es2) with (e2 :: es2) in E.
    change (elements_before []) with (@nil byte) in E. cbn [app] in E.
    rewrite E. unfold elements_after, items_after. cbn [map concat].
    unfold render_element. cbn [app]. now rewrite <- !app_assoc.
Qed.

(** ... at the length of the array: the offset of the closing bracket. *)
Lemma locateAccessor_array_end (w0 w : list byte) (es : list element)
  (rest acc : list byte) :
  all_ws w0 -> all_ws w -> wf_elements es ->
  Atoi acc = Some (len es) ->
  len acc <= len (render_array w es ++ rest) ->
  locateAccessor (w0 ++ render_array w es ++ rest) acc =
    Ok (len (w0 ++ "[" :: w ++ render_elements es)).
Proof.
  intros Hw0 Hw Hes Hacc Hguard.
  rewrite (locateAccessor_array w0 w _ rest acc (len es)) by (assumption || apply len_nonneg).
  replace (_ <? len acc) with false by (symmetry; apply Z.ltb_ge; lia).
  rewrite gtb_false by lia.
  rewrite len_to_nat, skipn_all. change (render_elements []) with (@nil byte).
  cbn [app]. rewrite consumeWhitespace_stop by reflexivity.
  f_equal. lens. lia.
Qed.

(** ... beyond the length of the array: not found. *)
Lemma locateAccessor_array_beyond (w0 w : list byte) (es : list element)
  (rest acc : list byte) (n : Z) :
  all_ws w0 -> all_ws w -> wf_elements es ->
  Atoi acc = Some n -> len es < n ->
  locateAccessor (w0 ++ render_array w es ++ rest) acc = Ok (-1).
Proof.
  intros Hw0 Hw Hes Hacc Hn.
  rewrite (locateAccessor_array w0 w _ rest acc n)
    by (assumption || (pose proof (len_nonneg es); lia)).
  destruct (_ <? len acc); [reflexivity|].
  now rewrite gtb_true by lia.
Qed.

Lemma locateAccessor_null (w0 rest acc : list byte) :
  all_ws w0 ->
  locateAccessor (w0 ++ null ++ rest) acc =
    if len (null ++ rest) <? len acc then Ok (-1)
    else match Atoi acc with
         | Some 0 => Ok (len w0 + 3)
         | _ => Ok (-1)
         end.
Proof.
  intros Hw0. unfold locateAccessor, null. cbn [app].
  rewrite consumeWhitespace_skip by (assumption || reflexivity).
  set (J := "n" :: "u" :: "l" :: "l" :: rest).
  replace (len J =? 0) with false
    by (symmetry; apply Z.eqb_neq; subst J; lens; lia).
  cbn [orb]. destruct (len J <? len acc); [reflexivity|].
  subst J. rewrite index_zero, bind_ok. byte_tests.
  destruct (Atoi acc) as [[| |]|]; try reflexivity.
  replace (slice_from BufferRange ("n" :: "u" :: "l" :: "l" :: rest) 3)
    with (Ok ("l" :: rest))
    by (symmetry; apply (slice_from_app_len BufferRange ["n"; "u"; "l"] ("l" :: rest))).
  rewrite bind_ok. f_equal. lens. lia.
Qed.

(** A closing delimiter, or the last byte of [null], is no container. *)
Lemma locateAccessor_closer (c : byte) (tl acc : list byte) :
  c = "}" \/ c = "]" \/ c = "l" -> locateAccessor (c :: tl) acc = Ok (-1).
Proof.
  intros H. unfold locateAccessor.
  rewrite consumeWhitespace_stop by (destruct H as [->|[->| ->]]; reflexivity).
  destruct (_ || _); [reflexivity|]. rewrite index_zero, bind_ok.
  destruct H as [->|[->| ->]]; reflexivity.
Qed.
(* ------------------------------------------------------------------ *)
(** ** The accessor loop *)

Lemma index_where_first (p : byte -> bool) (a : list byte) (c : byte) (s : list byte) :
  forall i, Forall (fun d => p d = false) a -> p c = true ->
    index_where p i (a ++ c :: s) = i + len a.
Proof.
  intros i Ha Hc. revert i. induction Ha as [|d a Hd _ IH]; intros i.
  - simpl. rewrite Hc. change (len (@nil byte)) with 0. lia.
  - simpl. rewrite Hd, IH. lens. lia.
Qed.

Lemma index_where_bounds (p : byte -> bool) (s : list byte) :
  forall i, index_where p i s = -1 \/ i <= index_where p i s < i + len s.
Proof.
  induction s as [|c s IH]; intros i; simpl; [now left|].
  destruct (p c).
  - right. lens. lia.
  - destruct (IH (i + 1)) as [H|H]; [now left|right]. lens. lia.
Qed.

Lemma IndexByte_dot_free (acc : list byte) : dot_free acc -> IndexByte acc "." = -1.
Proof. intros H. unfold IndexByte. now apply index_where_none. Qed.

Lemma IndexByte_dot (acc more : list byte) :
  dot_free acc -> IndexByte (acc ++ "." :: more) "." = len acc.
Proof.
  intros H. unfold IndexByte. rewrite index_where_first; [lia | exact H | reflexivity].
Qed.

(** The iteration for an accessor that a dot ends. *)
Lemma iteration_inner (json p0 acc more : list byte) (i : Z) :
  dot_free acc ->
  iteration json (p0 ++ acc ++ "." :: more) i (len p0) =
    (ji <- slice_from BufferRange json i ;;
     accIndex <- locateAccessor ji acc ;;
     if accIndex =? -1 then Ok Reject
     else
       c <- index BufferRange json accIndex ;;
       if closer c then Ok Reject
       else Ok (Next (i + accIndex) (len p0 + len acc + 1))).
Proof.
  intros Hacc. unfold iteration.
  rewrite slice_from_app_len, bind_ok. rewrite IndexByte_dot by assumption.
  pose proof (len_nonneg acc) as Hl.
  replace (len acc =? -1) with false by (symmetry; apply Z.eqb_neq; lia).
  cbv zeta. rewrite slice_middle, bind_ok.
  destruct (slice_from BufferRange json i) as [ji|]; [|reflexivity]. cbn [bind].
  destruct (locateAccessor ji acc) as [r|]; [|reflexivity]. cbn [bind].
  destruct (r =? -1); [reflexivity|].
  destruct (index BufferRange json r) as [c|]; [|reflexivity]. cbn [bind].
  change (bytes_eqb [] []) with true. unfold closer. rewrite andb_true_r.
  destruct (_ || _); reflexivity.
Qed.

(** The iteration for the rest of the path when it holds no dot. *)
Lemma iteration_last (json p0 acc : list byte) (i : Z) :
  dot_free acc ->
  iteration json (p0 ++ acc) i (len p0) =
    (ji <- slice_from BufferRange json i ;;
     accIndex <- locateAccessor ji acc ;;
     if accIndex =? -1 then Ok Reject
     else
       c <- index BufferRange json accIndex ;;
       if closer c && bytes_eqb acc [] then Ok Reject
       else if bytes_eqb acc [] then Ok (Next (i + accIndex) (len p0 + len acc + 1))
            else Ok (Done (i + accIndex) acc)).
Proof.
  intros Hacc. unfold iteration.
  rewrite slice_from_app_len, bind_ok. rewrite IndexByte_dot_free by assumption.
  change (-1 =? -1) with true. cbv zeta iota.
  pose proof (slice_middle PathRange p0 acc []) as E. rewrite app_nil_r in E.
  rewrite E, bind_ok. reflexivity.
Qed.

(** From [bind m k = Ok _] to [m = Ok _]. *)
Ltac bind_inv H :=
  match type of H with
  | bind ?m _ = Ok _ =>
      let E := fresh "E" in
      destruct m eqn:E; cbn [bind] in H; [|discriminate H]
  end.

Ltac if_inv H :=
  match type of H with
  | (if ?c then _ else _) = _ => let E := fresh "E" in destruct c eqn:E
  end.

Lemma iteration_bounds (json path : list byte) (i j : Z) (w : walk) :
  iteration json path i j = Ok w -> 0 <= j <= len path.
Proof.
  unfold iteration. intros H.
  destruct (slice_from PathRange path j) as [pj|] eqn:E; [|discriminate].
  now apply slice_from_ok in E.
Qed.

Lemma iteration_next (json path : list byte) (i j i' j' : Z) :
  iteration json path i j = Ok (Next i' j') -> 0 <= j <= len path /\ j < j'.
Proof.
  intros H. split; [eapply iteration_bounds; eassumption|].
  unfold iteration in H.
  destruct (slice_from PathRange path j) as [pj|] eqn:E; [|discriminate].
  rewrite bind_ok in H. cbv zeta in H.
  pose proof (index_where_bounds (fun d => Byte.eqb d ".") pj 0) as Hb.
  fold (IndexByte pj ".") in Hb. pose proof (len_nonneg pj) as Hl.
  set (dotIndex := if IndexByte pj "." =? -1 then len pj else IndexByte pj ".") in H.
  assert (Hd : 0 <= dotIndex).
  { subst dotIndex. destruct (IndexByte pj "." =? -1) eqn:E1; [lia|].
    apply Z.eqb_neq in E1. lia. }
  bind_inv H. bind_inv H. bind_inv H.
  if_inv H; [discriminate|]. bind_inv H.
  if_inv H; [discriminate|]. if_inv H; [|discriminate].
  injection H as _ <-. lia.
Qed.

Lemma locate_loop_unfold (fuel : nat) (json path : list byte) (i j : Z) :
  locate_loop (S fuel) json path i j =
    (w <- iteration json path i j ;;
     match w with
     | Next i' j' => locate_loop fuel json path i' j'
     | _ => Ok w
     end).
Proof. reflexivity. Qed.

(** The loop from the start goes through every state it reaches. *)
Lemma reaches_loop (json path : list byte) (i j : Z) :
  reaches json path i j ->
  exists k : nat, Z.of_nat k <= j /\
    forall fuel, (k <= fuel)%nat ->
      locate_loop fuel json path 0 0 = locate_loop (fuel - k) json path i j.
Proof.
  induction 1 as [|i j i' j' Hr (k & Hk & IH) Hit].
  - exists O. split; [lia|]. intros fuel _. now rewrite Nat.sub_0_r.
  - apply iteration_next in Hit as Hb. exists (S k). split; [lia|].
    intros fuel Hfuel. rewrite IH by lia.
    replace (fuel - k)%nat with (S (fuel - S k)) by lia.
    now rewrite locate_loop_unfold, Hit, bind_ok.
Qed.

(** An iteration that ends the loop, in a state that the loop reaches, gives
    the answer of the loop. *)
Lemma locatePath_reaches (json path : list byte) (i j : Z) (w : walk) :
  reaches json path i j -> iteration json path i j = Ok w ->
  (forall i' j', w <> Next i' j') ->
  locatePath json path = Ok w.
Proof.
  intros Hr Hit Hw. destruct (reaches_loop _ _ _ _ Hr) as (k & Hk & Hloop).
  apply iteration_bounds in Hit as Hb. unfold locatePath.
  assert (Hk2 : (k <= length path)%nat) by (unfold len in Hb; lia).
  rewrite Hloop by lia.
  replace (length path + 2 - k)%nat with (S (length path + 1 - k)) by lia.
  rewrite locate_loop_unfold, Hit, bind_ok.
  destruct w; try reflexivity. now destruct (Hw i0 j0).
Qed.
(* ------------------------------------------------------------------ *)
(** ** Splicing *)

Lemma store_spec (a : list byte) (c : byte) (s : list byte) (d : byte) :
  store (a ++ c :: s) (len a) d = Ok (a ++ d :: s).
Proof.
  unfold store. lens.
  replace (0 <=? len a) with true by (symmetry; apply Z.leb_le; lia).
  replace (len a <? len a + (len s + 1)) with true by (symmetry; apply Z.ltb_lt; lia).
  cbn [andb]. rewrite len_to_nat.
  rewrite firstn_app, firstn_all, Nat.sub_diag. cbn [firstn]. rewrite app_nil_r.
  change (S (length a)) with (1 + length a)%nat.
  rewrite <- skipn_skipn, skipn_app, skipn_all, Nat.sub_diag. reflexivity.
Qed.

Lemma copy_at_spec (a d src : list byte) :
  (length src <= length d)%nat ->
  copy_at (a ++ d) (len a) src = Ok (a ++ src ++ skipn (length src) d).
Proof.
  intros H. unfold copy_at. rewrite slice_from_app_len, bind_ok.
  rewrite Nat.min_r by assumption. rewrite firstn_all.
  rewrite len_to_nat, firstn_app, firstn_all, Nat.sub_diag. cbn [firstn].
  now rewrite app_nil_r.
Qed.

Lemma pad_spaces_spec (count : nat) :
  forall a done x y,
    length x = count ->
    pad_spaces count (a ++ done ++ x ++ y) (len a) (len done)
    = Ok (a ++ done ++ repeat " " count ++ y).
Proof.
  induction count as [|count IH]; intros a done x y Hx.
  - destruct x; [reflexivity|discriminate].
  - destruct x as [|c x]; [discriminate|]. injection Hx as Hx.
    cbn [pad_spaces]. rewrite app_assoc. replace (len a + len done) with (len (a ++ done))
      by (lens; lia).
    cbn [app]. rewrite store_spec, bind_ok.
    replace (a ++ done) with (a ++ done) by reflexivity.
    rewrite <- app_assoc.
    change (done ++ " " :: x ++ y) with (done ++ [" "] ++ x ++ y).
    rewrite (app_assoc done [" "]).
    replace (len done + 1) with (len (done ++ [" "])) by (lens; lia).
    rewrite IH by assumption. rewrite <- app_assoc. reflexivity.
Qed.

Lemma prevChar_from_last (p : list byte) (c : byte) (w : list byte) :
  all_ws w -> nonspace c = true ->
  forall s i, prevChar_from (p ++ c :: w ++ s) (length (p ++ c :: w)) i = Ok c.
Proof.
  intros Hw Hc. induction w as [|x w IH] using rev_ind; intros s i.
  - cbn [app]. replace (length (p ++ [c])) with (S (length p))
      by (rewrite length_app; simpl; lia).
    cbn [prevChar_from]. fold (len p). rewrite index_app_len, bind_ok. now rewrite Hc.
  - apply Forall_app in Hw as [Hw Hx]. inversion Hx as [|? ? Hx' _]; subst.
    replace (length (p ++ c :: w ++ [x])) with (S (length (p ++ c :: w)))
      by (rewrite !length_app; simpl; rewrite length_app; simpl; lia).
    cbn [prevChar_from]. fold (len (p ++ c :: w)).
    rewrite <- app_assoc. cbn [app].
    replace (p ++ c :: w ++ x :: s) with ((p ++ c :: w) ++ x :: s)
      by (rewrite <- app_assoc; reflexivity).
    rewrite index_app_len, bind_ok, Hx'.
    rewrite <- app_assoc. cbn [app].
    replace (x :: s) with ([x] ++ s) by reflexivity.
    apply (IH Hw ([x] ++ s) i).
Qed.

Lemma prevChar_last (p : list byte) (c : byte) (w s : list byte) :
  all_ws w -> nonspace c = true ->
  prevChar (p ++ c :: w ++ s) (len (p ++ c :: w)) = Ok c.
Proof.
  intros Hw Hc. unfold prevChar. rewrite len_to_nat. now apply prevChar_from_last.
Qed.

Lemma wf_value_not_null (v : list byte) :
  wf_value v -> v <> null ->
  exists c tl, v = c :: tl /\ Byte.eqb c "n" = false.
Proof.
  intros Hv Hn. destruct Hv as [ | | |v Hv|b Hb|w es Hw Hes|w ms Hw Hms];
    try (eexists; eexists; split; reflexivity).
  - now destruct Hn.
  - destruct v as [|c v]; [contradiction|]. destruct Hv as [Hc _].
    exists c, v. split; [reflexivity|]. now destruct (number_head c Hc) as (_ & _ & H & _).
Qed.

Lemma consumeValue_closing (c : byte) (rest : list byte) :
  c = "}" \/ c = "]" \/ c = "l" -> consumeValue (c :: rest) = Ok (c :: rest).
Proof.
  intros H. unfold consumeValue. rewrite index_zero, bind_ok.
  destruct H as [->|[->| ->]]; reflexivity.
Qed.

(** Replacing a value that is not [null], into a fresh buffer. *)
Lemma rewriteAt_value (pre v rest lastAcc val : list byte) :
  wf_value v -> follow_ok rest -> v <> null ->
  rewriteAt (pre ++ v ++ rest) (len pre) lastAcc val false =
    Ok {| ret := pre ++ val ++ rest; buf := pre ++ v ++ rest; shared := false |}.
Proof.
  intros Hv Hrest Hnull.
  destruct (wf_value_head v Hv) as (c & tl & Ev & _ & Hc1 & Hc2 & Hc3 & _).
  destruct (wf_value_not_null v Hv Hnull) as (c' & tl' & Ev' & Hc4).
  rewrite Ev in Ev'. injection Ev' as <- <-.
  unfold rewriteAt.
  assert (Hix : index BufferRange (pre ++ v ++ rest) (len pre) = Ok c).
  { rewrite Ev. cbn [app]. apply index_app_len. }
  rewrite Hix, bind_ok, Hc3. cbn [andb]. cbv zeta iota.
  rewrite slice_from_app_len, bind_ok, consumeValue_wf, bind_ok by assumption.
  rewrite bind_ok, slice_prefix, bind_ok, Hix, bind_ok, Hc1, Hc2, Hc4.
  rewrite bind_ok. reflexivity.
Qed.

(** Replacing a value in place by one that is not longer. *)
Lemma rewriteAt_value_inplace (pre v rest lastAcc val : list byte) :
  wf_value v -> follow_ok rest -> len val <= len v ->
  rewriteAt (pre ++ v ++ rest) (len pre) lastAcc val true =
    Ok (return_json (pre ++ val ++ repeat " " (Z.to_nat (len v - len val)) ++ rest)).
Proof.
  intros Hv Hrest Hlen.
  destruct (wf_value_head v Hv) as (c & tl & Ev & _ & Hc1 & Hc2 & Hc3 & _).
  unfold rewriteAt.
  assert (Hix : index BufferRange (pre ++ v ++ rest) (len pre) = Ok c).
  { rewrite Ev. cbn [app]. apply index_app_len. }
  rewrite Hix, bind_ok, Hc3. cbn [andb]. cbv zeta iota.
  rewrite slice_from_app_len, bind_ok, consumeValue_wf, bind_ok by assumption.
  rewrite Hix, bind_ok, Hc1, Hc2. cbn [negb andb]. cbv iota.
  replace (len (v ++ rest) - len rest) with (len v) by (lens; lia).
  replace (len val <=? len v) with true by (symmetry; apply Z.leb_le; lia).
  assert (Hsplit : v = firstn (length val) v ++ skipn (length val) v)
    by (symmetry; apply firstn_skipn).
  assert (Hl1 : length (firstn (length val) v) = length val).
  { rewrite length_firstn. unfold len in Hlen. lia. }
  rewrite copy_at_spec by (rewrite length_app; unfold len in Hlen; lia).
  rewrite bind_ok. rewrite skipn_app.
  replace (length val - length v)%nat with 0%nat by (unfold len in Hlen; lia).
  cbn [skipn].
  pose proof (pad_spaces_spec (Z.to_nat (len v - len val)) (pre ++ val) []
                (skipn (length val) v) rest) as Hpad.
  rewrite length_skipn in Hpad. specialize (Hpad ltac:(unfold len; lia)).
  cbn [app] in Hpad. rewrite <- !app_assoc in Hpad.
  replace (len (pre ++ val)) with (len pre + len val) in Hpad by (lens; lia).
  change (len (@nil byte)) with 0 in Hpad.
  rewrite Hpad, bind_ok. rewrite bind_ok. reflexivity.
Qed.

(** Inserting a member before the closing brace. *)
Lemma rewriteAt_closing_brace (p : list byte) (c : byte) (w rest lastAcc val : list byte)
  (inPlace : bool) :
  all_ws w -> nonspace c = true -> (inPlace = true -> val <> []) ->
  rewriteAt (p ++ c :: w ++ "}" :: rest) (len (p ++ c :: w)) lastAcc val inPlace =
    Ok {| ret := p ++ c :: w
                 ++ (if negb (Byte.eqb c "{") then [","] else [])
                 ++ quote :: lastAcc ++ quote :: ":" :: val ++ "}" :: rest;
          buf := p ++ c :: w ++ "}" :: rest;
          shared := false |}.
Proof.
  intros Hw Hc Hval. unfold rewriteAt.
  assert (E : p ++ c :: w ++ "}" :: rest = (p ++ c :: w) ++ "}" :: rest)
    by (rewrite <- app_assoc; reflexivity).
  assert (Hix : index BufferRange (p ++ c :: w ++ "}" :: rest) (len (p ++ c :: w)) = Ok "}")
    by (rewrite E; apply index_app_len).
  rewrite Hix, bind_ok. byte_tests.
  assert (Hsl : slice_from BufferRange (p ++ c :: w ++ "}" :: rest) (len (p ++ c :: w))
                = Ok ("}" :: rest)) by (rewrite E; apply slice_from_app_len).
  rewrite Hsl, bind_ok, consumeValue_closing, bind_ok by auto.
  assert (Hv0 : inPlace = true -> (len val <=? 0) = false).
  { intros Hi. apply Z.leb_gt. specialize (Hval Hi).
    destruct val; [contradiction|]. lens. lia. }
  assert (Hpre : slice BufferRange (p ++ c :: w ++ "}" :: rest) 0 (len (p ++ c :: w))
                 = Ok (p ++ c :: w)) by (rewrite E; apply slice_prefix).
  assert (Hprev : prevChar (p ++ c :: w ++ "}" :: rest) (len (p ++ c :: w)) = Ok c)
    by now apply prevChar_last.
  destruct inPlace.
  - cbv zeta. rewrite ?Hix, ?bind_ok. byte_tests. rewrite Hv0 by reflexivity.
    do 3 (rewrite ?bind_ok, ?Hpre, ?Hprev, ?Hix; byte_tests).
    f_equal. f_equal. now norm_app.
  - do 3 (rewrite ?bind_ok, ?Hpre, ?Hprev, ?Hix; byte_tests).
    f_equal. f_equal. now norm_app.
Qed.

(** Inserting an element before the closing bracket. *)
Lemma rewriteAt_closing_bracket (p : list byte) (c : byte) (w rest lastAcc val : list byte)
  (inPlace : bool) :
  all_ws w -> nonspace c = true -> (inPlace = true -> val <> []) ->
  rewriteAt (p ++ c :: w ++ "]" :: rest) (len (p ++ c :: w)) lastAcc val inPlace =
    Ok {| ret := p ++ c :: w
                 ++ (if negb (Byte.eqb c "[") then [","] else [])
                 ++ val ++ "]" :: rest;
          buf := p ++ c :: w ++ "]" :: rest;
          shared := false |}.
Proof.
  intros Hw Hc Hval. unfold rewriteAt.
  assert (E : p ++ c :: w ++ "]" :: rest = (p ++ c :: w) ++ "]" :: rest)
    by (rewrite <- app_assoc; reflexivity).
  assert (Hix : index BufferRange (p ++ c :: w ++ "]" :: rest) (len (p ++ c :: w)) = Ok "]")
    by (rewrite E; apply index_app_len).
  rewrite Hix, bind_ok. byte_tests.
  assert (Hsl : slice_from BufferRange (p ++ c :: w ++ "]" :: rest) (len (p ++ c :: w))
                = Ok ("]" :: rest)) by (rewrite E; apply slice_from_app_len).
  rewrite Hsl, bind_ok, consumeValue_closing, bind_ok by auto.
  assert (Hv0 : inPlace = true -> (len val <=? 0) = false).
  { intros Hi. apply Z.leb_gt. specialize (Hval Hi).
    destruct val; [contradiction|]. lens. lia. }
  assert (Hpre : slice BufferRange (p ++ c :: w ++ "]" :: rest) 0 (len (p ++ c :: w))
                 = Ok (p ++ c :: w)) by (rewrite E; apply slice_prefix).
  assert (Hprev : prevChar (p ++ c :: w ++ "]" :: rest) (len (p ++ c :: w)) = Ok c)
    by now apply prevChar_last.
  destruct inPlace.
  - cbv zeta. rewrite ?Hix, ?bind_ok. byte_tests. rewrite Hv0 by reflexivity.
    do 3 (rewrite ?bind_ok, ?Hpre, ?Hprev, ?Hix; byte_tests).
    f_equal. f_equal. now norm_app.
  - do 3 (rewrite ?bind_ok, ?Hpre, ?Hprev, ?Hix; byte_tests).
    f_equal. f_equal. now norm_app.
Qed.
(* ------------------------------------------------------------------ *)
(** ** The rewriter at the last accessor *)

Lemma rewritePath_done (json : list byte) (cap : Z) (path : list byte) (i j k : Z)
  (acc val : list byte) (inPlace : bool) :
  path <> [] -> reaches json path i j ->
  iteration json path i j = Ok (Done k acc) ->
  rewritePath (Buffer json cap) path val inPlace = rewriteAt json k acc val inPlace.
Proof.
  intros Hp Hr Hit. unfold rewritePath. destruct path as [|c path]; [contradiction|].
  cbn [bytes]. rewrite (locatePath_reaches _ _ _ _ _ Hr Hit) by discriminate.
  reflexivity.
Qed.

Lemma rewritePath_reject (json : list byte) (cap : Z) (path : list byte) (i j : Z)
  (val : list byte) (inPlace : bool) :
  path <> [] -> reaches json path i j ->
  iteration json path i j = Ok Reject ->
  rewritePath (Buffer json cap) path val inPlace = Ok (return_json json).
Proof.
  intros Hp Hr Hit. unfold rewritePath. destruct path as [|c path]; [contradiction|].
  cbn [bytes]. rewrite (locatePath_reaches _ _ _ _ _ Hr Hit) by discriminate.
  reflexivity.
Qed.

Lemma app_not_nil_r (a b : list byte) : b <> [] -> a ++ b <> [].
Proof. intros H E. apply app_eq_nil in E as [_ E]. contradiction. Qed.

Lemma index_in_range (f : failure) (s : list byte) (i : Z) :
  0 <= i < len s -> exists c, index f s i = Ok c.
Proof.
  intros H. unfold index.
  replace (0 <=? i) with true by (symmetry; apply Z.leb_le; lia).
  replace (i <? len s) with true by (symmetry; apply Z.ltb_lt; lia).
  eexists. reflexivity.
Qed.

(** The last iteration when the locator finds a place for a non-empty
    accessor. *)
Lemma iteration_last_at (pre s p0 acc : list byte) (r : Z) :
  dot_free acc -> acc <> [] ->
  locateAccessor s acc = Ok r -> 0 <= r < len s ->
  iteration (pre ++ s) (p0 ++ acc) (len pre) (len p0) = Ok (Done (len pre + r) acc).
Proof.
  intros Hd Hne Hloc Hr. rewrite iteration_last by assumption.
  rewrite slice_from_app_len, bind_ok, Hloc, bind_ok.
  replace (r =? -1) with false by (symmetry; apply Z.eqb_neq; lia).
  destruct (index_in_range BufferRange (pre ++ s) r) as [c Hc]; [lens; lia|].
  rewrite Hc, bind_ok.
  replace (bytes_eqb acc []) with false
    by (symmetry; now apply bytes_eqb_neq).
  now rewrite andb_false_r.
Qed.

Lemma iteration_last_none (pre s p0 acc : list byte) :
  dot_free acc ->
  locateAccessor s acc = Ok (-1) ->
  iteration (pre ++ s) (p0 ++ acc) (len pre) (len p0) = Ok Reject.
Proof.
  intros Hd Hloc. rewrite iteration_last by assumption.
  now rewrite slice_from_app_len, bind_ok, Hloc, bind_ok.
Qed.

Lemma Atoi_not_empty (acc : list byte) (n : Z) : Atoi acc = Some n -> acc <> [].
Proof. destruct acc; [discriminate|discriminate]. Qed.

(** The end of the text of the members or elements of a non-empty
    container: a byte that is no whitespace and no opening delimiter, then
    whitespace. *)
Lemma commas_last (items : list (list byte)) :
  items <> [] ->
  Forall (fun x => exists b c w, x = b ++ c :: w /\ all_ws w /\ nonspace c = true
                     /\ Byte.eqb c "{" = false /\ Byte.eqb c "[" = false) items ->
  exists b c w, commas items = b ++ c :: w /\ all_ws w /\ nonspace c = true
    /\ Byte.eqb c "{" = false /\ Byte.eqb c "[" = false.
Proof.
  intros Hne H. induction H as [|x items Hx Hitems IH]; [contradiction|].
  destruct items as [|y items].
  - exact Hx.
  - destruct IH as (b & c & w & E & Hw & Hc); [discriminate|].
    exists (x ++ "," :: b), c, w. split; [|now split].
    change (commas (x :: y :: items)) with (x ++ "," :: commas (y :: items)).
    rewrite E. now rewrite <- app_assoc.
Qed.

Lemma value_last_ws (pre v post : list byte) :
  wf_value v -> all_ws post ->
  exists b c w, pre ++ v ++ post = b ++ c :: w /\ all_ws w /\ nonspace c = true
    /\ Byte.eqb c "{" = false /\ Byte.eqb c "[" = false.
Proof.
  intros Hv Hpost. destruct (wf_value_last v Hv) as (b & c & -> & Hc).
  exists (pre ++ b), c, post. split; [|now split].
  norm_app. reflexivity.
Qed.

Lemma elements_last (es : list element) :
  wf_elements es -> es <> [] ->
  exists b c w, render_elements es = b ++ c :: w /\ all_ws w /\ nonspace c = true
    /\ Byte.eqb c "{" = false /\ Byte.eqb c "[" = false.
Proof.
  intros H Hne. apply commas_last; [now destruct es|].
  clear Hne. induction H as [|e es Hpre Hval Hpost Hes IH]; [constructor|].
  cbn [map]. constructor; [|exact IH]. now apply value_last_ws.
Qed.

Lemma members_last (ms : list member) :
  wf_members ms -> ms <> [] ->
  exists b c w, render_members ms = b ++ c :: w /\ all_ws w /\ nonspace c = true
    /\ Byte.eqb c "{" = false /\ Byte.eqb c "[" = false.
Proof.
  intros H Hne. apply commas_last; [now destruct ms|].
  clear Hne. induction H as [|m ms Hpre Hkey Hmid Hsep Hval Hpost Hms IH]; [constructor|].
  cbn [map]. constructor; [|exact IH]. now apply value_last_ws.
Qed.

(** Appending a member to an object that the loop has reached. *)
Lemma rewritePath_append_member (pre w0 w : list byte) (ms : list member)
  (rest p0 acc val : list byte) (cap : Z) (inPlace : bool) :
  reaches (pre ++ w0 ++ render_object w ms ++ rest) (p0 ++ acc) (len pre) (len p0) ->
  dot_free acc -> acc <> [] ->
  all_ws w0 -> all_ws w -> wf_members ms ->
  member_offset acc ms = None ->
  len acc <= len (render_object w ms ++ rest) ->
  (inPlace = true -> val <> []) ->
  rewritePath (Buffer (pre ++ w0 ++ render_object w ms ++ rest) cap) (p0 ++ acc) val inPlace =
    Ok {| ret := pre ++ w0 ++ "{" :: w ++ render_members ms ++ comma_after ms
                 ++ quote :: acc ++ quote :: ":" :: val ++ "}" :: rest;
          buf := pre ++ w0 ++ render_object w ms ++ rest;
          shared := false |}.
Proof.
  intros Hr Hd Hne Hw0 Hw Hms Hoff Hguard Hval.
  assert (Hloc : locateAccessor (w0 ++ render_object w ms ++ rest) acc
                 = Ok (len (w0 ++ "{" :: w ++ render_members ms))).
  { rewrite locateAccessor_object by assumption.
    replace (_ <? len acc) with false by (symmetry; apply Z.ltb_ge; lia).
    rewrite Hoff. f_equal. lens. lia. }
  rewrite (rewritePath_done _ cap _ _ _ (len pre + len (w0 ++ "{" :: w ++ render_members ms))
             acc val inPlace (app_not_nil_r p0 acc Hne) Hr).
  2:{ apply iteration_last_at; try assumption.
      unfold render_object. lens. lia. }
  assert (Hsplit : exists b c w', pre ++ w0 ++ "{" :: w ++ render_members ms = b ++ c :: w'
            /\ all_ws w' /\ nonspace c = true
            /\ (if negb (Byte.eqb c "{") then [","] else []) = comma_after ms).
  { destruct ms as [|m ms'].
    - exists (pre ++ w0), "{", w. change (render_members []) with (@nil byte).
      rewrite app_nil_r. repeat split; try assumption. now rewrite <- app_assoc.
    - destruct (members_last (m :: ms') Hms ltac:(discriminate))
        as (b & c & w' & E & Hw' & Hc & Hc1 & _).
      exists (pre ++ w0 ++ "{" :: w ++ b), c, w'. rewrite E, Hc1.
      repeat split; try assumption. norm_app. reflexivity. }
  destruct Hsplit as (b & c & w' & E & Hw' & Hc & Hcomma).
  assert (Ejson : pre ++ w0 ++ render_object w ms ++ rest = b ++ c :: w' ++ "}" :: rest).
  { unfold render_object. transitivity ((pre ++ w0 ++ "{" :: w ++ render_members ms) ++ "}" :: rest).
    - norm_app. reflexivity.
    - rewrite E. norm_app. reflexivity. }
  assert (Elen : len pre + len (w0 ++ "{" :: w ++ render_members ms) = len (b ++ c :: w')).
  { rewrite <- E. lens. lia. }
  rewrite Ejson, Elen, rewriteAt_closing_brace by assumption.
  f_equal. rewrite Hcomma. f_equal.
  transitivity ((b ++ c :: w') ++ comma_after ms ++ quote :: acc ++ quote :: ":" :: val ++ "}" :: rest).
  - norm_app. reflexivity.
  - rewrite <- E. norm_app. reflexivity.
Qed.
(** Appending an element to an array that the loop has reached. *)
Lemma rewritePath_append_element (pre w0 w : list byte) (es : list element)
  (rest p0 acc val : list byte) (cap : Z) (inPlace : bool) :
  reaches (pre ++ w0 ++ render_array w es ++ rest) (p0 ++ acc) (len pre) (len p0) ->
  dot_free acc ->
  all_ws w0 -> all_ws w -> wf_elements es ->
  Atoi acc = Some (len es) ->
  len acc <= len (render_array w es ++ rest) ->
  (inPlace = true -> val <> []) ->
  rewritePath (Buffer (pre ++ w0 ++ render_array w es ++ rest) cap) (p0 ++ acc) val inPlace =
    Ok {| ret := pre ++ w0 ++ "[" :: w ++ render_elements es ++ comma_after es
                 ++ val ++ "]" :: rest;
          buf := pre ++ w0 ++ render_array w es ++ rest;
          shared := false |}.
Proof.
  intros Hr Hd Hw0 Hw Hes Hacc Hguard Hval.
  pose proof (Atoi_not_empty acc _ Hacc) as Hne.
  pose proof (locateAccessor_array_end w0 w es rest acc Hw0 Hw Hes Hacc Hguard) as Hloc.
  rewrite (rewritePath_done _ cap _ _ _ (len pre + len (w0 ++ "[" :: w ++ render_elements es))
             acc val inPlace (app_not_nil_r p0 acc Hne) Hr).
  2:{ apply iteration_last_at; try assumption.
      unfold render_array. lens. lia. }
  assert (Hsplit : exists b c w', pre ++ w0 ++ "[" :: w ++ render_elements es = b ++ c :: w'
            /\ all_ws w' /\ nonspace c = true
            /\ (if negb (Byte.eqb c "[") then [","] else []) = comma_after es).
  { destruct es as [|e es'].
    - exists (pre ++ w0), "[", w. change (render_elements []) with (@nil byte).
      rewrite app_nil_r. repeat split; try assumption. now rewrite <- app_assoc.
    - destruct (elements_last (e :: es') Hes ltac:(discriminate))
        as (b & c & w' & E & Hw' & Hc & _ & Hc1).
      exists (pre ++ w0 ++ "[" :: w ++ b), c, w'. rewrite E, Hc1.
      repeat split; try assumption. norm_app. reflexivity. }
  destruct Hsplit as (b & c & w' & E & Hw' & Hc & Hcomma).
  assert (Ejson : pre ++ w0 ++ render_array w es ++ rest = b ++ c :: w' ++ "]" :: rest).
  { unfold render_array. transitivity ((pre ++ w0 ++ "[" :: w ++ render_elements es) ++ "]" :: rest).
    - norm_app. reflexivity.
    - rewrite E. norm_app. reflexivity. }
  assert (Elen : len pre + len (w0 ++ "[" :: w ++ render_elements es) = len (b ++ c :: w')).
  { rewrite <- E. lens. lia. }
  rewrite Ejson, Elen, rewriteAt_closing_bracket by assumption.
  f_equal. rewrite Hcomma. f_equal.
  transitivity ((b ++ c :: w') ++ comma_after es ++ val ++ "]" :: rest).
  - norm_app. reflexivity.
  - rewrite <- E. norm_app. reflexivity.
Qed.

Lemma wf_elements_app (es1 es2 : list element) :
  wf_elements (es1 ++ es2) <-> wf_elements es1 /\ wf_elements es2.
Proof.
  induction es1 as [|e es1 IH]; cbn [app].
  - split; [intros H; split; [constructor|assumption] | now intros [_ H]].
  - split.
    + intros H. inversion H; subst. apply IH in H5 as [H5 H6].
      split; [now constructor|assumption].
    + intros [H1 H2]. inversion H1; subst. constructor; try assumption.
      apply IH. now split.
Qed.

Lemma wf_members_app (ms1 ms2 : list member) :
  wf_members (ms1 ++ ms2) <-> wf_members ms1 /\ wf_members ms2.
Proof.
  induction ms1 as [|m ms1 IH]; cbn [app].
  - split; [intros H; split; [constructor|assumption] | now intros [_ H]].
  - split.
    + intros H. inversion H; subst. apply IH in H8 as [H8 H9].
      split; [now constructor|assumption].
    + intros [H1 H2]. inversion H1; subst. constructor; try assumption.
      apply IH. now split.
Qed.

Lemma follow_ok_after (post more : list byte) (closing : byte) (rest : list byte) :
  all_ws post -> closing = "}" \/ closing = "]" ->
  (more = [] \/ exists tl, more = "," :: tl) ->
  follow_ok (post ++ more ++ closing :: rest).
Proof.
  intros Hpost Hc Hmore.
  destruct Hmore as [->|[tl ->]]; cbn [app].
  - apply follow_ok_ws; [assumption|]. now destruct Hc as [->| ->].
  - now apply follow_ok_ws.
Qed.

Lemma items_after_shape (l : list (list byte)) :
  items_after l = [] \/ exists tl, items_after l = "," :: tl.
Proof.
  destruct l as [|x l]; [now left|right].
  unfold items_after. cbn [map concat app]. eexists. reflexivity.
Qed.

(** Replacing an element of an array that the loop has reached. *)
Lemma rewritePath_at_element (pre w0 w : list byte) (es1 : list element) (e : element)
  (es2 : list element) (rest p0 acc val : list byte) (cap : Z) (inPlace : bool) :
  reaches (pre ++ w0 ++ render_array w (es1 ++ e :: es2) ++ rest) (p0 ++ acc)
    (len pre) (len p0) ->
  dot_free acc ->
  all_ws w0 -> all_ws w -> wf_elements (es1 ++ e :: es2) ->
  Atoi acc = Some (len es1) ->
  len acc <= len (render_array w (es1 ++ e :: es2) ++ rest) ->
  pre ++ w0 ++ render_array w (es1 ++ e :: es2) ++ rest
  = (pre ++ w0 ++ "[" :: w ++ elements_before es1 ++ e_pre e)
      ++ e_val e ++ (e_post e ++ elements_after es2 ++ "]" :: rest)
  /\ wf_value (e_val e)
  /\ follow_ok (e_post e ++ elements_after es2 ++ "]" :: rest)
  /\ rewritePath (Buffer (pre ++ w0 ++ render_array w (es1 ++ e :: es2) ++ rest) cap)
       (p0 ++ acc) val inPlace
     = rewriteAt (pre ++ w0 ++ render_array w (es1 ++ e :: es2) ++ rest)
         (len (pre ++ w0 ++ "[" :: w ++ elements_before es1 ++ e_pre e)) acc val inPlace.
Proof.
  intros Hr Hd Hw0 Hw Hes Hacc Hguard.
  pose proof (Atoi_not_empty acc _ Hacc) as Hne.
  pose proof (locateAccessor_element w0 w es1 e es2 rest acc Hw0 Hw Hes Hacc Hguard) as Hloc.
  apply wf_elements_app in Hes as [_ He]. inversion He as [|? ? Hpre Hval Hpost _]; subst.
  assert (E : pre ++ w0 ++ render_array w (es1 ++ e :: es2) ++ rest
              = (pre ++ w0 ++ "[" :: w ++ elements_before es1 ++ e_pre e)
                  ++ e_val e ++ (e_post e ++ elements_after es2 ++ "]" :: rest)).
  { unfold render_array. rewrite render_elements_split. norm_app. reflexivity. }
  split; [exact E|]. split; [exact Hval|]. split.
  { apply follow_ok_after; [assumption | now right | apply items_after_shape]. }
  rewrite (rewritePath_done _ cap _ _ _
             (len pre + len (w0 ++ "[" :: w ++ elements_before es1 ++ e_pre e))
             acc val inPlace (app_not_nil_r p0 acc Hne) Hr).
  - f_equal. lens. lia.
  - apply iteration_last_at; try assumption.
    unfold render_array. rewrite render_elements_split. lens.
    destruct (wf_value_head _ Hval) as (c & tl & Ev & _). rewrite Ev. lens. lia.
Qed.

(** An index beyond the length of an array that the loop has reached. *)
Lemma rewritePath_beyond (pre w0 w : list byte) (es : list element)
  (rest p0 acc val : list byte) (cap n : Z) (inPlace : bool) :
  reaches (pre ++ w0 ++ render_array w es ++ rest) (p0 ++ acc) (len pre) (len p0) ->
  dot_free acc ->
  all_ws w0 -> all_ws w -> wf_elements es ->
  Atoi acc = Some n -> len es < n ->
  rewritePath (Buffer (pre ++ w0 ++ render_array w es ++ rest) cap) (p0 ++ acc) val inPlace =
    Ok (return_json (pre ++ w0 ++ render_array w es ++ rest)).
Proof.
  intros Hr Hd Hw0 Hw Hes Hacc Hn.
  pose proof (Atoi_not_empty acc _ Hacc) as Hne.
  apply (rewritePath_reject _ cap _ _ _ val inPlace (app_not_nil_r p0 acc Hne) Hr).
  apply iteration_last_none; [assumption|].
  now apply (locateAccessor_array_beyond w0 w es rest acc n).
Qed.
(* ------------------------------------------------------------------ *)
(** ** Keys *)

(** Well-formedness of the pieces of a concrete text. *)
Ltac ws_tac := solve [repeat constructor].

Ltac str_tac :=
  vm_compute;
  repeat first [ apply str_nil
               | apply str_plain; [reflexivity | reflexivity | ]
               | apply str_escape ].

Ltac num_tac := apply wf_number; split; [reflexivity | repeat constructor].

Lemma member_offset_first (acc : list byte) (ms1 : list member) (m : member)
  (ms2 : list member) :
  Forall (fun x => m_key x <> acc) ms1 -> m_key m = acc ->
  member_offset acc (ms1 ++ m :: ms2) = Some (len (members_before ms1 ++ member_head m)).
Proof.
  intros H Hm. induction H as [|x ms1 Hx _ IH]; cbn [app member_offset].
  - subst acc. rewrite bytes_eqb_refl. reflexivity.
  - replace (bytes_eqb (m_key x) acc) with false
      by (symmetry; now apply bytes_eqb_neq).
    rewrite IH. f_equal. unfold members_before, items_before. cbn [map concat].
    lens. lia.
Qed.

Lemma member_offset_none (acc : list byte) (ms : list member) :
  Forall (fun x => m_key x <> acc) ms -> member_offset acc ms = None.
Proof.
  induction 1 as [|x ms Hx _ IH]; cbn [member_offset]; [reflexivity|].
  replace (bytes_eqb (m_key x) acc) with false
    by (symmetry; now apply bytes_eqb_neq).
  now rewrite IH.
Qed.

Lemma wf_members_keys (ms : list member) :
  wf_members ms -> Forall (fun m => str_body (m_key m)) ms.
Proof. induction 1; constructor; assumption. Qed.

(** C9: the locator takes the bytes strictly between the quotes of a key as
    they are, escape sequences included, and a member is the one addressed
    exactly when these bytes are the bytes of the accessor: the locator
    answers with the value of the first member whose raw key equals the
    accessor, and with no member (the closing brace, or not-found when the
    accessor is longer than the text) when no raw key does. *)
Theorem C9_key_lookup_compares_raw_bytes (w0 w : list byte) (ms : list member)
  (rest acc : list byte) :
  all_ws w0 -> all_ws w -> wf_members ms ->
  (forall m s, In m ms ->
     parseString (quote :: m_key m ++ quote :: s) = Ok (m_key m, s))
  /\ (forall ms1 m ms2,
        ms = ms1 ++ m :: ms2 ->
        Forall (fun x => m_key x <> acc) ms1 -> m_key m = acc ->
        locateAccessor (w0 ++ render_object w ms ++ rest) acc =
          Ok (len (w0 ++ "{" :: w ++ members_before ms1 ++ member_head m)))
  /\ (Forall (fun x => m_key x <> acc) ms ->
      locateAccessor (w0 ++ render_object w ms ++ rest) acc =
        if len (render_object w ms ++ rest) <? len acc then Ok (-1)
        else Ok (len (w0 ++ "{" :: w ++ render_members ms))).
Proof.
  intros Hw0 Hw Hms. split; [|split].
  - intros m s Hin. apply parseString_string.
    pose proof (wf_members_keys ms Hms) as Hk. rewrite Forall_forall in Hk. now apply Hk.
  - intros ms1 m ms2 -> Hne Hm. rewrite locateAccessor_object by assumption.
    rewrite (member_offset_first acc ms1 m ms2 Hne Hm).
    replace (_ <? len acc) with false.
    + f_equal. lens. lia.
    + symmetry. apply Z.ltb_ge. unfold render_object. rewrite render_members_split.
      unfold member_head. subst acc. lens. lia.
  - intros Hne. rewrite locateAccessor_object by assumption.
    rewrite (member_offset_none acc ms Hne).
    destruct (_ <? len acc); [reflexivity|]. f_equal. lens. lia.
Qed.

(** The key [a\"b] is found by the accessor [a\"b], backslash included. *)
Lemma C9_witness :
  locateAccessor (js "{'a\'b':1}") (js "a\'b") = Ok 8.
Proof.
  pose proof (C9_key_lookup_compares_raw_bytes [] []
                [Member [] (js "a\'b") [] [] (js "1") []] [] (js "a\'b")
                (Forall_nil _) (Forall_nil _)) as H.
  destruct H as (_ & H & _).
  - apply wf_members_cons; cbn [m_pre m_key m_mid m_sep m_val m_post];
      [ws_tac | str_tac | ws_tac | ws_tac | num_tac | ws_tac | constructor].
  - exact (H [] (Member [] (js "a\'b") [] [] (js "1") []) [] eq_refl (Forall_nil _) eq_refl).
Defined.

(* ------------------------------------------------------------------ *)
(** ** Appending *)

(** C10: when the last accessor is no key of the object it addresses, [Set]
    and [SetInPlace] (for an encoded value that is not empty) put
    [,"acc":val] before the closing brace, the comma only if the object has a
    member, with the bytes of the accessor copied as they are, whatever they
    are. *)
Theorem C10_appended_member_is_verbatim (pre w0 w : list byte) (ms : list member)
  (rest p0 acc val : list byte) (cap : Z) :
  reaches (pre ++ w0 ++ render_object w ms ++ rest) (p0 ++ acc) (len pre) (len p0) ->
  dot_free acc -> acc <> [] ->
  all_ws w0 -> all_ws w -> wf_members ms ->
  member_offset acc ms = None ->
  len acc <= len (render_object w ms ++ rest) ->
  let json := pre ++ w0 ++ render_object w ms ++ rest in
  let out :=
    {| ret := pre ++ w0 ++ "{" :: w ++ render_members ms ++ comma_after ms
              ++ quote :: acc ++ quote :: ":" :: val ++ "}" :: rest;
       buf := json;
       shared := false |} in
  Set_ (Buffer json cap) (p0 ++ acc) val = Ok out
  /\ (val <> [] -> SetInPlace (Buffer json cap) (p0 ++ acc) val = Ok out).
Proof.
  intros Hr Hd Hne Hw0 Hw Hms Hoff Hguard json out. split.
  - apply rewritePath_append_member; try assumption. discriminate.
  - intros Hval. apply rewritePath_append_member; try assumption. now intros _.
Qed.

(** An accessor with a double quote and a backslash in it. *)
Lemma C10_witness :
  returned (Set_ (doc "{'a':1}") (js "b'c\") (js "2")) = Ok (js "{'a':1,'b'c\':2}").
Proof.
  pose proof (C10_appended_member_is_verbatim [] [] []
                [Member [] (js "a") [] [] (js "1") []] [] [] (js "b'c\") (js "2") 7
                (reaches_start _ _)) as H.
  destruct H as [H _].
  - repeat constructor.
  - discriminate.
  - constructor.
  - constructor.
  - apply wf_members_cons; cbn [m_pre m_key m_mid m_sep m_val m_post];
      [ws_tac | str_tac | ws_tac | ws_tac | num_tac | ws_tac | constructor].
  - reflexivity.
  - vm_compute. discriminate.
  - unfold returned. change (doc "{'a':1}") with (Buffer (js "{'a':1}") 7).
    change (js "{'a':1}")
      with ([] ++ [] ++ render_object [] [Member [] (js "a") [] [] (js "1") []] ++ []).
    change (js "b'c\") with ([] ++ js "b'c\") at 1.
    rewrite H. reflexivity.
Defined.
Lemma digit_not_dot (c : byte) : is_digit c = true -> Byte.eqb c "." = false.
Proof. destruct c; vm_compute; intros; try discriminate; reflexivity. Qed.

Lemma digits_val_dot_free (s : list byte) :
  forall a v, digits_val a s = Some v -> dot_free s.
Proof.
  induction s as [|c s IH]; intros a v H; [constructor|].
  cbn [digits_val] in H. destruct (is_digit c) eqn:E; [|discriminate].
  constructor; [now apply digit_not_dot | eapply IH; eassumption].
Qed.

Lemma Atoi_dot_free (acc : list byte) (n : Z) : Atoi acc = Some n -> dot_free acc.
Proof.
  destruct acc as [|c tl]; [discriminate|]. unfold Atoi.
  destruct (Byte.eqb c "-") eqn:E1; [|destruct (Byte.eqb c "+") eqn:E2].
  - apply eqb_eq in E1. subst c. destruct tl as [|d tl]; [discriminate|].
    destruct (digits_val 0 (d :: tl)) eqn:E; [|discriminate]. intros _.
    constructor; [reflexivity | eapply digits_val_dot_free; eassumption].
  - apply eqb_eq in E2. subst c. destruct tl as [|d tl]; [discriminate|].
    destruct (digits_val 0 (d :: tl)) eqn:E; [|discriminate]. intros _.
    constructor; [reflexivity | eapply digits_val_dot_free; eassumption].
  - destruct (digits_val 0 (c :: tl)) eqn:E; [|discriminate]. intros _.
    eapply digits_val_dot_free; eassumption.
Qed.

(** C1 (amended): an empty object or array that the accessor loop has
    reached takes its first member through the last accessor, provided the
    accessor is not longer than the text from the opening delimiter on: the
    locator answers with the offset of the closing delimiter, and [Set] puts
    the new member or element before it, with no comma.  When the accessor is
    longer than that text the locator answers not-found. *)
Theorem C1_first_member_of_empty_container (pre w0 w rest p0 acc val : list byte)
  (cap : Z) :
  dot_free acc -> all_ws w0 -> all_ws w ->
  (reaches (pre ++ w0 ++ "{" :: w ++ "}" :: rest) (p0 ++ acc) (len pre) (len p0) ->
   acc <> [] -> len acc <= len ("{" :: w ++ "}" :: rest) ->
   locateAccessor (w0 ++ "{" :: w ++ "}" :: rest) acc = Ok (len (w0 ++ "{" :: w))
   /\ Set_ (Buffer (pre ++ w0 ++ "{" :: w ++ "}" :: rest) cap) (p0 ++ acc) val =
        Ok {| ret := pre ++ w0 ++ "{" :: w
                     ++ quote :: acc ++ quote :: ":" :: val ++ "}" :: rest;
              buf := pre ++ w0 ++ "{" :: w ++ "}" :: rest;
              shared := false |})
  /\ (reaches (pre ++ w0 ++ "[" :: w ++ "]" :: rest) (p0 ++ acc) (len pre) (len p0) ->
      Atoi acc = Some 0 -> len acc <= len ("[" :: w ++ "]" :: rest) ->
      locateAccessor (w0 ++ "[" :: w ++ "]" :: rest) acc = Ok (len (w0 ++ "[" :: w))
      /\ Set_ (Buffer (pre ++ w0 ++ "[" :: w ++ "]" :: rest) cap) (p0 ++ acc) val =
           Ok {| ret := pre ++ w0 ++ "[" :: w ++ val ++ "]" :: rest;
                 buf := pre ++ w0 ++ "[" :: w ++ "]" :: rest;
                 shared := false |})
  /\ (len ("{" :: w ++ "}" :: rest) < len acc ->
      locateAccessor (w0 ++ "{" :: w ++ "}" :: rest) acc = Ok (-1))
  /\ (len ("[" :: w ++ "]" :: rest) < len acc ->
      locateAccessor (w0 ++ "[" :: w ++ "]" :: rest) acc = Ok (-1)).
Proof.
  intros Hd Hw0 Hw.
  assert (Eo : forall s, "{" :: w ++ "}" :: s = render_object w [] ++ s)
    by (intros s; unfold render_object; cbn [render_members map commas app];
        now rewrite <- app_assoc).
  assert (Ea : forall s, "[" :: w ++ "]" :: s = render_array w [] ++ s)
    by (intros s; unfold render_array; cbn [render_elements map commas app];
        now rewrite <- app_assoc).
  split; [|split; [|split]].
  - intros Hr Hne Hguard. rewrite Eo in *. split.
    + rewrite locateAccessor_object by (assumption || constructor).
      replace (_ <? len acc) with false by (symmetry; apply Z.ltb_ge; lia).
      cbn [member_offset]. f_equal. change (render_members []) with (@nil byte).
      lens. lia.
    + unfold Set_.
      rewrite (rewritePath_append_member pre w0 w [] rest p0 acc val cap false)
        by (assumption || constructor || discriminate).
      reflexivity.
  - intros Hr Hacc Hguard. rewrite Ea in *. split.
    + rewrite (locateAccessor_array_end w0 w [] rest acc)
        by (assumption || constructor).
      f_equal. change (render_elements []) with (@nil byte). now rewrite app_nil_r.
    + unfold Set_.
      rewrite (rewritePath_append_element pre w0 w [] rest p0 acc val cap false)
        by (assumption || constructor || discriminate).
      reflexivity.
  - intros Hguard. rewrite Eo. rewrite locateAccessor_object by (assumption || constructor).
    rewrite <- Eo. now replace (_ <? len acc) with true by (symmetry; apply Z.ltb_lt; lia).
  - intros Hguard. unfold locateAccessor.
    rewrite consumeWhitespace_skip by (assumption || reflexivity).
    replace (len ("[" :: w ++ "]" :: rest) <? len acc) with true
      by (symmetry; apply Z.ltb_lt; lia).
    now rewrite orb_true_r.
Qed.

(** [Set(`[]`, "0", "bar")] and [Set(`{"foo": {}}`, "foo.bar", 3)]. *)
Lemma C1_witness :
  returned (Set_ (doc "[]") (js "0") (js "'bar'")) = Ok (js "['bar']")
  /\ returned (Set_ (doc "{'foo': {}}") (js "foo.bar") (js "3"))
     = Ok (js "{'foo': {'bar':3}}").
Proof.
  split.
  - pose proof (C1_first_member_of_empty_container [] [] [] [] [] (js "0")
                  (js "'bar'") 2 ltac:(repeat constructor) (Forall_nil _) (Forall_nil _))
      as (_ & H & _).
    destruct (H (reaches_start _ _) eq_refl ltac:(vm_compute; discriminate)) as [_ H1].
    unfold returned. change (doc "[]") with (Buffer (js "[]") 2).
    change (js "[]") with ([] ++ [] ++ "[" :: [] ++ "]" :: []).
    change (js "0") with ([] ++ js "0") at 1.
    rewrite H1. reflexivity.
  - pose proof (C1_first_member_of_empty_container (js "{'foo': ") [] [] (js "}")
                  (js "foo.") (js "bar") (js "3") 11 ltac:(repeat constructor)
                  (Forall_nil _) (Forall_nil _)) as (H & _).
    destruct H as [_ H1].
    + eapply reaches_next; [apply reaches_start | vm_compute; reflexivity].
    + discriminate.
    + vm_compute. discriminate.
    + unfold returned. change (doc "{'foo': {}}") with (Buffer (js "{'foo': {}}") 11).
      change (js "{'foo': {}}") with (js "{'foo': " ++ [] ++ "{" :: [] ++ "}" :: js "}").
      change (js "foo.bar") with (js "foo." ++ js "bar").
      rewrite H1. reflexivity.
Defined.

(** [Set(`{}`, "foo", 3)] returns [{}]: the document has two bytes and the
    accessor three, and the locator answers not-found. *)
Lemma C1_counterexample :
  locateAccessor (js "{}") (js "foo") = Ok (-1)
  /\ returned (Set_ (doc "{}") (js "foo") (js "3")) = Ok (js "{}")
  /\ returned (Set_ (doc "{}") (js "foo") (js "3")) <> Ok (js "{'foo':3}").
Proof. repeat split; vm_compute; discriminate || reflexivity. Qed.
(* ------------------------------------------------------------------ *)
(** ** Array indices *)

(** C6 (amended): for an array of [L] elements that the accessor loop has
    reached and a last accessor that [Atoi] reads as [n >= 0] and that is not
    longer than the text from the opening bracket on: if [n < L] and the
    [n]th element is not the literal [null], [Set] replaces the bytes of
    that element by the replacement; if [n = L], [Set] puts the replacement
    before the closing bracket, after a comma iff the array has an element.
    If [n > L], [Set] returns the document as it is. *)
Theorem C6_array_index (pre w0 w : list byte) (es : list element)
  (rest p0 acc val : list byte) (cap n : Z) :
  let json := pre ++ w0 ++ render_array w es ++ rest in
  reaches json (p0 ++ acc) (len pre) (len p0) ->
  all_ws w0 -> all_ws w -> wf_elements es ->
  Atoi acc = Some n -> 0 <= n ->
  (forall es1 e es2,
     es = es1 ++ e :: es2 -> len es1 = n ->
     len acc <= len (render_array w es ++ rest) -> e_val e <> null ->
     Set_ (Buffer json cap) (p0 ++ acc) val =
       Ok {| ret := pre ++ w0 ++ "[" :: w ++ elements_before es1 ++ e_pre e
                    ++ val ++ e_post e ++ elements_after es2 ++ "]" :: rest;
             buf := json;
             shared := false |})
  /\ (n = len es -> len acc <= len (render_array w es ++ rest) ->
      Set_ (Buffer json cap) (p0 ++ acc) val =
        Ok {| ret := pre ++ w0 ++ "[" :: w ++ render_elements es ++ comma_after es
                     ++ val ++ "]" :: rest;
              buf := json;
              shared := false |})
  /\ (len es < n -> Set_ (Buffer json cap) (p0 ++ acc) val = Ok (return_json json)).
Proof.
  intros json Hr Hw0 Hw Hes Hacc Hn. subst json.
  pose proof (Atoi_dot_free acc n Hacc) as Hd.
  split; [|split].
  - intros es1 e es2 -> Hlen Hguard Hnull. subst n. unfold Set_.
    destruct (rewritePath_at_element pre w0 w es1 e es2 rest p0 acc val cap false
                Hr Hd Hw0 Hw Hes Hacc Hguard) as (E & Hv & Hf & ->).
    rewrite E, rewriteAt_value by assumption.
    f_equal. f_equal. norm_app. reflexivity.
  - intros -> Hguard. unfold Set_.
    now apply rewritePath_append_element.
  - intros Hlt. unfold Set_. now apply (rewritePath_beyond pre w0 w es rest p0 acc val cap n).
Qed.

(** [Set(`{"friends":["Andy","Carol"]}`, "friends.2", "Sara")] appends and
    ["friends.3"] changes nothing. *)
Lemma C6_witness :
  returned (Set_ (doc "{'friends':['Andy','Carol']}") (js "friends.2") (js "'Sara'"))
  = Ok (js "{'friends':['Andy','Carol','Sara']}")
  /\ returned (Set_ (doc "{'friends':['Andy','Carol']}") (js "friends.3") (js "'Sara'"))
     = Ok (js "{'friends':['Andy','Carol']}")
  /\ returned (Set_ (doc "{'friends':['Andy','Carol']}") (js "friends.1") (js "'Sara'"))
     = Ok (js "{'friends':['Andy','Sara']}").
Proof.
  assert (Hes : wf_elements [Element [] (js "'Andy'") []; Element [] (js "'Carol'") []]).
  { repeat (apply wf_elements_cons; cbn [e_pre e_val e_post];
            [ws_tac | apply (wf_string (js "Andy")) || apply (wf_string (js "Carol")); str_tac
             | ws_tac | ]).
    constructor. }
  assert (Hr : forall acc,
             reaches (js "{'friends':" ++ [] ++ render_array []
                        [Element [] (js "'Andy'") []; Element [] (js "'Carol'") []]
                        ++ js "}")
               (js "friends." ++ acc) (len (js "{'friends':")) (len (js "friends."))).
  { intros acc. eapply reaches_next; [apply reaches_start|].
    change (js "friends." ++ acc) with ([] ++ js "friends" ++ "." :: acc).
    rewrite iteration_inner by repeat constructor. reflexivity. }
  split; [|split].
  - pose proof (C6_array_index (js "{'friends':") [] []
                  [Element [] (js "'Andy'") []; Element [] (js "'Carol'") []]
                  (js "}") (js "friends.") (js "2") (js "'Sara'") 28 2
                  (Hr _) (Forall_nil _) (Forall_nil _) Hes eq_refl ltac:(lia))
      as (_ & H & _).
    unfold returned.
    change (doc "{'friends':['Andy','Carol']}")
      with (Buffer (js "{'friends':" ++ [] ++ render_array []
                      [Element [] (js "'Andy'") []; Element [] (js "'Carol'") []]
                      ++ js "}") 28).
    change (js "friends.2") with (js "friends." ++ js "2").
    rewrite H; [reflexivity | reflexivity | vm_compute; discriminate].
  - pose proof (C6_array_index (js "{'friends':") [] []
                  [Element [] (js "'Andy'") []; Element [] (js "'Carol'") []]
                  (js "}") (js "friends.") (js "3") (js "'Sara'") 28 3
                  (Hr _) (Forall_nil _) (Forall_nil _) Hes eq_refl ltac:(lia))
      as (_ & _ & H).
    unfold returned.
    change (doc "{'friends':['Andy','Carol']}")
      with (Buffer (js "{'friends':" ++ [] ++ render_array []
                      [Element [] (js "'Andy'") []; Element [] (js "'Carol'") []]
                      ++ js "}") 28).
    change (js "friends.3") with (js "friends." ++ js "3").
    rewrite H; [reflexivity | reflexivity].
  - pose proof (C6_array_index (js "{'friends':") [] []
                  [Element [] (js "'Andy'") []; Element [] (js "'Carol'") []]
                  (js "}") (js "friends.") (js "1") (js "'Sara'") 28 1
                  (Hr _) (Forall_nil _) (Forall_nil _) Hes eq_refl ltac:(lia))
      as (H & _).
    unfold returned.
    change (doc "{'friends':['Andy','Carol']}")
      with (Buffer (js "{'friends':" ++ [] ++ render_array []
                      [Element [] (js "'Andy'") []; Element [] (js "'Carol'") []]
                      ++ js "}") 28).
    change (js "friends.1") with (js "friends." ++ js "1").
    rewrite (H [Element [] (js "'Andy'") []] (Element [] (js "'Carol'") []) []);
      [reflexivity | reflexivity | reflexivity | vm_compute; discriminate
       | vm_compute; discriminate].
Defined.

(** The accessor ["0000"] is the index [0] of [[7]], which has an element,
    but the document has three bytes and the accessor four: [Set] returns
    the document as it is. *)
Lemma C6_counterexample :
  Atoi (js "0000") = Some 0
  /\ returned (Set_ (doc "[7]") (js "0000") (js "5")) = Ok (js "[7]")
  /\ returned (Set_ (doc "[7]") (js "0000") (js "5")) <> Ok (js "[5]").
Proof. repeat split; vm_compute; discriminate || reflexivity. Qed.

(* ------------------------------------------------------------------ *)
(** ** In place *)




(* ------------------------------------------------------------------ *)
(** ** What the code does against its comments *)

(** C8: [Set(`{"foo":null}`, "foo.0", v)] gives [{"foo":[v]}], and the
    accessor ["1"] leaves [null] alone; but the accessor ["00"], which
    [Atoi] reads as [0] and which is not the string ["0"], is not left alone:
    the replacement goes between the bytes of [null]. *)
Theorem C8_null_with_accessor_00 :
  returned (Set_ (doc "{'foo':null}") (js "foo.0") (js "7")) = Ok (js "{'foo':[7]}")
  /\ returned (Set_ (doc "null") (js "1") (js "7")) = Ok (js "null")
  /\ locateAccessor (js "null") (js "00") = Ok 3
  /\ returned (Set_ (doc "null") (js "00") (js "7")) = Ok (js "nul7l")
  /\ returned (Set_ (doc "{'foo':null}") (js "foo.+0") (js "7")) = Ok (js "{'foo':nul7l}").
Proof. repeat split; vm_compute; reflexivity. Qed.

(** C3: for paths that end in an existing key of a well-formed document,
    [Set] fails when the key is empty and the path ends in a dot, leaves the
    document as it is when the byte of the document at the offset of an
    inner accessor relative to its container is a closing delimiter, and
    wraps the replacement in brackets when the old value is [null]. *)
Theorem C3_existing_key_failures :
  Set_ (doc "{'a':{'':1}}") (js "a.") (js "5") = Fail PathRange
  /\ returned (Set_ (doc "[[],[ {'k':1}]]") (js "1.0.k") (js "2"))
     = Ok (js "[[],[ {'k':1}]]")
  /\ returned (Set_ (doc "{'a':null}") (js "a") (js "5")) = Ok (js "{'a':[5]}")
  /\ returned (SetInPlace (doc "{'a':null}") (js "a") (js "5")) = Ok (js "{'a':5   }").
Proof. repeat split; vm_compute; reflexivity. Qed.
(* ------------------------------------------------------------------ *)
(** ** An array under a key *)

Lemma items_before_commas (l : list (list byte)) :
  items_before l = commas l ++ comma_after l.
Proof.
  induction l as [|x l IH]; [reflexivity|].
  unfold items_before in *. cbn [map concat]. rewrite IH.
  destruct l as [|y l]; cbn [commas comma_after]; norm_app; reflexivity.
Qed.

Lemma commas_snoc (l : list (list byte)) (x : list byte) :
  commas (l ++ [x]) = commas l ++ comma_after l ++ x.
Proof.
  rewrite commas_split. change (items_after []) with (@nil byte).
  rewrite !app_nil_r, items_before_commas. now rewrite <- app_assoc.
Qed.

Lemma render_elements_snoc (es : list element) (v : list byte) :
  render_elements (es ++ [Element [] v []])
  = render_elements es ++ comma_after es ++ v.
Proof.
  unfold render_elements. rewrite map_app. cbn [map]. rewrite commas_snoc.
  unfold render_element. cbn [e_pre e_val e_post app]. rewrite app_nil_r.
  now destruct es.
Qed.

Lemma elements_before_render (es : list element) :
  elements_before es = render_elements es ++ comma_after es.
Proof.
  unfold elements_before, render_elements. rewrite items_before_commas.
  now destruct es.
Qed.

(** The text of an object around the value of one of its members. *)
Lemma object_around_member (w0 w : list byte) (ms1 : list member) (m : member)
  (ms2 : list member) (rest : list byte) :
  w0 ++ render_object w (ms1 ++ m :: ms2) ++ rest
  = (w0 ++ "{" :: w ++ members_before ms1 ++ member_head m)
      ++ m_val m ++ (m_post m ++ members_after ms2 ++ "}" :: rest).
Proof. unfold render_object. rewrite render_members_split. norm_app. reflexivity. Qed.

(** The first iteration on a document that is an object, for a key it has:
    the loop goes on at the value of the first member with that key. *)
Lemma reaches_member (w0 w : list byte) (ms1 : list member) (m : member)
  (ms2 : list member) (rest more : list byte) :
  all_ws w0 -> all_ws w -> wf_members (ms1 ++ m :: ms2) ->
  Forall (fun x => m_key x <> m_key m) ms1 -> dot_free (m_key m) ->
  reaches (w0 ++ render_object w (ms1 ++ m :: ms2) ++ rest)
    (m_key m ++ "." :: more)
    (len (w0 ++ "{" :: w ++ members_before ms1 ++ member_head m))
    (len (m_key m ++ ["."])).
Proof.
  intros Hw0 Hw Hms Hne Hd.
  eapply reaches_next; [apply reaches_start|].
  change (m_key m ++ "." :: more) with ([] ++ m_key m ++ "." :: more).
  change 0 with (len (@nil byte)) at 2.
  rewrite iteration_inner by assumption.
  rewrite slice_from_zero, bind_ok.
  rewrite locateAccessor_object by assumption.
  rewrite (member_offset_first (m_key m) ms1 m ms2 Hne eq_refl).
  replace (_ <? len (m_key m)) with false.
  2:{ symmetry. apply Z.ltb_ge. unfold render_object. rewrite render_members_split.
      unfold member_head. lens. lia. }
  rewrite bind_ok.
  replace (len w0 + 1 + len w + len (members_before ms1 ++ member_head m))
    with (len (w0 ++ "{" :: w ++ members_before ms1 ++ member_head m)) by (lens; lia).
  replace (_ =? -1) with false by (symmetry; apply Z.eqb_neq; lens; lia).
  apply wf_members_app in Hms as [_ Hm]. inversion Hm as [|? ? _ _ _ _ Hv _ _]; subst.
  destruct (wf_value_head _ Hv) as (c & tl & Ev & _ & Hc1 & Hc2 & Hc3 & _).
  rewrite object_around_member, Ev. cbn [app].
  rewrite index_app_len, bind_ok. unfold closer. rewrite Hc1, Hc2, Hc3. cbn [orb].
  f_equal. f_equal; lens; lia.
Qed.

(** C7 (amended): after [Set(d, "key.n", v1)] has appended [v1], a value
    that is not [null], to the array of [n] elements under [key], the same
    call with the same index [n] and [v2] is not rejected: [n] is now an
    index of the array, and the call replaces the element just appended, so
    that the result is [d] with [v2] appended. *)
Theorem C7_same_index_replaces_the_appended_element
  (w0 w : list byte) (ms1 : list member) (mpre key mmid msep wa : list byte)
  (es : list element) (mpost : list byte) (ms2 : list member)
  (rest acc v1 v2 : list byte) (cap cap' : Z) :
  let d := fun es' =>
    w0 ++ render_object w
            (ms1 ++ Member mpre key mmid msep (render_array wa es') mpost :: ms2)
       ++ rest in
  all_ws w0 -> all_ws w ->
  wf_members (ms1 ++ Member mpre key mmid msep (render_array wa es) mpost :: ms2) ->
  all_ws wa -> wf_elements es ->
  Forall (fun x => m_key x <> key) ms1 -> dot_free key ->
  Atoi acc = Some (len es) ->
  len acc <= len (render_array wa es ++ mpost ++ members_after ms2 ++ "}" :: rest) ->
  wf_value v1 -> v1 <> null ->
  Set_ (Buffer (d es) cap) (key ++ "." :: acc) v1
  = Ok {| ret := d (es ++ [Element [] v1 []]); buf := d es; shared := false |}
  /\ Set_ (Buffer (d (es ++ [Element [] v1 []])) cap') (key ++ "." :: acc) v2
     = Ok {| ret := d (es ++ [Element [] v2 []]);
             buf := d (es ++ [Element [] v1 []]);
             shared := false |}
  /\ Set_ (Buffer (d es) cap) (key ++ "." :: acc) v2
     = Ok {| ret := d (es ++ [Element [] v2 []]); buf := d es; shared := false |}.
Proof.
  intros d Hw0 Hw Hms Hwa Hes Hne Hd Hacc Hguard Hv1 Hnull.
  pose proof (Atoi_dot_free acc _ Hacc) as Hdacc.
  assert (Hms' : forall es', wf_elements es' ->
            wf_members (ms1 ++ Member mpre key mmid msep (render_array wa es') mpost :: ms2)).
  { intros es' Hes'. apply wf_members_app in Hms as [H1 H2].
    inversion H2 as [|? ? Hp Hk Hm Hs _ Hpo H3]; subst. cbn in Hp, Hk, Hm, Hs, Hpo.
    apply wf_members_app. split; [assumption|].
    constructor; cbn; try assumption. now apply wf_array. }
  assert (Hpath : key ++ "." :: acc = (key ++ ["."]) ++ acc)
    by (now rewrite <- app_assoc).
  assert (Hd_eq : forall es',
            d es' = (w0 ++ "{" :: w ++ members_before ms1
                       ++ member_head (Member mpre key mmid msep (render_array wa es') mpost))
                      ++ [] ++ render_array wa es'
                      ++ (mpost ++ members_after ms2 ++ "}" :: rest)).
  { intros es'. subst d. cbv beta. now rewrite object_around_member. }
  assert (Hhead : forall es',
            member_head (Member mpre key mmid msep (render_array wa es') mpost)
            = member_head (Member mpre key mmid msep (render_array wa es) mpost))
    by reflexivity.
  set (pre := w0 ++ "{" :: w ++ members_before ms1
                ++ member_head (Member mpre key mmid msep (render_array wa es) mpost)).
  set (rest' := mpost ++ members_after ms2 ++ "}" :: rest).
  assert (Hreach : forall es', wf_elements es' ->
            reaches (pre ++ [] ++ render_array wa es' ++ rest') ((key ++ ["."]) ++ acc)
              (len pre) (len (key ++ ["."]))).
  { intros es' Hes'. rewrite <- Hpath. subst pre rest'. rewrite <- (Hhead es'), <- Hd_eq.
    subst d. cbv beta.
    apply (reaches_member w0 w ms1
             (Member mpre key mmid msep (render_array wa es') mpost) ms2 rest acc);
      try assumption. now apply Hms'. }
  assert (Hsnoc : forall v, d (es ++ [Element [] v []])
                            = pre ++ [] ++ "[" :: wa ++ render_elements es ++ comma_after es
                                ++ v ++ "]" :: rest').
  { intros v. rewrite Hd_eq, Hhead. fold pre rest'. unfold render_array.
    rewrite render_elements_snoc. norm_app. reflexivity. }
  assert (Happend : forall v c,
            Set_ (Buffer (d es) c) (key ++ "." :: acc) v
            = Ok {| ret := d (es ++ [Element [] v []]); buf := d es; shared := false |}).
  { intros v c. rewrite Hsnoc, Hpath, Hd_eq. fold pre rest'. unfold Set_.
    apply rewritePath_append_element; try assumption; [now apply Hreach | constructor | discriminate]. }
  split; [apply Happend|]. split; [|apply Happend].
  assert (Hes1 : wf_elements (es ++ [Element [] v1 []])).
  { apply wf_elements_app. split; [assumption|].
    constructor; cbn; try assumption; constructor. }
  assert (Hguard1 : len acc <= len (render_array wa (es ++ [Element [] v1 []]) ++ rest')).
  { subst rest'. unfold render_array in *. rewrite render_elements_snoc.
    revert Hguard. lens. intros. lia. }
  unfold Set_.
  destruct (rewritePath_at_element pre [] wa es (Element [] v1 []) [] rest'
              (key ++ ["."]) acc v2 cap' false) as (E & _ & Hf & Hrw);
    try assumption; try constructor.
  { now apply Hreach. }
  rewrite Hpath, (Hd_eq (es ++ [Element [] v1 []])), Hhead. fold pre rest'.
  rewrite Hrw, E. cbn [e_val e_pre e_post] in *.
  rewrite rewriteAt_value by assumption.
  f_equal. f_equal. rewrite Hsnoc, elements_before_render. norm_app. reflexivity.
Qed.

(** [d] is [{"arr":[1]}]: appending [2] at index 1, then setting index 1 to
    [3]. *)
Lemma C7_witness :
  returned (Set_ (doc "{'arr':[1]}") (js "arr.1") (js "2")) = Ok (js "{'arr':[1,2]}")
  /\ returned (Set_ (doc "{'arr':[1,2]}") (js "arr.1") (js "3")) = Ok (js "{'arr':[1,3]}")
  /\ returned (Set_ (doc "{'arr':[1]}") (js "arr.1") (js "3")) = Ok (js "{'arr':[1,3]}").
Proof.
  pose proof (C7_same_index_replaces_the_appended_element [] [] [] [] (js "arr") [] [] []
                [Element [] (js "1") []] [] [] [] (js "1") (js "2") (js "3") 11 13
                (Forall_nil _) (Forall_nil _)) as H.
  destruct H as (H1 & H2 & H3).
  - apply wf_members_cons; cbn [m_pre m_key m_mid m_sep m_val m_post];
      [ws_tac | str_tac | ws_tac | ws_tac | | ws_tac | constructor].
    apply wf_array; [ws_tac|].
    apply wf_elements_cons; cbn [e_pre e_val e_post]; [ws_tac | num_tac | ws_tac | constructor].
  - ws_tac.
  - apply wf_elements_cons; cbn [e_pre e_val e_post]; [ws_tac | num_tac | ws_tac | constructor].
  - constructor.
  - repeat constructor.
  - reflexivity.
  - vm_compute. discriminate.
  - num_tac.
  - discriminate.
  - unfold returned. split; [|split].
    + exact (f_equal (fun r => x <- r ;; Ok (ret x)) H1).
    + exact (f_equal (fun r => x <- r ;; Ok (ret x)) H2).
    + exact (f_equal (fun r => x <- r ;; Ok (ret x)) H3).
Defined.

(** The second call does not return its input. *)
Lemma C7_counterexample :
  returned (Set_ (doc "{'arr':[1]}") (js "arr.1") (js "2")) = Ok (js "{'arr':[1,2]}")
  /\ returned (Set_ (doc "{'arr':[1,2]}") (js "arr.1") (js "3")) = Ok (js "{'arr':[1,3]}")
  /\ js "{'arr':[1,3]}" <> js "{'arr':[1,2]}".
Proof. repeat split; vm_compute; discriminate || reflexivity. Qed.
(* ------------------------------------------------------------------ *)
(** ** The scanner only moves forward *)

Lemma consumeWhitespace_len (s : list byte) : len (consumeWhitespace s) <= len s.
Proof.
  induction s as [|c s IH]; [reflexivity|]. cbn [consumeWhitespace].
  destruct (nonspace c); lens; lia.
Qed.

Lemma consumeNumber_len (s : list byte) : len (consumeNumber s) <= len s.
Proof.
  induction s as [|c s IH]; [reflexivity|]. cbn [consumeNumber].
  destruct (numchar c); lens; lia.
Qed.

Lemma consumeString_len (s : list byte) : len (consumeString s) <= len s.
Proof. unfold len. pose proof (consumeString_length s). lia. Qed.

Lemma slice_from_len (f : failure) (s : list byte) (i : Z) (r : list byte) :
  slice_from f s i = Ok r -> 0 <= i /\ len r = len s - i.
Proof.
  intros H. apply slice_from_ok in H as (Hi & -> & _). split; [lia|].
  unfold len. rewrite length_skipn. unfold len in Hi. lia.
Qed.

Lemma consumeSeparator_len (s r : list byte) :
  consumeSeparator s = Ok r -> len r <= len s.
Proof.
  unfold consumeSeparator. intros H. bind_inv H. injection H as <-.
  apply slice_from_len in E. pose proof (consumeWhitespace_len a). lia.
Qed.

Lemma consumeNested_loop_len (opening closing : byte) (fuel : nat) :
  forall n s r, consumeNested_loop opening closing fuel n s = Ok r -> len r <= len s.
Proof.
  induction fuel as [|fuel IH]; intros n s r H.
  - cbn [consumeNested_loop] in H. destruct (n >? 0); [discriminate|].
    injection H as <-. lia.
  - rewrite loop_unfold in H. destruct (n >? 0); [|injection H as <-; lia].
    bind_inv H. bind_inv H. apply slice_from_len in E.
    destruct (Byte.eqb a0 opening).
    { bind_inv H. apply slice_from_len in E1. apply IH in H. lia. }
    destruct (Byte.eqb a0 closing).
    { bind_inv H. apply slice_from_len in E1. apply IH in H. lia. }
    destruct (Byte.eqb a0 quote); [|discriminate].
    cbv zeta in H. destruct (_ =? _); [discriminate|].
    apply IH in H. pose proof (consumeString_len a). lia.
Qed.

Lemma consumeValue_len (s r : list byte) : consumeValue s = Ok r -> len r <= len s.
Proof.
  unfold consumeValue. intros H. bind_inv H.
  destruct (Byte.eqb a "{").
  { unfold consumeObject, consumeNested in H. bind_inv H.
    apply slice_from_len in E0. apply consumeNested_loop_len in H. lia. }
  destruct (Byte.eqb a "[").
  { unfold consumeArray, consumeNested in H. bind_inv H.
    apply slice_from_len in E0. apply consumeNested_loop_len in H. lia. }
  destruct (Byte.eqb a quote).
  { injection H as <-. apply consumeString_len. }
  destruct (_ || _).
  { apply slice_from_len in H. lia. }
  destruct (Byte.eqb a "f").
  { apply slice_from_len in H. lia. }
  injection H as <-. apply consumeNumber_len.
Qed.

Lemma parseString_len (s key r : list byte) :
  parseString s = Ok (key, r) -> len r <= len s.
Proof.
  unfold parseString. intros H. bind_inv H. injection H as _ <-.
  apply consumeString_len.
Qed.

Lemma separator_if_len (c : byte) (s r : list byte) :
  (if Byte.eqb c "," then consumeSeparator s else Ok s) = Ok r -> len r <= len s.
Proof.
  destruct (Byte.eqb c ","); intros H.
  - now apply consumeSeparator_len.
  - injection H as <-. lia.
Qed.

Lemma object_loop_range (fuel : nat) :
  forall origLen acc s r,
    object_loop fuel origLen acc s = Ok r -> origLen - len s <= r <= origLen.
Proof.
  induction fuel as [|fuel IH]; intros origLen acc s r H.
  - cbn [object_loop] in H. bind_inv H. destruct (negb _); [discriminate|].
    injection H as <-. pose proof (len_nonneg s). lia.
  - rewrite object_loop_unfold in H. bind_inv H.
    destruct (negb _); [|injection H as <-; pose proof (len_nonneg s); lia].
    bind_inv H. destruct a0 as [key s1]. apply parseString_len in E0.
    cbv zeta in H. bind_inv H. apply consumeSeparator_len in E1.
    pose proof (consumeWhitespace_len s1).
    destruct (bytes_eqb key acc).
    { injection H as <-. pose proof (len_nonneg a0). lia. }
    bind_inv H. apply consumeValue_len in E2. bind_inv H. bind_inv H.
    apply separator_if_len in E4. pose proof (consumeWhitespace_len a1).
    apply IH in H. lia.
Qed.

Lemma array_loop_len (fuel : nat) :
  forall n a s s' a', array_loop fuel n a s = Ok (s', a') -> len s' <= len s.
Proof.
  induction fuel as [|fuel IH]; intros n a s s' a' H.
  - cbn [array_loop] in H. destruct (n >? a); [|injection H as <- _; lia].
    bind_inv H. destruct (negb _); [discriminate|]. injection H as <- _. lia.
  - rewrite array_loop_unfold in H. destruct (n >? a); [|injection H as <- _; lia].
    bind_inv H. destruct (negb _); [|injection H as <- _; lia].
    bind_inv H. apply consumeValue_len in E0. cbv zeta in H. bind_inv H. bind_inv H.
    apply separator_if_len in E2. pose proof (consumeWhitespace_len a1).
    apply IH in H. lia.
Qed.

(** The locator answers [-1] or an offset into its text. *)
Lemma locateAccessor_range (s acc : list byte) (r : Z) :
  locateAccessor s acc = Ok r -> r = -1 \/ 0 <= r <= len s.
Proof.
  unfold locateAccessor. intros H.
  pose proof (consumeWhitespace_len s) as Hw.
  destruct (_ || _); [injection H as <-; now left|].
  bind_inv H. destruct (Byte.eqb a "{").
  { bind_inv H. apply consumeSeparator_len in E0. apply object_loop_range in H.
    right. lia. }
  destruct (Byte.eqb a "[").
  { destruct (Atoi acc) as [n|]; [|injection H as <-; now left].
    destruct (n <? 0); [injection H as <-; now left|].
    bind_inv H. apply consumeSeparator_len in E0. bind_inv H. destruct a1 as [s' a'].
    apply array_loop_len in E1.
    destruct (n >? a'); injection H as <-; [now left|right].
    pose proof (len_nonneg s'). lia. }
  destruct (Byte.eqb a "n"); [|injection H as <-; now left].
  destruct (Atoi acc) as [[| |]|]; try (injection H as <-; now left).
  bind_inv H. apply slice_from_len in E0. injection H as <-. right.
  pose proof (len_nonneg a0). lia.
Qed.
(* ------------------------------------------------------------------ *)
(** ** Paths along which the walk stops *)

Lemma segments_not_nil (path : list byte) : segments path <> [].
Proof.
  induction path as [|c tl IH]; cbn [segments]; [discriminate|].
  destruct (Byte.eqb c "."); [discriminate|]. now destruct (segments tl).
Qed.

Lemma join_segments (path : list byte) : join_dots (segments path) = path.
Proof.
  induction path as [|c tl IH]; [reflexivity|]. cbn [segments].
  destruct (Byte.eqb c ".") eqn:E.
  - apply eqb_eq in E. subst c. pose proof (segments_not_nil tl) as Hne.
    destruct (segments tl) as [|s ss]; [contradiction|].
    change (join_dots ([] :: s :: ss)) with ([] ++ "." :: join_dots (s :: ss)).
    now rewrite IH.
  - pose proof (segments_not_nil tl) as Hne.
    destruct (segments tl) as [|s ss]; [contradiction|].
    destruct ss as [|s' ss].
    + cbn [join_dots] in *. now rewrite IH.
    + change (join_dots ((c :: s) :: s' :: ss)) with (c :: (s ++ "." :: join_dots (s' :: ss))).
      change (join_dots (s :: s' :: ss)) with (s ++ "." :: join_dots (s' :: ss)) in IH.
      now rewrite IH.
Qed.

Lemma segments_dot_free (path : list byte) : Forall dot_free (segments path).
Proof.
  induction path as [|c tl IH]; cbn [segments]; [repeat constructor|].
  destruct (Byte.eqb c ".") eqn:E.
  - constructor; [constructor | assumption].
  - destruct (segments tl) as [|s ss]; [repeat constructor; assumption|].
    inversion IH; subst. constructor; [|assumption]. now constructor.
Qed.

Lemma landing_nowhere (json : list byte) (i : Z) (acc : list byte) :
  landing_of json i acc = Ok Nowhere ->
  exists ji, slice_from BufferRange json i = Ok ji /\ locateAccessor ji acc = Ok (-1).
Proof.
  unfold landing_of. intros H. bind_inv H. bind_inv H. exists a. split; [reflexivity|].
  destruct (a0 =? -1) eqn:E1.
  - apply Z.eqb_eq in E1. now subst.
  - bind_inv H. destruct (_ || _); [discriminate|].
    destruct (Byte.eqb a1 "l"); discriminate.
Qed.

Lemma landing_place (json : list byte) (i : Z) (acc : list byte) (l : landing) :
  landing_of json i acc = Ok l -> l <> Nowhere ->
  exists ji r c,
    slice_from BufferRange json i = Ok ji /\ locateAccessor ji acc = Ok r
    /\ r <> -1 /\ index BufferRange json (i + r) = Ok c
    /\ ((closer c = false /\ l = AtValue (i + r))
        \/ (closer c = true /\ forall off, l <> AtValue off)).
Proof.
  unfold landing_of. intros H Hl. bind_inv H. bind_inv H.
  destruct (a0 =? -1) eqn:E1; [injection H as <-; contradiction|].
  apply Z.eqb_neq in E1. bind_inv H.
  exists a, a0, a1. repeat (split; [reflexivity || assumption|]).
  unfold closer.
  destruct (Byte.eqb a1 "}") eqn:E3; [right|destruct (Byte.eqb a1 "]") eqn:E4; [right|]];
    cbn [orb] in *.
  - rewrite orb_true_r. cbn [orb]. split; [reflexivity|]. injection H as <-. discriminate.
  - split; [reflexivity|]. injection H as <-. discriminate.
  - destruct (Byte.eqb a1 "l") eqn:E5; [right|left]; injection H as <-.
    + split; [reflexivity|discriminate].
    + split; reflexivity.
Qed.

Lemma landing_eq_Nowhere (l : landing) : l = Nowhere \/ l <> Nowhere.
Proof. destruct l; [right|right|right|left]; (discriminate || reflexivity). Qed.

Lemma index_range (f : failure) (s : list byte) (i : Z) (c : byte) :
  index f s i = Ok c -> 0 <= i < len s.
Proof.
  unfold index. destruct (0 <=? i) eqn:E1; [|discriminate].
  destruct (i <? len s) eqn:E2; [|discriminate]. intros _.
  apply Z.leb_le in E1. apply Z.ltb_lt in E2. lia.
Qed.

Lemma index_slice_from (f g : failure) (s : list byte) (i : Z) (c : byte) :
  index f s i = Ok c -> exists tl, slice_from g s i = Ok (c :: tl).
Proof.
  intros H. pose proof (index_range _ _ _ _ H) as Hr.
  unfold index in H. unfold slice_from.
  replace (0 <=? i) with true in * by (symmetry; apply Z.leb_le; lia).
  replace (i <? len s) with true in H by (symmetry; apply Z.ltb_lt; lia).
  replace (i <=? len s) with true by (symmetry; apply Z.leb_le; lia).
  cbn [andb] in *. injection H as <-.
  assert (Hn : (Z.to_nat i < length s)%nat) by (unfold len in Hr; lia).
  clear Hr. revert Hn. generalize (Z.to_nat i) as k. clear i.
  induction s as [|d s IH]; intros k Hk; [simpl in Hk; lia|].
  destruct k as [|k]; [eexists; reflexivity|].
  cbn [skipn nth]. apply IH. simpl in Hk. lia.
Qed.

(** From a closing delimiter or the end of [null] the loop returns the
    document, whatever the next accessor is. *)
Lemma iteration_at_closer (json p0 : list byte) (segs : list (list byte))
  (i : Z) (c : byte) :
  segs <> [] -> Forall dot_free segs ->
  index BufferRange json i = Ok c -> closer c = true ->
  iteration json (p0 ++ join_dots segs) i (len p0) = Ok Reject.
Proof.
  intros Hne Hd Hix Hc.
  destruct (index_slice_from BufferRange BufferRange _ _ _ Hix) as [tl Hsl].
  assert (Hloc : forall acc, locateAccessor (c :: tl) acc = Ok (-1)).
  { intros acc. apply locateAccessor_closer. unfold closer in Hc.
    apply orb_true_iff in Hc as [Hc|Hc]; [apply orb_true_iff in Hc as [Hc|Hc]|];
      apply eqb_eq in Hc; auto. }
  destruct segs as [|acc [|acc2 rest]]; [contradiction| |]; inversion Hd; subst.
  - cbn [join_dots]. rewrite iteration_last by assumption.
    now rewrite Hsl, bind_ok, Hloc, bind_ok.
  - change (join_dots (acc :: acc2 :: rest)) with (acc ++ "." :: join_dots (acc2 :: rest)).
    rewrite iteration_inner by assumption.
    now rewrite Hsl, bind_ok, Hloc, bind_ok.
Qed.

Lemma reaches_nonneg (json path : list byte) (i j : Z) :
  reaches json path i j -> 0 <= i.
Proof.
  induction 1 as [|i j i' j' Hr IH Hit]; [lia|].
  unfold iteration in Hit. bind_inv Hit. cbv zeta in Hit. bind_inv Hit. bind_inv Hit.
  bind_inv Hit. if_inv Hit; [discriminate|]. bind_inv Hit.
  if_inv Hit; [discriminate|]. if_inv Hit; [|discriminate].
  injection Hit as <- _. apply locateAccessor_range in E2. apply Z.eqb_neq in E3. lia.
Qed.

Lemma walk_stops_rejected (json : list byte) (segs : list (list byte)) :
  segs <> [] -> Forall dot_free segs ->
  forall p0 i,
    reaches json (p0 ++ join_dots segs) i (len p0) ->
    walk_stops json i segs = Ok true ->
    locatePath json (p0 ++ join_dots segs) = Ok Reject.
Proof.
  induction segs as [|acc segs IH]; [contradiction|].
  intros _ Hd p0 i Hr Hm. inversion Hd as [|? ? Hacc Hsegs]; subst.
  pose proof (reaches_nonneg _ _ _ _ Hr) as Hi.
  destruct segs as [|acc2 rest].
  - (* the last accessor *)
    cbn [walk_stops] in Hm. bind_inv Hm.
    destruct a; try discriminate.
    apply landing_nowhere in E as (ji & Hsl & Hloc).
    apply (locatePath_reaches _ _ _ _ _ Hr); [|discriminate].
    cbn [join_dots]. rewrite iteration_last by assumption.
    now rewrite Hsl, bind_ok, Hloc, bind_ok.
  - (* an inner accessor *)
    change (walk_stops json i (acc :: acc2 :: rest))
      with (l <- landing_of json i acc ;;
            match l with
            | AtValue off => walk_stops json off (acc2 :: rest)
            | _ => Ok true
            end) in Hm.
    bind_inv Hm.
    change (join_dots (acc :: acc2 :: rest))
      with (acc ++ "." :: join_dots (acc2 :: rest)) in *.
    destruct (landing_eq_Nowhere a) as [->|Hnf].
    + apply landing_nowhere in E as (ji & Hsl & Hloc).
      apply (locatePath_reaches _ _ _ _ _ Hr); [|discriminate].
      rewrite iteration_inner by assumption.
      now rewrite Hsl, bind_ok, Hloc, bind_ok.
    + destruct (landing_place _ _ _ _ E Hnf) as (ji & r & c' & Hsl & Hloc & Hr1 & Hix & Hcase).
      pose proof (locateAccessor_range _ _ _ Hloc) as Hrange.
      pose proof (index_range _ _ _ _ Hix) as Hir.
      destruct (index_in_range BufferRange json r ltac:(lia)) as [c Hc].
      assert (Hit : iteration json (p0 ++ acc ++ "." :: join_dots (acc2 :: rest)) i (len p0)
                    = if closer c then Ok Reject
                      else Ok (Next (i + r) (len p0 + len acc + 1))).
      { rewrite iteration_inner by assumption.
        rewrite Hsl, bind_ok, Hloc, bind_ok.
        replace (r =? -1) with false by (symmetry; now apply Z.eqb_neq).
        now rewrite Hc, bind_ok. }
      destruct (closer c) eqn:Ec.
      * apply (locatePath_reaches _ _ _ _ _ Hr Hit). discriminate.
      * pose proof (reaches_next _ _ _ _ _ _ Hr Hit) as Hr2.
        replace (p0 ++ acc ++ "." :: join_dots (acc2 :: rest))
          with ((p0 ++ acc ++ ["."]) ++ join_dots (acc2 :: rest)) in *
          by (norm_app; reflexivity).
        replace (len p0 + len acc + 1) with (len (p0 ++ acc ++ ["."])) in Hr2
          by (lens; lia).
        destruct Hcase as [[Hc' ->]|[Hc' Hl]].
        -- exact (IH ltac:(discriminate) Hsegs (p0 ++ acc ++ ["."]) (i + r) Hr2 Hm).
        -- apply (locatePath_reaches _ _ _ _ _ Hr2); [|discriminate].
           apply (iteration_at_closer json _ (acc2 :: rest) (i + r) c');
             [discriminate | assumption | assumption | assumption].
Qed.
(** C4: a path whose last accessor meets a [null] and is not ["0"] as it is
    written is malformed, and the document should come back as it is.  For
    the accessors that [Atoi] reads as 0 without their being ["0"] (["00"],
    ["-0"], ["000"]) [Set] and [SetInPlace] return another document instead,
    with the replacement between the bytes of [null].  For the accessor
    ["1"] at a [null], and for a key that the document has not before the
    last accessor, they return the document. *)
Theorem C4_malformed_path_into_null_is_applied :
  Atoi (js "00") = Some 0 /\ js "00" <> js "0"
  /\ Set_ (doc "null") (js "00") (js "7")
     = Ok {| ret := js "nul7l"; buf := js "null"; shared := false |}
  /\ SetInPlace (doc "null") (js "00") (js "7")
     = Ok {| ret := js "nul7l"; buf := js "null"; shared := false |}
  /\ returned (Set_ (doc "{'a':[null]}") (js "a.0.-0") (js "7"))
     = Ok (js "{'a':[nul7l]}")
  /\ returned (SetInPlace (doc "{'foo':null}") (js "foo.000") (js "'x'"))
     = Ok (js "{'foo':nul'x'l}")
  /\ Set_ (doc "null") (js "1") (js "7") = Ok (return_json (js "null"))
  /\ Set_ (doc "{'foo':1}") (js "bar.baz") (js "7") = Ok (return_json (js "{'foo':1}")).
Proof. repeat split; vm_compute; reflexivity || discriminate. Qed.
(* ------------------------------------------------------------------ *)
(** ** Well-formed documents are scanned within bounds *)

Lemma member_offset_split (acc : list byte) (ms : list member) (k : Z) :
  member_offset acc ms = Some k ->
  exists ms1 m ms2, ms = ms1 ++ m :: ms2 /\ k = len (members_before ms1 ++ member_head m).
Proof.
  revert k. induction ms as [|x ms IH]; intros k H; [discriminate|].
  cbn [member_offset] in H. destruct (bytes_eqb (m_key x) acc).
  - injection H as <-. exists [], x, ms. split; reflexivity.
  - destruct (member_offset acc ms) as [k'|]; [|discriminate]. injection H as <-.
    destruct (IH k' eq_refl) as (ms1 & m & ms2 & -> & ->).
    exists (x :: ms1), m, ms2. split; [reflexivity|].
    unfold members_before, items_before. cbn [map concat]. lens. lia.
Qed.

Lemma list_split_at {A : Type} (l : list A) (n : Z) :
  0 <= n < len l -> exists l1 x l2, l = l1 ++ x :: l2 /\ len l1 = n.
Proof.
  intros H. unfold len in H.
  destruct (skipn (Z.to_nat n) l) as [|x l2] eqn:E.
  - pose proof (f_equal (@length A) E) as El. rewrite length_skipn in El. simpl in El. lia.
  - exists (firstn (Z.to_nat n) l), x, l2. split.
    + rewrite <- E. symmetry. apply firstn_skipn.
    + unfold len. rewrite length_firstn. lia.
Qed.

Lemma value_at_intro (pre v rest : list byte) :
  wf_value v -> follow_ok rest -> value_at (pre ++ v ++ rest) (len pre).
Proof. intros Hv Hr. exists pre, v, rest. now repeat split. Qed.

(** A scalar has no members. *)
Lemma locateAccessor_scalar (w : list byte) (c : byte) (tl acc : list byte) :
  all_ws w -> nonspace c = true ->
  Byte.eqb c "{" = false -> Byte.eqb c "[" = false -> Byte.eqb c "n" = false ->
  locateAccessor (w ++ c :: tl) acc = Ok (-1).
Proof.
  intros Hw Hc H1 H2 H3. unfold locateAccessor.
  rewrite consumeWhitespace_skip by assumption.
  destruct (_ || _); [reflexivity|].
  now rewrite index_zero, bind_ok, H1, H2, H3.
Qed.

(** On a well-formed value the locator answers not-found or with a place
    of the document. *)
Lemma locateAccessor_places (pre w v rest acc : list byte) :
  all_ws w -> wf_value v -> follow_ok rest ->
  exists r, locateAccessor (w ++ v ++ rest) acc = Ok r
    /\ (r = -1
        \/ (0 <= r < len (w ++ v ++ rest)
            /\ target_ok (pre ++ w ++ v ++ rest) (len pre + r))).
Proof.
  intros Hw Hv Hrest.
  destruct Hv as [ | | |v Hv|b Hb|wa es Hwa Hes|wo ms Hwo Hms].
  - (* null *)
    fold null. rewrite locateAccessor_null by assumption.
    destruct (_ <? len acc); [eexists; split; [reflexivity|now left]|].
    destruct (Atoi acc) as [[| |]|]; try (eexists; split; [reflexivity|now left]).
    eexists. split; [reflexivity|]. right. split; [unfold null; lens; lia|].
    right. right. exists (pre ++ w), rest. split; [now rewrite <- app_assoc|lens; lia].
  - eexists. split; [cbn [app]; now apply locateAccessor_scalar | now left].
  - eexists. split; [cbn [app]; now apply locateAccessor_scalar | now left].
  - destruct v as [|c v]; [contradiction|]. destruct Hv as [Hc Hv].
    destruct (number_head c Hc) as (Hn & _ & H3 & _).
    destruct (numchar_not_special c Hn) as (H0 & H1 & _ & H2 & _).
    eexists. split; [cbn [app]; now apply locateAccessor_scalar | now left].
  - eexists. split; [cbn [app]; now apply locateAccessor_scalar | now left].
  - (* array *)
    destruct (Atoi acc) as [n|] eqn:Eacc.
    2:{ eexists. split; [apply locateAccessor_not_index; [assumption|now left] | now left]. }
    destruct (Z.ltb_spec n 0) as [Hneg|Hpos].
    { eexists. split; [apply locateAccessor_not_index; [assumption|right; eauto] | now left]. }
    destruct (Z.ltb_spec (len (render_array wa es ++ rest)) (len acc)) as [Hg|Hg].
    { rewrite (locateAccessor_array w wa es rest acc n) by assumption.
      replace (_ <? len acc) with true by (symmetry; apply Z.ltb_lt; lia).
      eexists. split; [reflexivity|now left]. }
    destruct (Z.lt_trichotomy n (len es)) as [Hlt|[Heq|Hgt]].
    + destruct (list_split_at es n ltac:(lia)) as (es1 & e & es2 & -> & Hn).
      subst n. rewrite locateAccessor_element by assumption.
      eexists. split; [reflexivity|]. right.
      apply wf_elements_app in Hes as [_ He].
      inversion He as [|? ? Hpre Hval Hpost _]; subst.
      destruct (wf_value_head _ Hval) as (c & tl & Ev & _).
      split.
      * unfold render_array. rewrite render_elements_split, Ev. lens. lia.
      * left. exists (pre ++ w ++ "[" :: wa ++ elements_before es1 ++ e_pre e),
          (e_val e), (e_post e ++ elements_after es2 ++ "]" :: rest).
        repeat split; try assumption.
        -- unfold render_array. rewrite render_elements_split. norm_app. reflexivity.
        -- lens. lia.
        -- apply follow_ok_after; [assumption | now right | apply items_after_shape].
    + subst n. rewrite locateAccessor_array_end by assumption.
      eexists. split; [reflexivity|]. right. split.
      * unfold render_array. lens. lia.
      * right. left. exists (pre ++ w ++ "[" :: wa ++ render_elements es), "]", rest.
        repeat split; [unfold render_array; norm_app; reflexivity | lens; lia | now right].
    + rewrite (locateAccessor_array_beyond w wa es rest acc n) by assumption.
      eexists. split; [reflexivity|now left].
  - (* object *)
    rewrite locateAccessor_object by assumption.
    destruct (_ <? len acc); [eexists; split; [reflexivity|now left]|].
    eexists. split; [reflexivity|]. right.
    destruct (member_offset acc ms) as [k|] eqn:Ek.
    + destruct (member_offset_split acc ms k Ek) as (ms1 & m & ms2 & -> & ->).
      apply wf_members_app in Hms as [_ Hm].
      inversion Hm as [|? ? _ _ _ _ Hval Hpost _]; subst.
      destruct (wf_value_head _ Hval) as (c & tl & Ev & _).
      split.
      * unfold render_object. rewrite render_members_split, Ev. lens. lia.
      * left. exists (pre ++ w ++ "{" :: wo ++ members_before ms1 ++ member_head m),
          (m_val m), (m_post m ++ members_after ms2 ++ "}" :: rest).
        repeat split; try assumption.
        -- unfold render_object. rewrite render_members_split. norm_app. reflexivity.
        -- lens. lia.
        -- apply follow_ok_after; [assumption | now left | apply items_after_shape].
    + split.
      * unfold render_object. lens. lia.
      * right. left. exists (pre ++ w ++ "{" :: wo ++ render_members ms), "}", rest.
        repeat split; [unfold render_object; norm_app; reflexivity | lens; lia | now left].
Qed.
Lemma store_ok (s : list byte) (i : Z) (c : byte) :
  0 <= i < len s -> exists r, store s i c = Ok r /\ len r = len s.
Proof.
  intros H. unfold store.
  replace (0 <=? i) with true by (symmetry; apply Z.leb_le; lia).
  replace (i <? len s) with true by (symmetry; apply Z.ltb_lt; lia).
  eexists. split; [reflexivity|].
  unfold len in *. rewrite length_app. cbn [length].
  rewrite length_firstn, length_skipn. lia.
Qed.

Lemma copy_at_ok (s : list byte) (off : Z) (src : list byte) :
  0 <= off <= len s -> exists r, copy_at s off src = Ok r /\ len r = len s.
Proof.
  intros H. unfold copy_at, slice_from.
  replace (0 <=? off) with true by (symmetry; apply Z.leb_le; lia).
  replace (off <=? len s) with true by (symmetry; apply Z.leb_le; lia).
  cbn [andb bind]. eexists. split; [reflexivity|].
  unfold len in *. rewrite !length_app, !length_firstn, !length_skipn. lia.
Qed.

Lemma pad_spaces_ok (count : nat) :
  forall s i j, 0 <= i + j -> i + j + Z.of_nat count <= len s ->
    exists r, pad_spaces count s i j = Ok r /\ len r = len s.
Proof.
  induction count as [|count IH]; intros s i j H1 H2.
  - exists s. split; reflexivity.
  - cbn [pad_spaces].
    destruct (store_ok s (i + j) " " ltac:(lia)) as (s1 & -> & Hl). rewrite bind_ok.
    destruct (IH s1 i (j + 1) ltac:(lia) ltac:(lia)) as (r & -> & Hr).
    exists r. split; [reflexivity|lia].
Qed.

Lemma prevChar_from_total (json : list byte) (k : nat) (i : Z) :
  (k <= length json)%nat -> 0 <= i < len json ->
  exists c, prevChar_from json k i = Ok c.
Proof.
  intros Hk Hi. induction k as [|k IH]; cbn [prevChar_from].
  - now apply index_in_range.
  - destruct (index_in_range BufferRange json (Z.of_nat k)) as [c Hc];
      [unfold len; lia|].
    rewrite Hc, bind_ok. destruct (nonspace c); [eexists; reflexivity|].
    apply IH. lia.
Qed.

Lemma prevChar_total (json : list byte) (i : Z) :
  0 <= i < len json -> exists c, prevChar json i = Ok c.
Proof.
  intros H. unfold prevChar. apply prevChar_from_total; [unfold len in H; lia|assumption].
Qed.

Lemma slice_ok (f : failure) (s : list byte) (lo hi : Z) :
  0 <= lo <= hi -> hi <= len s -> exists r, slice f s lo hi = Ok r.
Proof.
  intros H1 H2. unfold slice.
  replace (0 <=? lo) with true by (symmetry; apply Z.leb_le; lia).
  replace (lo <=? hi) with true by (symmetry; apply Z.leb_le; lia).
  replace (hi <=? len s) with true by (symmetry; apply Z.leb_le; lia).
  eexists. reflexivity.
Qed.

(** The splice succeeds wherever the scanner gets past the value at the
    cursor. *)
Lemma rewriteAt_total (json : list byte) (i : Z) (acc val : list byte)
  (inPlace : bool) (c : byte) (ji rest : list byte) :
  index BufferRange json i = Ok c ->
  slice_from BufferRange json
    (if Byte.eqb c "l" && bytes_eqb acc ["0"] then i - 3 else i) = Ok ji ->
  ji <> [] ->
  consumeValue ji = Ok rest ->
  exists r, rewriteAt json i acc val inPlace = Ok r.
Proof.
  intros Hix Hsl Hne Hcv. unfold rewriteAt. rewrite Hix, bind_ok. cbv zeta.
  set (b := Byte.eqb c "l" && bytes_eqb acc ["0"]) in *.
  set (i' := if b then i - 3 else i) in *.
  rewrite Hsl, bind_ok, Hcv, bind_ok.
  pose proof (slice_from_len _ _ _ _ Hsl) as [Hi0 Hlen].
  pose proof (consumeValue_len _ _ Hcv) as Hrest.
  pose proof (len_nonneg rest) as Hr0.
  assert (Hji : 0 < len ji) by (destruct ji; [contradiction|lens; lia]).
  destruct (index_in_range BufferRange json i' ltac:(lia)) as [c' Hc'].
  rewrite Hc'.
  assert (Halloc :
    exists r,
      (pre <- slice BufferRange json 0 i' ;;
       c0 <- Ok c' ;;
       mid <-
         (if Byte.eqb c0 "}" then
            p <- prevChar json i' ;;
            Ok ((if negb (Byte.eqb p "{") then [","] else [])
                  ++ quote :: acc ++ quote :: ":" :: val)
          else if Byte.eqb c0 "]" then
            p <- prevChar json i' ;;
            Ok ((if negb (Byte.eqb p "[") then [","] else []) ++ val)
          else if Byte.eqb c0 "n" then Ok ("[" :: val ++ ["]"])
          else Ok val) ;;
       Ok {| ret := pre ++ mid ++ rest; buf := json; shared := false |}) = Ok r).
  { destruct (slice_ok BufferRange json 0 i' ltac:(lia) ltac:(lia)) as [pre ->].
    rewrite !bind_ok.
    destruct (prevChar_total json i' ltac:(lia)) as [p ->].
    destruct (Byte.eqb c' "}"); [rewrite !bind_ok; eexists; reflexivity|].
    destruct (Byte.eqb c' "]"); [rewrite !bind_ok; eexists; reflexivity|].
    destruct (Byte.eqb c' "n"); rewrite !bind_ok; eexists; reflexivity. }
  destruct inPlace; [|rewrite bind_ok; exact Halloc].
  rewrite bind_ok.
  set (oldLen := if negb (Byte.eqb c' "}") && negb (Byte.eqb c' "]")
                 then len ji - len rest else 0).
  set (newLen := if b then len val + 2 else len val).
  assert (Hold : 0 <= oldLen <= len ji).
  { unfold oldLen. destruct (negb (Byte.eqb c' "}") && negb (Byte.eqb c' "]")); lia. }
  assert (Hnew : 0 <= newLen /\ (b = true -> 2 <= newLen)).
  { unfold newLen. pose proof (len_nonneg val). destruct b; split; try lia; discriminate. }
  destruct (newLen <=? oldLen) eqn:Efit; [|rewrite bind_ok; exact Halloc].
  apply Z.leb_le in Efit.
  assert (Hwrite : exists j,
    (if b
     then json0 <- store json i' "[" ;;
          json1 <- copy_at json0 (i' + 1) val ;;
          store json1 (i' + newLen - 1) "]"
     else copy_at json i' val) = Ok j /\ len j = len json).
  { destruct b.
    - destruct (store_ok json i' "[" ltac:(lia)) as (j0 & -> & H0). rewrite bind_ok.
      destruct (copy_at_ok j0 (i' + 1) val ltac:(lia)) as (j1 & -> & H1). rewrite bind_ok.
      destruct Hnew as [_ Hnew]. specialize (Hnew eq_refl).
      destruct (store_ok j1 (i' + newLen - 1) "]" ltac:(lia)) as (j2 & -> & H2).
      exists j2. split; [reflexivity|lia].
    - destruct (copy_at_ok json i' val ltac:(lia)) as (j0 & -> & H0).
      exists j0. split; [reflexivity|lia]. }
  destruct Hwrite as (j & -> & Hj). rewrite bind_ok.
  destruct (pad_spaces_ok (Z.to_nat (oldLen - newLen)) j (i' + newLen) 0
              ltac:(lia) ltac:(lia)) as (j' & -> & Hj').
  rewrite !bind_ok. eexists. reflexivity.
Qed.

Lemma rewriteAt_target (json : list byte) (k : Z) (acc val : list byte)
  (inPlace : bool) :
  target_ok json k -> exists r, rewriteAt json k acc val inPlace = Ok r.
Proof.
  intros [(pre & v & rest & -> & <- & Hv & Hr)
         |[(pre & c & rest & -> & <- & Hc)|(pre & rest & -> & <-)]].
  - destruct (wf_value_head v Hv) as (c & tl & Ev & _ & _ & _ & Hl & _).
    apply (rewriteAt_total _ _ acc val inPlace c (v ++ rest) rest).
    + rewrite Ev. cbn [app]. apply index_app_len.
    + rewrite Hl. cbn [andb]. apply slice_from_app_len.
    + rewrite Ev. discriminate.
    + now apply consumeValue_wf.
  - apply (rewriteAt_total _ _ acc val inPlace c (c :: rest) (c :: rest)).
    + apply index_app_len.
    + replace (Byte.eqb c "l") with false by (destruct Hc as [->| ->]; reflexivity).
      cbn [andb]. apply slice_from_app_len.
    + discriminate.
    + apply consumeValue_closing. tauto.
  - assert (Hix : index BufferRange (pre ++ null ++ rest) (len pre + 3) = Ok "l").
    { replace (len pre + 3) with (len (pre ++ ["n"; "u"; "l"])) by (lens; lia).
      replace (pre ++ null ++ rest) with ((pre ++ ["n"; "u"; "l"]) ++ "l" :: rest)
        by (unfold null; norm_app; reflexivity).
      apply index_app_len. }
    destruct (bytes_eqb acc ["0"]) eqn:E0.
    + apply (rewriteAt_total _ _ acc val inPlace "l" (null ++ rest) rest Hix).
      * rewrite E0. byte_tests. replace (len pre + 3 - 3) with (len pre) by lia.
        apply slice_from_app_len.
      * discriminate.
      * apply (slice_from_app_len BufferRange null rest).
    + apply (rewriteAt_total _ _ acc val inPlace "l" ("l" :: rest) ("l" :: rest) Hix).
      * rewrite E0. byte_tests.
        replace (len pre + 3) with (len (pre ++ ["n"; "u"; "l"])) by (lens; lia).
        replace (pre ++ null ++ rest) with ((pre ++ ["n"; "u"; "l"]) ++ "l" :: rest)
          by (unfold null; norm_app; reflexivity).
        apply slice_from_app_len.
      * discriminate.
      * apply consumeValue_closing. tauto.
Qed.
Lemma target_state (json : list byte) (k : Z) : target_ok json k -> state_ok json k.
Proof.
  intros [(pre & v & rest & -> & <- & Hv & Hr)
         |[(pre & c & rest & -> & <- & Hc)|(pre & rest & -> & <-)]].
  - left. exists pre, [], v, rest. repeat split; try assumption. constructor.
  - right. exists c. split; [apply index_app_len|].
    destruct Hc as [->| ->]; reflexivity.
  - right. exists "l". split; [|reflexivity].
    replace (len pre + 3) with (len (pre ++ ["n"; "u"; "l"])) by (lens; lia).
    replace (pre ++ null ++ rest) with ((pre ++ ["n"; "u"; "l"]) ++ "l" :: rest)
      by (unfold null; norm_app; reflexivity).
    apply index_app_len.
Qed.

Lemma slice_bounds (f : failure) (s : list byte) (lo hi : Z) (r : list byte) :
  slice f s lo hi = Ok r -> 0 <= lo <= hi /\ hi <= len s.
Proof.
  unfold slice. destruct (0 <=? lo) eqn:E1; [|discriminate].
  destruct (lo <=? hi) eqn:E2; [|discriminate].
  destruct (hi <=? len s) eqn:E3; [|discriminate]. intros _.
  apply Z.leb_le in E1, E2, E3. lia.
Qed.

Lemma iteration_safe (json path : list byte) (i j : Z) :
  state_ok json i -> iteration_good json path j (iteration json path i j).
Proof.
  intros Hst. unfold iteration.
  destruct (slice_from PathRange path j) as [pj|f] eqn:Epj;
    [|apply slice_from_fail in Epj; subst; reflexivity].
  rewrite bind_ok. cbv zeta.
  set (dotIndex := if IndexByte pj "." =? -1 then len pj else IndexByte pj ".").
  set (lastAcc := if IndexByte pj "." =? -1 then pj else []).
  assert (Hd : 0 <= dotIndex).
  { unfold dotIndex. pose proof (index_where_bounds (fun d => Byte.eqb d ".") pj 0) as Hb.
    fold (IndexByte pj ".") in Hb. pose proof (len_nonneg pj).
    destruct (IndexByte pj "." =? -1) eqn:E1; [lia|]. apply Z.eqb_neq in E1. lia. }
  destruct (slice PathRange path j (j + dotIndex)) as [acc|f] eqn:Eacc;
    [|apply slice_fail in Eacc; subst; reflexivity].
  rewrite bind_ok. apply slice_bounds in Eacc.
  destruct Hst as [(pre & w & v & rest & -> & <- & Hw & Hv & Hrest)|(c & Hc & Hcl)].
  - rewrite slice_from_app_len, bind_ok.
    destruct (locateAccessor_places pre w v rest acc Hw Hv Hrest) as (r & -> & Hr).
    rewrite bind_ok. destruct Hr as [->|[Hr Ht]]; [reflexivity|].
    replace (r =? -1) with false by (symmetry; apply Z.eqb_neq; lia).
    destruct (index_in_range BufferRange (pre ++ w ++ v ++ rest) r) as [c ->];
      [lens; lia|].
    rewrite bind_ok. destruct (_ && _); [reflexivity|].
    destruct (bytes_eqb lastAcc []); cbn [iteration_good].
    + split; [now apply target_state|lia].
    + exact Ht.
  - destruct (index_slice_from BufferRange BufferRange _ _ _ Hc) as [tl ->].
    rewrite bind_ok, locateAccessor_closer, bind_ok; [reflexivity|].
    unfold closer in Hcl.
    apply orb_true_iff in Hcl as [Hcl|Hcl]; [apply orb_true_iff in Hcl as [Hcl|Hcl]|];
      apply eqb_eq in Hcl; auto.
Qed.

Lemma loop_safe (json path : list byte) (fuel : nat) :
  forall i j,
    state_ok json i -> 0 <= j <= len path + 1 ->
    len path + 2 <= Z.of_nat fuel + j ->
    loop_good json (locate_loop fuel json path i j).
Proof.
  induction fuel as [|fuel IH]; intros i j Hst Hj Hfuel; [lia|].
  rewrite locate_loop_unfold.
  pose proof (iteration_safe json path i j Hst) as Hit.
  destruct (iteration json path i j) as [[i' j'|k acc|]|f]; cbn [bind iteration_good] in *.
  - destruct Hit as [Hst' Hj']. apply IH; [assumption|lia|lia].
  - exact Hit.
  - exact I.
  - exact Hit.
Qed.

(** C2 (amended): on a well-formed document, with whitespace around it or
    not, [Set], [SetInPlace] and [SetRawInPlace] and the scanner functions
    under them never index or slice the buffer out of range, for every path
    and every replacement, and their loops end: the call returns, unless the
    path ends in a dot after an empty key that exists, where slicing the
    path string fails. *)
Theorem C2_well_formed_documents_stay_in_bounds (json : list byte) (cap : Z)
  (path val : list byte) :
  wf_document json ->
  (forall inPlace f, rewritePath (Buffer json cap) path val inPlace = Fail f -> f = PathRange)
  /\ (forall f, Set_ (Buffer json cap) path val = Fail f -> f = PathRange)
  /\ (forall f, SetInPlace (Buffer json cap) path val = Fail f -> f = PathRange)
  /\ (forall f, SetRawInPlace (Buffer json cap) path val = Fail f -> f = PathRange)
  /\ (forall acc, exists r, locateAccessor json acc = Ok r)
  /\ (forall w0 v w1, json = w0 ++ v ++ w1 -> all_ws w0 -> wf_value v -> all_ws w1 ->
        consumeValue (consumeWhitespace json) = Ok w1).
Proof.
  intros (w0 & v & w1 & -> & Hw0 & Hv & Hw1).
  assert (Hmain : forall inPlace f,
            rewritePath (Buffer (w0 ++ v ++ w1) cap) path val inPlace = Fail f ->
            f = PathRange).
  { intros inPlace f. unfold rewritePath. destruct path as [|c path].
    - destruct inPlace; [destruct (_ <=? _)|]; discriminate.
    - cbn [bytes]. unfold locatePath.
      assert (Hst : state_ok (w0 ++ v ++ w1) 0).
      { left. exists [], w0, v, w1. repeat split; try assumption.
        now apply follow_ok_all_ws. }
      pose proof (loop_safe (w0 ++ v ++ w1) (c :: path) (length (c :: path) + 2) 0 0 Hst
                    ltac:(pose proof (len_nonneg (c :: path)); lia)
                    ltac:(unfold len; lia)) as Hloop.
      destruct (locate_loop _ _ _ 0 0) as [[i' j'|k acc|]|f']; cbn [bind loop_good] in *.
      + contradiction.
      + destruct (rewriteAt_target _ k acc val inPlace Hloop) as [r ->]. discriminate.
      + discriminate.
      + intros [= <-]. exact Hloop. }
  split; [exact Hmain|]. split; [exact (Hmain false)|].
  split; [exact (Hmain true)|]. split; [exact (Hmain true)|]. split.
  - intros acc.
    destruct (locateAccessor_places [] w0 v w1 acc Hw0 Hv (follow_ok_all_ws w1 Hw1))
      as (r & Hr & _).
    now exists r.
  - intros w0' v' w1' E Hw0' Hv' Hw1'. rewrite E.
    rewrite consumeWhitespace_value by assumption.
    apply consumeValue_wf; [assumption | now apply follow_ok_all_ws].
Qed.

(** A document with whitespace around it, and a path through an object and
    an array down to [null]. *)
Lemma C2_witness :
  wf_document (js " {'a':[1,null]} ")
  /\ (forall f, Set_ (doc " {'a':[1,null]} ") (js "a.1.0") (js "7") = Fail f ->
        f = PathRange)
  /\ (forall f, SetInPlace (doc " {'a':[1,null]} ") (js "a.1.0") (js "7") = Fail f ->
        f = PathRange)
  /\ (forall acc, exists r, locateAccessor (js " {'a':[1,null]} ") acc = Ok r).
Proof.
  assert (Hwf : wf_document (js " {'a':[1,null]} ")).
  { exists [" "],
      (render_object []
         [Member [] (js "a") [] []
            (render_array [] [Element [] (js "1") []; Element [] null []]) []]),
      [" "].
    split; [reflexivity|]. split; [ws_tac|]. split; [|ws_tac].
    apply wf_object; [ws_tac|].
    apply wf_members_cons; cbn [m_pre m_key m_mid m_sep m_val m_post];
      [ws_tac | str_tac | ws_tac | ws_tac | | ws_tac | constructor].
    apply wf_array; [ws_tac|].
    apply wf_elements_cons; cbn [e_pre e_val e_post];
      [ws_tac | num_tac | ws_tac |].
    apply wf_elements_cons; cbn [e_pre e_val e_post];
      [ws_tac | apply wf_null | ws_tac | constructor]. }
  split; [exact Hwf|].
  destruct (C2_well_formed_documents_stay_in_bounds
              (js " {'a':[1,null]} ") (len (js " {'a':[1,null]} "))
              (js "a.1.0") (js "7") Hwf) as (_ & H1 & H2 & _ & H3 & _).
  split; [exact H1|]. split; [exact H2|exact H3].
Defined.

(** A document cut short takes the scanner past the end of the buffer, or
    leaves the loop over a nested value without progress. *)
Lemma C2_counterexample :
  locateAccessor (js "{") (js "a") = Fail BufferRange
  /\ Set_ (doc "{") (js "a") (js "5") = Fail BufferRange
  /\ SetInPlace (doc "[") (js "0") (js "5") = Fail BufferRange
  /\ consumeValue (js "t") = Fail BufferRange
  /\ Set_ (doc "{'a':{'") (js "b") (js "5") = Fail NoProgress.
Proof. repeat split; vm_compute; reflexivity. Qed.

(* ------------------------------------------------------------------ *)
(** * More about the scanner *)

(** The bytes [consumeWhitespace] and [prevChar] skip. *)
Lemma nonspace_false (c : byte) :
  nonspace c = false <-> c = " " \/ c = x09 \/ c = x0a \/ c = x0d.
Proof.
  destruct c; vm_compute; split; intros H; try discriminate H; auto;
    destruct H as [H|[H|[H|H]]]; discriminate H.
Qed.

(** X1: [consumeWhitespace] never fails and cuts its argument after the
    longest prefix of spaces, tabs, line feeds and carriage returns: what it
    returns is empty or starts with another byte. *)
Theorem X1_consumeWhitespace_cuts_the_blank_prefix (json : list byte) :
  exists w,
    json = w ++ consumeWhitespace json
    /\ Forall (fun c => c = " " \/ c = x09 \/ c = x0a \/ c = x0d) w
    /\ match consumeWhitespace json with
       | [] => True
       | c :: _ => c <> " " /\ c <> x09 /\ c <> x0a /\ c <> x0d
       end.
Proof.
  induction json as [|c tl (w & E & Hw & Hhead)].
  - exists []. repeat split. constructor.
  - cbn [consumeWhitespace]. destruct (nonspace c) eqn:Hc.
    + exists []. split; [reflexivity|]. split; [constructor|].
      assert (H : ~ (c = " " \/ c = x09 \/ c = x0a \/ c = x0d)).
      { intros H. apply nonspace_false in H. congruence. }
      tauto.
    + exists (c :: w). split; [cbn [app]; now f_equal|].
      split; [|exact Hhead]. constructor; [now apply nonspace_false|exact Hw].
Qed.

(** Every text after an opening quote either is closed by a quote that no
    backslash escapes, or is not closed. *)
Lemma str_body_or_open (s : list byte) :
  (exists b rest, s = b ++ quote :: rest /\ str_body b) \/ str_open s.
Proof.
  induction s as [s IH] using (induction_ltof1 _ (@length byte)).
  unfold ltof in IH.
  destruct s as [|c s]; [right; constructor|].
  destruct (Byte.eqb c quote) eqn:Hq.
  { apply eqb_eq in Hq. subst c. left. exists [], s. split; [reflexivity|constructor]. }
  destruct (Byte.eqb c backslash) eqn:Hb.
  - apply eqb_eq in Hb. subst c. destruct s as [|d s]; [right; constructor|].
    destruct (IH s ltac:(simpl; lia)) as [(b & rest & -> & Hbody)|Hopen].
    + left. exists (backslash :: d :: b), rest. split; [reflexivity|now constructor].
    + right. now constructor.
  - destruct (IH s ltac:(simpl; lia)) as [(b & rest & -> & Hbody)|Hopen].
    + left. exists (c :: b), rest. split; [reflexivity|now constructor].
    + right. now constructor.
Qed.

Lemma string_scan_open (json s : list byte) : str_open s -> string_scan json s = json.
Proof.
  induction 1 as [| |c s Hq Hb _ IH|c s _ IH]; cbn [string_scan].
  - reflexivity.
  - byte_tests. reflexivity.
  - now rewrite Hq, Hb.
  - byte_tests. exact IH.
Qed.

(** X2: [consumeString] does not look at the first byte of its argument and
    returns what follows the first double quote after it that no backslash
    escapes: a backslash takes the byte after it along, a double quote or
    another backslash included. *)
Theorem X2_consumeString_ends_after_the_closing_quote (c : byte) (body rest : list byte) :
  str_body body -> consumeString (c :: body ++ quote :: rest) = rest.
Proof.
  intros Hbody. cbn [consumeString]. now apply string_scan_body.
Qed.

Lemma X2_witness :
  consumeString (js "'foo\'bar':'baz'") = js ":'baz'"
  /\ consumeString (js "xfoo\\':'baz'") = js ":'baz'".
Proof.
  split.
  - apply (X2_consumeString_ends_after_the_closing_quote quote (js "foo\'bar") (js ":'baz'")).
    str_tac.
  - apply (X2_consumeString_ends_after_the_closing_quote "x" (js "foo\\") (js ":'baz'")).
    str_tac.
Defined.

(** X3: on a string that is not closed [consumeString] returns its argument
    as it is, all of it, and [parseString], which takes the bytes between
    the first byte and the closing quote, slices [json[1:-1]] and fails; so
    does it on the empty buffer. *)
Theorem X3_unclosed_string (c : byte) (s : list byte) :
  str_open s ->
  consumeString (c :: s) = c :: s
  /\ parseString (c :: s) = Fail BufferRange
  /\ parseString [] = Fail BufferRange.
Proof.
  intros Hopen.
  assert (E : consumeString (c :: s) = c :: s)
    by (cbn [consumeString]; now apply string_scan_open).
  split; [exact E|]. split; [|reflexivity].
  unfold parseString. rewrite E. cbv zeta.
  replace (len (c :: s) - len (c :: s) - 2) with (-2) by lia.
  unfold slice. replace (1 <=? 1 + -2) with false by reflexivity.
  rewrite andb_false_r. reflexivity.
Qed.

Lemma X3_witness :
  consumeString (js "'foo\'") = js "'foo\'"
  /\ parseString (js "'foo\'") = Fail BufferRange
  /\ parseString [] = Fail BufferRange.
Proof.
  apply (X3_unclosed_string quote (js "foo\'")).
  vm_compute. repeat first [apply open_nil | apply open_escape
                           | apply open_plain; [reflexivity|reflexivity|]].
Defined.

(** The bytes [consumeNumber] takes for a number. *)
Lemma numchar_true (c : byte) :
  numchar c = true <-> In c (list_byte_of_string "0123456789+-.eE").
Proof.
  destruct c; vm_compute; split; intros H; try discriminate H; auto 20;
    repeat (destruct H as [H|H]; [discriminate H|]); contradiction.
Qed.

(** X4: [consumeNumber] never fails and cuts its argument after the longest
    prefix of digits, signs, dots and the letters e and E, whether that
    prefix is a number or not; on a byte of another kind it returns its
    argument, and so does [consumeValue], for which every byte that opens no
    other value opens a number. *)
Theorem X4_consumeNumber_cuts_the_number_bytes (json : list byte) :
  (exists n,
     json = n ++ consumeNumber json
     /\ Forall (fun c => In c (list_byte_of_string "0123456789+-.eE")) n
     /\ match consumeNumber json with
        | [] => True
        | c :: _ => ~ In c (list_byte_of_string "0123456789+-.eE")
        end)
  /\ match json with
     | [] => True
     | c :: _ =>
         ~ In c (list_byte_of_string "0123456789+-.eE{[tnf") -> c <> quote ->
         consumeValue json = Ok json
     end.
Proof.
  split.
  - induction json as [|c tl (n & E & Hn & Hhead)].
    + exists []. repeat split. constructor.
    + cbn [consumeNumber]. destruct (numchar c) eqn:Hc.
      * exists (c :: n). split; [cbn [app]; now f_equal|].
        split; [|exact Hhead]. constructor; [now apply numchar_true|exact Hn].
      * exists []. split; [reflexivity|]. split; [constructor|].
        intros H. apply numchar_true in H. congruence.
  - destruct json as [|c tl]; [exact I|]. intros Hc Hq.
    unfold consumeValue. rewrite index_zero, bind_ok.
    assert (Hn : numchar c = false).
    { destruct (numchar c) eqn:E; [|reflexivity]. apply numchar_true in E.
      exfalso. apply Hc. simpl in E |- *. tauto. }
    replace (Byte.eqb c "{") with false
      by (symmetry; apply eqb_neq; intros ->; apply Hc; simpl; tauto).
    replace (Byte.eqb c "[") with false
      by (symmetry; apply eqb_neq; intros ->; apply Hc; simpl; tauto).
    replace (Byte.eqb c quote) with false by (symmetry; now apply eqb_neq).
    replace (Byte.eqb c "t") with false
      by (symmetry; apply eqb_neq; intros ->; apply Hc; simpl; tauto).
    replace (Byte.eqb c "n") with false
      by (symmetry; apply eqb_neq; intros ->; apply Hc; simpl; tauto).
    replace (Byte.eqb c "f") with false
      by (symmetry; apply eqb_neq; intros ->; apply Hc; simpl; tauto).
    cbn [orb consumeNumber]. now rewrite Hn.
Qed.

Lemma X4_witness :
  consumeValue (js "xyz") = Ok (js "xyz").
Proof.
  apply (proj2 (X4_consumeNumber_cuts_the_number_bytes (js "xyz"))).
  - vm_compute. intros H. repeat (destruct H as [H|H]; [discriminate H|]). contradiction.
  - discriminate.
Defined.

(** X5: [consumeValue] stops exactly at the end of a well-formed value,
    whatever its nesting and whatever delimiters its strings hold, and
    returns what follows it.  What follows is free, except after a number,
    which ends only at a byte that is no number byte. *)
Theorem X5_consumeValue_stops_at_the_end_of_the_value (v s : list byte) :
  wf_value v -> (num_body v -> follow_ok s) -> consumeValue (v ++ s) = Ok s.
Proof.
  intros Hv Hs. destruct Hv as [ | | |v Hv|b Hb|w es Hw Hes|w ms Hw Hms].
  - apply (slice_from_app_len BufferRange ["n"; "u"; "l"; "l"]).
  - apply (slice_from_app_len BufferRange ["t"; "r"; "u"; "e"]).
  - apply (slice_from_app_len BufferRange ["f"; "a"; "l"; "s"; "e"]).
  - apply consumeValue_wf; [now apply wf_number | now apply Hs].
  - unfold consumeValue. cbn [app]. rewrite index_zero, bind_ok.
    byte_tests. rewrite <- app_assoc. cbn [app].
    now rewrite consumeString_string.
  - unfold consumeValue, render_array. cbn [app]. rewrite index_zero, bind_ok.
    byte_tests. rewrite <- !app_assoc. cbn [app]. unfold consumeArray.
    rewrite app_assoc. apply consumeNested_body; [now right|].
    intros n r Hn H. rewrite <- app_assoc.
    apply runs_skip_all; [assumption | apply ws_plain; [now right | assumption] |].
    now apply (scan_wf "[" "]" ltac:(now right)).
  - unfold consumeValue, render_object. cbn [app]. rewrite index_zero, bind_ok.
    byte_tests. rewrite <- !app_assoc. cbn [app]. unfold consumeObject.
    rewrite app_assoc. apply consumeNested_body; [now left|].
    intros n r Hn H. rewrite <- app_assoc.
    apply runs_skip_all; [assumption | apply ws_plain; [now left | assumption] |].
    now apply (scan_wf "{" "}" ltac:(now left)).
Qed.

Lemma X5_witness :
  consumeValue (js "{'}':['}{']}3") = Ok (js "3").
Proof.
  apply (X5_consumeValue_stops_at_the_end_of_the_value
           (render_object []
              [Member [] (js "}") [] []
                 (render_array [] [Element [] (js "'}{'") []]) []])
           (js "3")).
  - apply wf_object; [ws_tac|].
    apply wf_members_cons; cbn [m_pre m_key m_mid m_sep m_val m_post];
      [ws_tac | str_tac | ws_tac | ws_tac | | ws_tac | constructor].
    apply wf_array; [ws_tac|].
    apply wf_elements_cons; cbn [e_pre e_val e_post];
      [ws_tac | apply (wf_string (js "}{")); str_tac | ws_tac | constructor].
  - intros [H _]. discriminate H.
Defined.

Lemma string_scan_suffix (json l : list byte) :
  (exists p, json = p ++ l) -> exists p, json = p ++ string_scan json l.
Proof.
  revert json. induction l as [l IH] using (induction_ltof1 _ (@length byte)).
  unfold ltof in IH. intros json [p E].
  destruct l as [|c l]; cbn [string_scan]; [now exists []|].
  destruct (Byte.eqb c quote).
  { exists (p ++ [c]). now rewrite <- app_assoc. }
  destruct (Byte.eqb c backslash).
  - destruct l as [|d l]; [now exists []|].
    apply IH; [simpl; lia|]. exists (p ++ [c; d]). now rewrite <- app_assoc.
  - apply IH; [simpl; lia|]. exists (p ++ [c]). now rewrite <- app_assoc.
Qed.

Lemma consumeString_suffix (json : list byte) : exists p, json = p ++ consumeString json.
Proof.
  destruct json as [|c l]; [now exists []|].
  cbn [consumeString]. apply string_scan_suffix. now exists [c].
Qed.

Lemma consumeNumber_suffix (json : list byte) : exists p, json = p ++ consumeNumber json.
Proof.
  induction json as [|c tl [p E]]; [now exists []|].
  cbn [consumeNumber]. destruct (numchar c); [|now exists []].
  exists (c :: p). cbn [app]. now f_equal.
Qed.

Lemma slice_from_suffix (f : failure) (s : list byte) (i : Z) (r : list byte) :
  slice_from f s i = Ok r -> exists p, s = p ++ r.
Proof.
  intros H. apply slice_from_ok in H as (_ & _ & E). eauto.
Qed.

Lemma suffix_trans (a b c : list byte) :
  (exists p, a = p ++ b) -> (exists q, b = q ++ c) -> exists r, a = r ++ c.
Proof. intros [p ->] [q ->]. exists (p ++ q). now rewrite app_assoc. Qed.

Lemma consumeNested_loop_suffix (opening closing : byte) (fuel : nat) :
  forall n s r,
    consumeNested_loop opening closing fuel n s = Ok r -> exists p, s = p ++ r.
Proof.
  induction fuel as [|fuel IH]; intros n s r H; cbn [consumeNested_loop] in H.
  - destruct (n >? 0); [discriminate H|]. injection H as <-. now exists [].
  - destruct (n >? 0); [|injection H as <-; now exists []].
    bind_inv H. apply slice_from_suffix in E.
    bind_inv H. eapply suffix_trans; [exact E|]. clear E.
    destruct (Byte.eqb a0 opening).
    { bind_inv H. apply slice_from_suffix in E. apply IH in H.
      eapply suffix_trans; eassumption. }
    destruct (Byte.eqb a0 closing).
    { bind_inv H. apply slice_from_suffix in E. apply IH in H.
      eapply suffix_trans; eassumption. }
    destruct (Byte.eqb a0 quote); [|discriminate H].
    destruct (_ =? _); [discriminate H|]. apply IH in H.
    eapply suffix_trans; [apply consumeString_suffix|exact H].
Qed.

Lemma consumeNested_suffix (opening closing : byte) (s r : list byte) :
  consumeNested opening closing s = Ok r -> exists p, s = p ++ r.
Proof.
  unfold consumeNested. intros H. bind_inv H.
  apply slice_from_suffix in E. apply consumeNested_loop_suffix in H.
  eapply suffix_trans; eassumption.
Qed.

(** X6: on every input, well formed or not, what [consumeValue] returns
    when it returns is the end of its argument: the scanner only moves
    forward, and hands back bytes of the buffer at their place. *)
Theorem X6_consumeValue_returns_a_suffix (json rest : list byte) :
  consumeValue json = Ok rest -> exists value, json = value ++ rest.
Proof.
  unfold consumeValue. intros H. bind_inv H.
  destruct (Byte.eqb a "{"); [now apply consumeNested_suffix in H|].
  destruct (Byte.eqb a "["); [now apply consumeNested_suffix in H|].
  destruct (Byte.eqb a quote); [injection H as <-; apply consumeString_suffix|].
  destruct (_ || _); [now apply slice_from_suffix in H|].
  destruct (Byte.eqb a "f"); [now apply slice_from_suffix in H|].
  injection H as <-. apply consumeNumber_suffix.
Qed.

Lemma X6_witness :
  exists value, js "{'a':[}x" = value ++ js "x".
Proof.
  apply (X6_consumeValue_returns_a_suffix (js "{'a':[}x") (js "x")).
  reflexivity.
Defined.

(** X7: [prevChar(json, i)] returns the last byte before [i] that is no
    whitespace, also for [i = len(json)]; when there is nothing but
    whitespace before [i] it returns [json[i]] itself, whitespace or not, and
    fails when there is no such byte. *)
Theorem X7_prevChar_skips_whitespace_backwards (p w s : list byte) (c d : byte) :
  all_ws w ->
  (nonspace c = true -> prevChar (p ++ c :: w ++ s) (len (p ++ c :: w)) = Ok c)
  /\ prevChar (w ++ d :: s) (len w) = Ok d
  /\ prevChar w (len w) = Fail BufferRange.
Proof.
  intros Hw. split; [intros Hc; now apply prevChar_last|].
  assert (Hgen : forall tail k,
             (k <= length w)%nat ->
             prevChar_from (w ++ tail) k (len w) = index BufferRange (w ++ tail) (len w)).
  { intros tail k. induction k as [|k IH]; intros Hk; cbn [prevChar_from]; [reflexivity|].
    assert (Hin : (k < length w)%nat) by lia.
    assert (Hix : index BufferRange (w ++ tail) (Z.of_nat k) = Ok (nth k w x00)).
    { unfold index. rewrite len_app. unfold len.
      replace (0 <=? Z.of_nat k) with true by (symmetry; apply Z.leb_le; lia).
      replace (Z.of_nat k <? Z.of_nat (length w) + Z.of_nat (length tail)) with true
        by (symmetry; apply Z.ltb_lt; lia).
      cbn [andb]. now rewrite Nat2Z.id, app_nth1 by assumption. }
    rewrite Hix, bind_ok.
    assert (Hk' : nonspace (nth k w x00) = false).
    { unfold all_ws in Hw. rewrite Forall_forall in Hw. apply Hw. now apply nth_In. }
    rewrite Hk'. apply IH. lia. }
  unfold prevChar. rewrite len_to_nat. split.
  - rewrite Hgen by lia. apply index_app_len.
  - pose proof (Hgen [] (length w) ltac:(lia)) as H. rewrite app_nil_r in H.
    rewrite H. unfold index. rewrite Z.ltb_irrefl, andb_false_r. reflexivity.
Qed.

Lemma X7_witness :
  prevChar (js "[1 , ]") 5 = Ok ","
  /\ prevChar (js "  }") 2 = Ok "}"
  /\ prevChar (js "  ") 2 = Fail BufferRange.
Proof.
  split; [|split].
  - apply (proj1 (X7_prevChar_skips_whitespace_backwards
                    (js "[1 ") (js " ") (js "]") "," "x" ltac:(ws_tac))).
    reflexivity.
  - apply (proj1 (proj2 (X7_prevChar_skips_whitespace_backwards
                           [] (js "  ") [] "x" "}" ltac:(ws_tac)))).
  - apply (proj2 (proj2 (X7_prevChar_skips_whitespace_backwards
                           [] (js "  ") [] "x" "x" ltac:(ws_tac)))).
Defined.

(* ------------------------------------------------------------------ *)
(** * More about the locator *)

Lemma consumeSeparator_shorter (s r : list byte) :
  consumeSeparator s = Ok r -> len r < len s.
Proof.
  unfold consumeSeparator. intros H. bind_inv H. injection H as <-.
  apply slice_from_len in E. pose proof (consumeWhitespace_len a). lia.
Qed.

Lemma object_loop_shift (fuel : nat) :
  forall origLen d acc s,
    object_loop fuel (origLen + d) acc s =
      (r <- object_loop fuel origLen acc s ;; Ok (r + d)).
Proof.
  induction fuel as [|fuel IH]; intros origLen d acc s.
  - cbn [object_loop]. destruct (index BufferRange s 0); [|reflexivity].
    cbn [bind]. destruct (negb _); [reflexivity|]. cbn [bind]. f_equal. lia.
  - rewrite !object_loop_unfold. destruct (index BufferRange s 0); [|reflexivity].
    cbn [bind]. destruct (negb _); [|cbn [bind]; f_equal; lia].
    destruct (parseString s) as [[key s1]|]; [|reflexivity]. cbn [bind].
    destruct (consumeSeparator _); [|reflexivity]. cbn [bind].
    destruct (bytes_eqb key acc); [cbn [bind]; f_equal; lia|].
    destruct (consumeValue _); [|reflexivity]. cbn [bind].
    destruct (index BufferRange _ 0); [|reflexivity]. cbn [bind].
    destruct (if Byte.eqb _ "," then _ else _); [|reflexivity]. cbn [bind].
    apply IH.
Qed.

(** X8: offsets count from the start of the buffer the locator is given:
    whitespace before the container moves the answer by its length, and
    changes nothing else, on every input. *)
Theorem X8_locateAccessor_counts_leading_whitespace (w json acc : list byte) :
  all_ws w ->
  locateAccessor (w ++ json) acc =
    (r <- locateAccessor json acc ;; Ok (if r =? -1 then -1 else len w + r)).
Proof.
  intros Hw. unfold locateAccessor.
  rewrite consumeWhitespace_ws by assumption.
  pose proof (consumeWhitespace_len json) as Hlen.
  set (j := consumeWhitespace json) in *.
  destruct (_ || _); [reflexivity|].
  destruct (index BufferRange j 0) as [c|]; [|reflexivity]. cbn [bind].
  destruct (Byte.eqb c "{").
  { destruct (consumeSeparator j) as [j1|] eqn:E1; [|reflexivity]. cbn [bind].
    apply consumeSeparator_shorter in E1.
    rewrite len_app, (Z.add_comm (len w)), object_loop_shift.
    destruct (object_loop _ (len json) acc j1) as [r|] eqn:E2; [|reflexivity].
    cbn [bind]. apply object_loop_range in E2.
    replace (r =? -1) with false by (symmetry; apply Z.eqb_neq; lia).
    f_equal. lia. }
  destruct (Byte.eqb c "[").
  { destruct (Atoi acc) as [n|]; [|reflexivity].
    destruct (n <? 0); [reflexivity|].
    destruct (consumeSeparator j) as [j1|] eqn:E1; [|reflexivity]. cbn [bind].
    apply consumeSeparator_shorter in E1.
    destruct (array_loop _ n 0 j1) as [[j2 arrayLen]|] eqn:E2; [|reflexivity].
    cbn [bind]. apply array_loop_len in E2.
    destruct (n >? arrayLen); [reflexivity|]. cbn [bind].
    replace (len json - len j2 =? -1) with false by (symmetry; apply Z.eqb_neq; lia).
    f_equal. rewrite len_app. lia. }
  destruct (Byte.eqb c "n"); [|reflexivity].
  destruct (Atoi acc) as [[| |]|]; try reflexivity.
  destruct (slice_from BufferRange j 3) as [j1|] eqn:E1; [|reflexivity]. cbn [bind].
  apply slice_from_len in E1.
  replace (len json - len j1 =? -1) with false by (symmetry; apply Z.eqb_neq; lia).
  f_equal. rewrite len_app. lia.
Qed.

Lemma X8_witness :
  locateAccessor (js "  {'foo':0}") (js "foo")
  = (r <- locateAccessor (js "{'foo':0}") (js "foo") ;;
     Ok (if r =? -1 then -1 else len (js "  ") + r)).
Proof.
  apply (X8_locateAccessor_counts_leading_whitespace (js "  ") (js "{'foo':0}") (js "foo")).
  ws_tac.
Defined.

(** X9: on every input, well formed or not, the locator answers [-1] or an
    offset after the first byte of its buffer and not beyond its end. *)
Theorem X9_locateAccessor_answers_in_range (json acc : list byte) (r : Z) :
  locateAccessor json acc = Ok r -> r = -1 \/ 1 <= r <= len json.
Proof.
  unfold locateAccessor. intros H.
  pose proof (consumeWhitespace_len json) as Hw.
  destruct (_ || _); [injection H as <-; now left|].
  bind_inv H. destruct (Byte.eqb a "{").
  { bind_inv H. apply consumeSeparator_shorter in E0. apply object_loop_range in H.
    right. lia. }
  destruct (Byte.eqb a "[").
  { destruct (Atoi acc) as [n|]; [|injection H as <-; now left].
    destruct (n <? 0); [injection H as <-; now left|].
    bind_inv H. apply consumeSeparator_shorter in E0. bind_inv H.
    destruct a1 as [s' a'].
    apply array_loop_len in E1.
    destruct (n >? a'); injection H as <-; [now left|right].
    pose proof (len_nonneg s'). lia. }
  destruct (Byte.eqb a "n"); [|injection H as <-; now left].
  destruct (Atoi acc) as [[| |]|]; try (injection H as <-; now left).
  bind_inv H. apply slice_from_len in E0. injection H as <-. right.
  pose proof (len_nonneg a0). lia.
Qed.

Lemma X9_witness : 1 = -1 \/ 1 <= 1 <= len (js "[").
Proof.
  apply (X9_locateAccessor_answers_in_range (js "[") (js "0") 1). reflexivity.
Defined.

(* ------------------------------------------------------------------ *)
(** * More about the rewriter *)

(** The first iteration of the accessor loop on a buffer in which the
    locator finds nothing. *)
Lemma iteration_first_none (json path : list byte) :
  (forall acc, locateAccessor json acc = Ok (-1)) ->
  iteration json path 0 0 = Ok Reject.
Proof.
  intros Hnone. unfold iteration. rewrite slice_from_zero, bind_ok. cbv zeta.
  set (dotIndex := if IndexByte path "." =? -1 then len path else IndexByte path ".").
  assert (Hd : 0 <= dotIndex <= len path).
  { unfold dotIndex. pose proof (index_where_bounds (fun d => Byte.eqb d ".") path 0) as Hb.
    fold (IndexByte path ".") in Hb. pose proof (len_nonneg path).
    destruct (IndexByte path "." =? -1) eqn:E1; [lia|]. apply Z.eqb_neq in E1. lia. }
  destruct (slice_ok PathRange path 0 (0 + dotIndex) ltac:(lia) ltac:(lia)) as [acc ->].
  now rewrite bind_ok, slice_from_zero, bind_ok, Hnone, bind_ok.
Qed.

(** X10: a buffer that holds no object, no array and no [null] (a string, a
    number, [true], [false], nothing but whitespace, nothing at all, or no
    JSON) has no members: with every path that is not empty the three
    functions return the buffer itself, untouched. *)
Theorem X10_scalars_have_no_members (json : list byte) (cap : Z) (path val : list byte)
  (inPlace : bool) :
  path <> [] ->
  match consumeWhitespace json with
  | [] => True
  | c :: _ => c <> "{" /\ c <> "[" /\ c <> "n"
  end ->
  rewritePath (Buffer json cap) path val inPlace = Ok (return_json json).
Proof.
  intros Hpath Hhead.
  assert (Hnone : forall acc, locateAccessor json acc = Ok (-1)).
  { intros acc. unfold locateAccessor.
    destruct (consumeWhitespace json) as [|c tl]; [reflexivity|].
    destruct (_ || _); [reflexivity|]. rewrite index_zero, bind_ok.
    destruct Hhead as (H1 & H2 & H3).
    apply eqb_neq in H1, H2, H3. now rewrite H1, H2, H3. }
  unfold rewritePath. destruct path as [|c path]; [contradiction|].
  cbn [bytes]. unfold locatePath.
  replace (length (c :: path) + 2)%nat with (S (length path + 2)) by (simpl; lia).
  rewrite locate_loop_unfold, iteration_first_none by assumption.
  reflexivity.
Qed.

Lemma X10_witness :
  Set_ (doc "'{\'foo\': 3}'") (js "foo") (js "7") = Ok (return_json (js "'{\'foo\': 3}'"))
  /\ SetInPlace (doc "  ") (js "foo.0") (js "7") = Ok (return_json (js "  ")).
Proof.
  split.
  - apply (X10_scalars_have_no_members (js "'{\'foo\': 3}'")
             (len (js "'{\'foo\': 3}'")) (js "foo") (js "7") false).
    + discriminate.
    + cbn. repeat split; discriminate.
  - apply (X10_scalars_have_no_members (js "  ") (len (js "  ")) (js "foo.0") (js "7") true).
    + discriminate.
    + exact I.
Defined.

Lemma index_where_absent (p : byte -> bool) (s : list byte) :
  forall i, index_where p i s = -1 -> 0 <= i -> Forall (fun c => p c = false) s.
Proof.
  induction s as [|c tl IH]; intros i H Hi; [constructor|].
  cbn [index_where] in H. destruct (p c) eqn:Hc; [lia|].
  constructor; [assumption|]. apply (IH (i + 1)); [assumption|lia].
Qed.

Lemma skipn_ends_in_dot (p : list byte) (k : nat) :
  skipn k (p ++ ["."]) = [] \/ exists q, skipn k (p ++ ["."]) = q ++ ["."].
Proof.
  revert k. induction p as [|c p IH]; intros k.
  - destruct k as [|k]; [right; now exists []|left]. cbn [app skipn]. now destruct k.
  - destruct k as [|k]; [right; now exists (c :: p)|]. cbn [app skipn]. apply IH.
Qed.

(** An iteration of the accessor loop ends the loop with a last accessor
    only when no dot is left in the path. *)
Lemma iteration_done_last (json path : list byte) (i j k : Z) (acc : list byte) :
  iteration json path i j = Ok (Done k acc) ->
  slice_from PathRange path j = Ok acc /\ acc <> [] /\ dot_free acc.
Proof.
  unfold iteration. intros H. bind_inv H. cbv zeta in H.
  bind_inv H. bind_inv H. bind_inv H.
  destruct (a2 =? -1); [discriminate H|]. bind_inv H.
  destruct (_ && _); [discriminate H|].
  destruct (IndexByte a "." =? -1) eqn:Hdot.
  - destruct (bytes_eqb a []) eqn:Ha; [discriminate H|].
    injection H as _ <-. split; [reflexivity|].
    split; [now apply bytes_eqb_neq|].
    apply Z.eqb_eq in Hdot. unfold IndexByte in Hdot.
    apply (index_where_absent _ _ 0 Hdot). lia.
  - cbn [bytes_eqb] in H. discriminate H.
Qed.

Lemma locate_loop_dot (json p : list byte) (fuel : nat) :
  forall i j w, locate_loop fuel json (p ++ ["."]) i j = Ok w -> w = Reject.
Proof.
  induction fuel as [|fuel IH]; intros i j w H; [discriminate H|].
  rewrite locate_loop_unfold in H.
  destruct (iteration json (p ++ ["."]) i j) as [[i' j'|k acc|]|f] eqn:Eit;
    cbn [bind] in H.
  - now apply (IH i' j').
  - exfalso. apply iteration_done_last in Eit as (Hs & Hne & Hfree).
    apply slice_from_ok in Hs as (_ & Hs & _).
    destruct (skipn_ends_in_dot p (Z.to_nat j)) as [E|[q E]]; rewrite E in Hs.
    + contradiction.
    + subst acc. apply Forall_app in Hfree as [_ Hfree].
      inversion Hfree as [|? ? Hdot _]. discriminate Hdot.
  - now injection H as <-.
  - discriminate H.
Qed.

(** X11: a path that ends in a dot changes nothing: on every buffer, the
    three functions return the buffer itself, untouched, or fail. *)
Theorem X11_path_ending_in_a_dot_changes_nothing (json : list byte) (cap : Z)
  (p val : list byte) (inPlace : bool) :
  rewritePath (Buffer json cap) (p ++ ["."]) val inPlace = Ok (return_json json)
  \/ exists f, rewritePath (Buffer json cap) (p ++ ["."]) val inPlace = Fail f.
Proof.
  unfold rewritePath. destruct (p ++ ["."]) as [|c path] eqn:Epath.
  { now destruct p. }
  rewrite <- Epath. clear c path Epath. cbn [bytes]. unfold locatePath.
  destruct (locate_loop _ json (p ++ ["."]) 0 0) as [w|f] eqn:E; [|right; now exists f].
  apply locate_loop_dot in E. subst w. now left.
Qed.

(** The locator on a key of an object: the guard on the length of the
    accessor holds, since the key is part of the text. *)
Lemma locateAccessor_member (w0 w : list byte) (ms1 : list member) (m : member)
  (ms2 : list member) (rest : list byte) :
  all_ws w0 -> all_ws w -> wf_members (ms1 ++ m :: ms2) ->
  Forall (fun x => m_key x <> m_key m) ms1 ->
  locateAccessor (w0 ++ render_object w (ms1 ++ m :: ms2) ++ rest) (m_key m)
  = Ok (len (w0 ++ "{" :: w ++ members_before ms1 ++ member_head m)).
Proof.
  intros Hw0 Hw Hms Hne. rewrite locateAccessor_object by assumption.
  rewrite (member_offset_first (m_key m) ms1 m ms2 Hne eq_refl).
  replace (_ <? len (m_key m)) with false.
  - f_equal. lens. lia.
  - symmetry. apply Z.ltb_ge. unfold render_object. rewrite render_members_split.
    unfold member_head. lens. lia.
Qed.

(** A member with another value. *)
Lemma object_with_value (w0 w : list byte) (ms1 : list member)
  (mpre key mmid msep v mpost : list byte) (ms2 : list member) (rest : list byte) :
  w0 ++ render_object w (ms1 ++ Member mpre key mmid msep v mpost :: ms2) ++ rest
  = (w0 ++ "{" :: w ++ members_before ms1
       ++ member_head (Member mpre key mmid msep v mpost))
      ++ v ++ (mpost ++ members_after ms2 ++ "}" :: rest).
Proof. apply object_around_member. Qed.

(** The accessor loop on the key of a member of an object it has reached. *)
Lemma rewritePath_at_member (pre w0 w : list byte) (ms1 : list member) (m : member)
  (ms2 : list member) (rest p0 val : list byte) (cap : Z) (inPlace : bool) :
  reaches (pre ++ w0 ++ render_object w (ms1 ++ m :: ms2) ++ rest) (p0 ++ m_key m)
    (len pre) (len p0) ->
  dot_free (m_key m) -> m_key m <> [] ->
  all_ws w0 -> all_ws w -> wf_members (ms1 ++ m :: ms2) ->
  Forall (fun x => m_key x <> m_key m) ms1 ->
  pre ++ w0 ++ render_object w (ms1 ++ m :: ms2) ++ rest
  = (pre ++ w0 ++ "{" :: w ++ members_before ms1 ++ member_head m)
      ++ m_val m ++ (m_post m ++ members_after ms2 ++ "}" :: rest)
  /\ wf_value (m_val m)
  /\ follow_ok (m_post m ++ members_after ms2 ++ "}" :: rest)
  /\ rewritePath (Buffer (pre ++ w0 ++ render_object w (ms1 ++ m :: ms2) ++ rest) cap)
       (p0 ++ m_key m) val inPlace
     = rewriteAt (pre ++ w0 ++ render_object w (ms1 ++ m :: ms2) ++ rest)
         (len (pre ++ w0 ++ "{" :: w ++ members_before ms1 ++ member_head m))
         (m_key m) val inPlace.
Proof.
  intros Hr Hd Hne Hw0 Hw Hms Hfirst.
  pose proof Hms as Hms'.
  apply wf_members_app in Hms' as [_ Hm].
  inversion Hm as [|? ? Hpre Hkey Hmid Hsep Hval Hpost _]; subst.
  assert (E : pre ++ w0 ++ render_object w (ms1 ++ m :: ms2) ++ rest
              = (pre ++ w0 ++ "{" :: w ++ members_before ms1 ++ member_head m)
                  ++ m_val m ++ (m_post m ++ members_after ms2 ++ "}" :: rest)).
  { rewrite (object_around_member w0 w ms1 m ms2 rest). norm_app. reflexivity. }
  split; [exact E|]. split; [exact Hval|]. split.
  { apply follow_ok_after; [assumption | now left | apply items_after_shape]. }
  rewrite (rewritePath_done _ cap _ _ _
             (len pre + len (w0 ++ "{" :: w ++ members_before ms1 ++ member_head m))
             (m_key m) val inPlace (app_not_nil_r p0 (m_key m) Hne) Hr).
  - f_equal. lens. lia.
  - apply iteration_last_at; try assumption.
    + now apply locateAccessor_member.
    + rewrite (object_around_member w0 w ms1 m ms2 rest).
      destruct (wf_value_head _ Hval) as (c & tl & Ev & _). rewrite Ev. lens. lia.
Qed.

(** The splice on a [null] that the path addresses as a value: the cursor
    is on its first byte. *)
Lemma rewriteAt_null_value (pre rest lastAcc val : list byte) :
  rewriteAt (pre ++ null ++ rest) (len pre) lastAcc val false =
    Ok {| ret := pre ++ "[" :: val ++ "]" :: rest;
          buf := pre ++ null ++ rest;
          shared := false |}.
Proof.
  unfold rewriteAt.
  assert (Hix : index BufferRange (pre ++ null ++ rest) (len pre) = Ok "n")
    by apply index_app_len.
  rewrite Hix, bind_ok. byte_tests. cbv zeta iota.
  rewrite slice_from_app_len, bind_ok.
  replace (consumeValue (null ++ rest)) with (Ok (A := list byte) rest)
    by (symmetry; apply (slice_from_app_len BufferRange null rest)).
  rewrite !bind_ok, slice_prefix, bind_ok, Hix, bind_ok. byte_tests.
  rewrite bind_ok. norm_app. reflexivity.
Qed.

(** X12: for an object that the accessor loop has reached and a last
    accessor that is the key of one of its members, [Set] returns the
    document with the bytes of the value of the first such member replaced
    by the replacement, and every other byte, whitespace included, as it
    was; the buffer is left alone.  When the old value is the literal
    [null], the replacement comes out in brackets. *)
Theorem X12_Set_replaces_the_value_of_an_existing_key (pre w0 w : list byte)
  (ms1 : list member) (mpre key mmid msep old mpost : list byte) (ms2 : list member)
  (rest p0 val : list byte) (cap : Z) :
  let d := fun v =>
    pre ++ w0 ++ render_object w (ms1 ++ Member mpre key mmid msep v mpost :: ms2)
      ++ rest in
  reaches (d old) (p0 ++ key) (len pre) (len p0) ->
  dot_free key -> key <> [] ->
  all_ws w0 -> all_ws w ->
  wf_members (ms1 ++ Member mpre key mmid msep old mpost :: ms2) ->
  Forall (fun x => m_key x <> key) ms1 ->
  Set_ (Buffer (d old) cap) (p0 ++ key) val
  = Ok {| ret := d (if bytes_eqb old null then "[" :: val ++ ["]"] else val);
          buf := d old;
          shared := false |}.
Proof.
  intros d Hr Hd Hne Hw0 Hw Hms Hfirst. unfold Set_.
  destruct (rewritePath_at_member pre w0 w ms1 (Member mpre key mmid msep old mpost)
              ms2 rest p0 val cap false Hr Hd Hne Hw0 Hw Hms Hfirst)
    as (E & Hv & Hf & Hrw).
  cbn [m_key m_val m_post] in *. unfold d. rewrite Hrw. clear Hrw.
  assert (Ed : forall v,
             pre ++ w0
               ++ render_object w (ms1 ++ Member mpre key mmid msep v mpost :: ms2)
               ++ rest
             = (pre ++ w0 ++ "{" :: w ++ members_before ms1
                  ++ member_head (Member mpre key mmid msep old mpost))
                 ++ v ++ (mpost ++ members_after ms2 ++ "}" :: rest)).
  { intros v. rewrite (object_with_value w0 w ms1 mpre key mmid msep v mpost ms2 rest).
    norm_app. reflexivity. }
  rewrite (Ed old) at 1 2. rewrite Ed.
  destruct (bytes_eqb old null) eqn:Hnull.
  - apply bytes_eqb_eq in Hnull. subst old.
    rewrite rewriteAt_null_value. f_equal. f_equal. norm_app. reflexivity.
  - apply bytes_eqb_neq in Hnull. now rewrite rewriteAt_value by assumption.
Qed.

Lemma X12_witness :
  returned (Set_ (doc "{'foo':'bar', 'bar':'quux'}") (js "bar") (js "'baz'"))
  = Ok (js "{'foo':'bar', 'bar':'baz'}").
Proof.
  pose proof (X12_Set_replaces_the_value_of_an_existing_key [] [] []
                [Member [] (js "foo") [] [] (js "'bar'") []]
                (js " ") (js "bar") [] [] (js "'quux'") [] [] [] []
                (js "'baz'") (len (js "{'foo':'bar', 'bar':'quux'}"))) as H.
  cbv zeta in H. unfold returned.
  change (doc "{'foo':'bar', 'bar':'quux'}")
    with (Buffer ([] ++ [] ++ render_object []
                    ([Member [] (js "foo") [] [] (js "'bar'") []]
                       ++ Member (js " ") (js "bar") [] [] (js "'quux'") [] :: []) ++ [])
            (len (js "{'foo':'bar', 'bar':'quux'}"))).
  change (js "bar") with ([] ++ js "bar") at 2.
  rewrite H; [reflexivity | apply reaches_start | repeat constructor | discriminate
             | ws_tac | ws_tac | | ].
  - repeat (apply wf_members_cons; cbn [m_pre m_key m_mid m_sep m_val m_post];
            [ws_tac | str_tac | ws_tac | ws_tac
             | apply (wf_string (js "bar")) || apply (wf_string (js "quux")); str_tac
             | ws_tac | ]).
    constructor.
  - repeat constructor. discriminate.
Defined.


Lemma copy_at_at (a d src : list byte) (i : Z) :
  i = len a -> (length src <= length d)%nat ->
  copy_at (a ++ d) i src = Ok (a ++ src ++ skipn (length src) d).
Proof. intros ->. apply copy_at_spec. Qed.







(** The writes of the in-place branch stay inside the old value. *)
Lemma rewriteAt_in_place_or_same (json : list byte) (i : Z) (acc val : list byte) :
  rewriteAt json i acc val true = rewriteAt json i acc val false
  \/ exists out,
       rewriteAt json i acc val true = Ok (return_json out) /\ len out = len json.
Proof.
  unfold rewriteAt.
  destruct (index BufferRange json i) as [c|]; [|now left]. rewrite !bind_ok. cbv zeta.
  set (b := Byte.eqb c "l" && bytes_eqb acc ["0"]).
  set (i' := if b then i - 3 else i).
  destruct (slice_from BufferRange json i') as [ji|] eqn:Hsl; [|now left].
  rewrite !bind_ok.
  destruct (consumeValue ji) as [rest|] eqn:Hcv; [|now left]. rewrite !bind_ok.
  pose proof (slice_from_len _ _ _ _ Hsl) as [Hi0 Hlen].
  pose proof (consumeValue_len _ _ Hcv) as Hrest.
  pose proof (len_nonneg rest) as Hr0.
  assert (Hji : 0 < len ji).
  { destruct ji; [discriminate Hcv|lens; lia]. }
  destruct (index_in_range BufferRange json i' ltac:(lia)) as [c' Hc'].
  rewrite Hc', !bind_ok.
  set (oldLen := if negb (Byte.eqb c' "}") && negb (Byte.eqb c' "]")
                 then len ji - len rest else 0).
  set (newLen := if b then len val + 2 else len val).
  assert (Hold : 0 <= oldLen <= len ji).
  { unfold oldLen. destruct (negb (Byte.eqb c' "}") && negb (Byte.eqb c' "]")); lia. }
  assert (Hnew : 0 <= newLen /\ (b = true -> 2 <= newLen)).
  { unfold newLen. pose proof (len_nonneg val). destruct b; split; try lia; discriminate. }
  destruct (newLen <=? oldLen) eqn:Efit; [right|now left].
  apply Z.leb_le in Efit.
  assert (Hwrite : exists j,
    (if b
     then json0 <- store json i' "[" ;;
          json1 <- copy_at json0 (i' + 1) val ;;
          store json1 (i' + newLen - 1) "]"
     else copy_at json i' val) = Ok j /\ len j = len json).
  { destruct b.
    - destruct (store_ok json i' "[" ltac:(lia)) as (j0 & -> & H0). rewrite bind_ok.
      destruct (copy_at_ok j0 (i' + 1) val ltac:(lia)) as (j1 & -> & H1). rewrite bind_ok.
      destruct Hnew as [_ Hnew]. specialize (Hnew eq_refl).
      destruct (store_ok j1 (i' + newLen - 1) "]" ltac:(lia)) as (j2 & -> & H2).
      exists j2. split; [reflexivity|lia].
    - destruct (copy_at_ok json i' val ltac:(lia)) as (j0 & -> & H0).
      exists j0. split; [reflexivity|lia]. }
  destruct Hwrite as (j & -> & Hj). rewrite bind_ok.
  destruct (pad_spaces_ok (Z.to_nat (oldLen - newLen)) j (i' + newLen) 0
              ltac:(lia) ltac:(lia)) as (j' & -> & Hj').
  rewrite !bind_ok. exists j'. split; [reflexivity|lia].
Qed.

(** X14: on every buffer and with every path that is not empty,
    [SetInPlace] (and [SetRawInPlace]) either does exactly what [Set] does,
    or writes into the buffer and returns it with the length it had: the
    buffer never grows or shrinks in place, and the writes never fail. *)
Theorem X14_SetInPlace_writes_in_place_or_does_what_Set_does (json : list byte) (cap : Z)
  (path val : list byte) :
  path <> [] ->
  SetInPlace (Buffer json cap) path val = Set_ (Buffer json cap) path val
  \/ exists out,
       SetInPlace (Buffer json cap) path val = Ok (return_json out)
       /\ len out = len json.
Proof.
  intros Hpath. unfold SetInPlace, Set_, rewritePath.
  destruct path as [|c path]; [contradiction|]. cbn [bytes].
  destruct (locatePath json (c :: path)) as [[i j|k acc|]|f]; cbn [bind]; try now left.
  apply rewriteAt_in_place_or_same.
Qed.

Lemma X14_witness :
  SetInPlace (doc "[10]") (js "0") (js "1") = Set_ (doc "[10]") (js "0") (js "1")
  \/ exists out,
       SetInPlace (doc "[10]") (js "0") (js "1") = Ok (return_json out)
       /\ len out = len (js "[10]").
Proof.
  apply (X14_SetInPlace_writes_in_place_or_does_what_Set_does
           (js "[10]") (len (js "[10]")) (js "0") (js "1")).
  discriminate.
Defined.

Lemma rewriteAt_fresh (json : list byte) (i : Z) (acc val : list byte) (r : result) :
  rewriteAt json i acc val false = Ok r -> buf r = json /\ shared r = false.
Proof.
  unfold rewriteAt. intros H. bind_inv H. cbv zeta in H.
  repeat bind_inv H. now injection H as <-.
Qed.

(** X15: [Set] never writes to the buffer it is given, on any input and with
    any path, and what it returns lies in that buffer only when it is the
    buffer itself, returned for a malformed path. *)
Theorem X15_Set_leaves_the_buffer_alone (json : list byte) (cap : Z)
  (path val : list byte) (r : result) :
  Set_ (Buffer json cap) path val = Ok r ->
  buf r = json /\ (shared r = true -> ret r = json).
Proof.
  unfold Set_, rewritePath. destruct path as [|c path].
  - intros [= <-]. split; [reflexivity|discriminate].
  - cbn [bytes]. intros H. bind_inv H.
    destruct a as [i j|k acc|]; [discriminate H| |].
    + apply rewriteAt_fresh in H as [Hb Hs]. split; [assumption|].
      rewrite Hs. discriminate.
    + injection H as <-. now split.
Qed.

Lemma X15_witness :
  buf {| ret := js "[1,2]"; buf := js "[1]"; shared := false |} = js "[1]".
Proof.
  exact (proj1 (X15_Set_leaves_the_buffer_alone (js "[1]") (len (js "[1]")) (js "1")
                  (js "2") _ eq_refl)).
Defined.

Lemma rewriteAt_value_longer (pre v rest lastAcc val : list byte) :
  wf_value v -> follow_ok rest -> len v < len val ->
  rewriteAt (pre ++ v ++ rest) (len pre) lastAcc val true
  = rewriteAt (pre ++ v ++ rest) (len pre) lastAcc val false.
Proof.
  intros Hv Hrest Hlen.
  destruct (wf_value_head v Hv) as (c & tl & Ev & _ & Hc1 & Hc2 & Hc3 & _).
  unfold rewriteAt.
  assert (Hix : index BufferRange (pre ++ v ++ rest) (len pre) = Ok c).
  { rewrite Ev. cbn [app]. apply index_app_len. }
  rewrite Hix, !bind_ok, Hc3. cbn [andb]. cbv zeta iota.
  rewrite slice_from_app_len, !bind_ok, consumeValue_wf, !bind_ok by assumption.
  rewrite Hix, !bind_ok, Hc1, Hc2. cbn [negb andb]. cbv iota.
  replace (len (v ++ rest) - len rest) with (len v) by (lens; lia).
  replace (len val <=? len v) with false by (symmetry; apply Z.leb_gt; lia).
  reflexivity.
Qed.

(** X16: for a path that is not empty and that the accessor loop resolves
    to an existing value, and a replacement that is longer than that value,
    [SetInPlace] does what [Set] does: it leaves the buffer alone and returns
    a new slice, with the replacement in the place of the old value when
    that is not [null]. *)
Theorem X16_SetInPlace_with_a_longer_replacement (json : list byte) (cap : Z)
  (path val : list byte) (k : Z) (lastAcc pre v rest : list byte) :
  path <> [] ->
  locatePath json path = Ok (Done k lastAcc) ->
  json = pre ++ v ++ rest -> len pre = k ->
  wf_value v -> follow_ok rest -> len v < len val ->
  SetInPlace (Buffer json cap) path val = Set_ (Buffer json cap) path val
  /\ (v <> null ->
      SetInPlace (Buffer json cap) path val
      = Ok {| ret := pre ++ val ++ rest; buf := json; shared := false |}).
Proof.
  intros Hpath Hloc -> <- Hv Hrest Hlen.
  assert (E : SetInPlace (Buffer (pre ++ v ++ rest) cap) path val
              = Set_ (Buffer (pre ++ v ++ rest) cap) path val).
  { unfold SetInPlace, Set_, rewritePath. destruct path as [|c path]; [contradiction|].
    cbn [bytes]. rewrite Hloc, !bind_ok. now apply rewriteAt_value_longer. }
  split; [exact E|]. intros Hnull. rewrite E.
  unfold Set_, rewritePath. destruct path as [|c path]; [contradiction|].
  cbn [bytes]. rewrite Hloc, bind_ok. now apply rewriteAt_value.
Qed.

Lemma X16_witness :
  SetInPlace (doc "{'foo':'bar'}") (js "foo") (js "'quux'")
  = Set_ (doc "{'foo':'bar'}") (js "foo") (js "'quux'")
  /\ SetInPlace (doc "{'foo':'bar'}") (js "foo") (js "'quux'")
     = Ok {| ret := js "{'foo':" ++ js "'quux'" ++ js "}";
             buf := js "{'foo':'bar'}";
             shared := false |}.
Proof.
  destruct (X16_SetInPlace_with_a_longer_replacement (js "{'foo':'bar'}")
              (len (js "{'foo':'bar'}")) (js "foo") (js "'quux'") 7 (js "foo")
              (js "{'foo':") (js "'bar'") (js "}")
              ltac:(discriminate) eq_refl eq_refl eq_refl
              ltac:(apply (wf_string (js "bar")); str_tac) eq_refl
              ltac:(vm_compute; reflexivity)) as [H1 H2].
  split; [exact H1|]. apply H2. discriminate.
Defined.

(* ------------------------------------------------------------------ *)
(** * Keys of the top-level object *)

(** A member with another value, when that value is well formed. *)
Lemma wf_members_set (ms1 : list member) (mpre key mmid msep old mpost : list byte)
  (ms2 : list member) (v : list byte) :
  wf_members (ms1 ++ Member mpre key mmid msep old mpost :: ms2) ->
  wf_value v ->
  wf_members (ms1 ++ Member mpre key mmid msep v mpost :: ms2).
Proof.
  intros Hms Hv. apply wf_members_app in Hms as [H1 H2].
  apply wf_members_app. split; [assumption|].
  inversion H2 as [|? ? Hpre Hkey Hmid Hsep _ Hpost Hrest]; subst.
  now apply wf_members_cons.
Qed.

(** [Set] with a path of one accessor that is a key of the top-level
    object. *)
Lemma Set_top_level_key (w0 w : list byte) (ms1 : list member)
  (mpre key mmid msep old mpost : list byte) (ms2 : list member)
  (rest val : list byte) (cap : Z) :
  let d := fun v =>
    w0 ++ render_object w (ms1 ++ Member mpre key mmid msep v mpost :: ms2) ++ rest in
  dot_free key -> key <> [] ->
  all_ws w0 -> all_ws w ->
  wf_members (ms1 ++ Member mpre key mmid msep old mpost :: ms2) ->
  Forall (fun x => m_key x <> key) ms1 ->
  Set_ (Buffer (d old) cap) key val
  = Ok {| ret := d (if bytes_eqb old null then "[" :: val ++ ["]"] else val);
          buf := d old;
          shared := false |}.
Proof.
  intros d Hd Hne Hw0 Hw Hms Hfirst. unfold Set_.
  destruct (rewritePath_at_member [] w0 w ms1 (Member mpre key mmid msep old mpost)
              ms2 rest [] val cap false (reaches_start _ _) Hd Hne Hw0 Hw Hms Hfirst)
    as (E & Hv & Hf & Hrw).
  cbn [m_key m_val m_post app] in *. unfold d. rewrite Hrw. clear Hrw.
  assert (Ed : forall v,
             w0 ++ render_object w (ms1 ++ Member mpre key mmid msep v mpost :: ms2)
               ++ rest
             = (w0 ++ "{" :: w ++ members_before ms1
                  ++ member_head (Member mpre key mmid msep old mpost))
                 ++ v ++ (mpost ++ members_after ms2 ++ "}" :: rest)).
  { intros v. apply (object_with_value w0 w ms1 mpre key mmid msep v mpost ms2 rest). }
  rewrite (Ed old) at 1 2. rewrite Ed.
  destruct (bytes_eqb old null) eqn:Hnull.
  - apply bytes_eqb_eq in Hnull. subst old.
    rewrite rewriteAt_null_value. f_equal. f_equal. norm_app. reflexivity.
  - apply bytes_eqb_neq in Hnull. now rewrite rewriteAt_value by assumption.
Qed.

Lemma value_not_null (old : list byte) :
  old <> null -> bytes_eqb old null = false.
Proof. apply bytes_eqb_neq. Qed.

(** X17: on the member of a key of the top-level object, the last [Set]
    wins: after a well-formed value other than [null] has been set, setting
    another gives what setting it at once gives.  With twice the same value,
    the second call changes nothing. *)
Theorem X17_the_last_Set_of_a_key_wins (w0 w : list byte) (ms1 : list member)
  (mpre key mmid msep old mpost : list byte) (ms2 : list member)
  (rest v1 v2 : list byte) (cap cap' : Z) :
  let d := fun v =>
    w0 ++ render_object w (ms1 ++ Member mpre key mmid msep v mpost :: ms2) ++ rest in
  dot_free key -> key <> [] ->
  all_ws w0 -> all_ws w ->
  wf_members (ms1 ++ Member mpre key mmid msep old mpost :: ms2) ->
  Forall (fun x => m_key x <> key) ms1 ->
  old <> null -> wf_value v1 -> v1 <> null ->
  Set_ (Buffer (d old) cap) key v1
  = Ok {| ret := d v1; buf := d old; shared := false |}
  /\ Set_ (Buffer (d v1) cap') key v2
     = Ok {| ret := d v2; buf := d v1; shared := false |}
  /\ Set_ (Buffer (d old) cap) key v2
     = Ok {| ret := d v2; buf := d old; shared := false |}.
Proof.
  intros d Hd Hne Hw0 Hw Hms Hfirst Hold Hv1 Hn1.
  pose proof (wf_members_set ms1 mpre key mmid msep old mpost ms2 v1 Hms Hv1) as Hms1.
  pose proof (Set_top_level_key w0 w ms1 mpre key mmid msep old mpost ms2 rest v1 cap
                Hd Hne Hw0 Hw Hms Hfirst) as H1.
  pose proof (Set_top_level_key w0 w ms1 mpre key mmid msep v1 mpost ms2 rest v2 cap'
                Hd Hne Hw0 Hw Hms1 Hfirst) as H2.
  pose proof (Set_top_level_key w0 w ms1 mpre key mmid msep old mpost ms2 rest v2 cap
                Hd Hne Hw0 Hw Hms Hfirst) as H3.
  cbv zeta in H1, H2, H3.
  rewrite (value_not_null old Hold) in H1, H3. rewrite (value_not_null v1 Hn1) in H2.
  unfold d. now rewrite H1, H2, H3.
Qed.

Lemma X17_witness :
  returned (Set_ (doc "{'a': 1, 'b': 2}") (js "a") (js "'x'"))
  = Ok (js "{'a': 'x', 'b': 2}")
  /\ returned (Set_ (doc "{'a': 'x', 'b': 2}") (js "a") (js "[3]"))
     = Ok (js "{'a': [3], 'b': 2}")
  /\ returned (Set_ (doc "{'a': 1, 'b': 2}") (js "a") (js "[3]"))
     = Ok (js "{'a': [3], 'b': 2}").
Proof.
  pose proof (X17_the_last_Set_of_a_key_wins [] [] [] [] (js "a") [] (js " ") (js "1") []
                [Member (js " ") (js "b") [] (js " ") (js "2") []] []
                (js "'x'") (js "[3]") (len (js "{'a': 1, 'b': 2}"))
                (len (js "{'a': 'x', 'b': 2}"))) as H.
  cbv zeta in H. unfold returned.
  destruct H as (H1 & H2 & H3).
  - repeat constructor.
  - discriminate.
  - ws_tac.
  - ws_tac.
  - repeat (apply wf_members_cons; cbn [m_pre m_key m_mid m_sep m_val m_post];
            [ws_tac | str_tac | ws_tac | ws_tac | num_tac | ws_tac | ]).
    constructor.
  - constructor.
  - discriminate.
  - apply (wf_string (js "x")). str_tac.
  - discriminate.
  - change (doc "{'a': 1, 'b': 2}")
      with (Buffer ([] ++ render_object []
                      ([] ++ Member [] (js "a") [] (js " ") (js "1") []
                          :: [Member (js " ") (js "b") [] (js " ") (js "2") []]) ++ [])
              (len (js "{'a': 1, 'b': 2}"))).
    change (doc "{'a': 'x', 'b': 2}")
      with (Buffer ([] ++ render_object []
                      ([] ++ Member [] (js "a") [] (js " ") (js "'x'") []
                          :: [Member (js " ") (js "b") [] (js " ") (js "2") []]) ++ [])
              (len (js "{'a': 'x', 'b': 2}"))).
    rewrite H1, H2, H3. repeat split.
Defined.

(** The first member with a key, if there is one. *)
Lemma first_member_split (key : list byte) (ms : list member) :
  Forall (fun x => m_key x <> key) ms
  \/ exists ms1 m ms2,
       ms = ms1 ++ m :: ms2 /\ m_key m = key /\ Forall (fun x => m_key x <> key) ms1.
Proof.
  induction ms as [|m ms IH]; [left; constructor|].
  destruct (bytes_eqb (m_key m) key) eqn:E.
  - apply bytes_eqb_eq in E. right. exists [], m, ms. repeat split; [assumption|constructor].
  - apply bytes_eqb_neq in E. destruct IH as [IH|(ms1 & m' & ms2 & -> & Hk & Hne)].
    + left. now constructor.
    + right. exists (m :: ms1), m', ms2. repeat split; [assumption|now constructor].
Qed.

Lemma render_members_snoc (ms : list member) (key val : list byte) :
  render_members (ms ++ [Member [] key [] [] val []])
  = render_members ms ++ comma_after ms ++ quote :: key ++ quote :: ":" :: val.
Proof.
  unfold render_members. rewrite map_app. cbn [map].
  rewrite commas_snoc. unfold render_member, member_head.
  cbn [m_pre m_key m_mid m_sep m_val m_post app].
  rewrite app_nil_r. destruct ms; norm_app; reflexivity.
Qed.

(** [Set] with a path of one accessor that is no key of the top-level
    object. *)
Lemma Set_top_level_new_key (w0 w : list byte) (ms : list member)
  (rest key val : list byte) (cap : Z) :
  dot_free key -> key <> [] ->
  all_ws w0 -> all_ws w -> wf_members ms ->
  Forall (fun x => m_key x <> key) ms ->
  Set_ (Buffer (w0 ++ render_object w ms ++ rest) cap) key val
  = if len (render_object w ms ++ rest) <? len key
    then Ok (return_json (w0 ++ render_object w ms ++ rest))
    else Ok {| ret := w0 ++ render_object w (ms ++ [Member [] key [] [] val []]) ++ rest;
               buf := w0 ++ render_object w ms ++ rest;
               shared := false |}.
Proof.
  intros Hd Hne Hw0 Hw Hms Hnone. unfold Set_.
  destruct (len (render_object w ms ++ rest) <? len key) eqn:Hguard.
  - apply (rewritePath_reject _ cap key 0 0 val false Hne (reaches_start _ _)).
    apply (iteration_last_none [] _ [] key Hd).
    rewrite locateAccessor_object by assumption. now rewrite Hguard.
  - apply Z.ltb_ge in Hguard.
    pose proof (rewritePath_append_member [] w0 w ms rest [] key val cap false
                  (reaches_start _ _) Hd Hne Hw0 Hw Hms
                  (member_offset_none key ms Hnone) Hguard ltac:(discriminate)) as H.
    cbn [app] in H. rewrite H. f_equal. f_equal. unfold render_object.
    rewrite render_members_snoc. norm_app. reflexivity.
Qed.

(** X18: what [Set] has put under a key of the top-level object, the
    locator finds: after a well-formed value has been set for a key that is
    the text of a JSON string (in the place of the old value, or in a new
    member when the object has no such key and the key is not longer than
    the document), the locator answers for that key with the offset of the
    value in the new document. *)
Theorem X18_the_locator_finds_what_Set_has_put (w0 w : list byte) (ms : list member)
  (rest key val : list byte) (cap : Z) :
  all_ws w0 -> all_ws w -> wf_members ms ->
  str_body key -> dot_free key -> key <> [] -> wf_value val ->
  (forall m, In m ms -> m_key m = key -> m_val m <> null) ->
  len key <= len (render_object w ms ++ rest) ->
  exists r k,
    Set_ (Buffer (w0 ++ render_object w ms ++ rest) cap) key val = Ok r
    /\ locateAccessor (ret r) key = Ok k
    /\ slice BufferRange (ret r) k (k + len val) = Ok val.
Proof.
  intros Hw0 Hw Hms Hkey Hd Hne Hval Hnull Hguard.
  assert (Hfound : forall ms1 mpre mmid msep mpost ms2,
             wf_members (ms1 ++ Member mpre key mmid msep val mpost :: ms2) ->
             Forall (fun x => m_key x <> key) ms1 ->
             let out := w0 ++ render_object w
                                (ms1 ++ Member mpre key mmid msep val mpost :: ms2)
                          ++ rest in
             exists k, locateAccessor out key = Ok k
                       /\ slice BufferRange out k (k + len val) = Ok val).
  { intros ms1 mpre mmid msep mpost ms2 Hwf Hfirst out.
    eexists. split.
    - apply (locateAccessor_member w0 w ms1 (Member mpre key mmid msep val mpost) ms2 rest);
        assumption.
    - unfold out. rewrite object_with_value. apply slice_middle. }
  destruct (first_member_split key ms) as [Hnone|(ms1 & m & ms2 & -> & Hk & Hfirst)].
  - rewrite Set_top_level_new_key by assumption.
    replace (_ <? len key) with false by (symmetry; apply Z.ltb_ge; lia).
    destruct (Hfound ms [] [] [] [] []) as (k & Hk1 & Hk2).
    + apply wf_members_app. split; [assumption|].
      apply wf_members_cons; cbn [m_pre m_key m_mid m_sep m_val m_post];
        try assumption; constructor.
    + assumption.
    + eexists. exists k. split; [reflexivity|]. cbn [ret]. now split.
  - destruct m as [mpre key' mmid msep old mpost]. cbn [m_key] in Hk. subst key'.
    rewrite Set_top_level_key by assumption.
    rewrite value_not_null
      by (apply (Hnull (Member mpre key mmid msep old mpost));
          [apply in_or_app; right; now left | reflexivity]).
    destruct (Hfound ms1 mpre mmid msep mpost ms2) as (k & Hk1 & Hk2).
    + now apply (wf_members_set ms1 mpre key mmid msep old mpost ms2 val).
    + assumption.
    + eexists. exists k. split; [reflexivity|]. cbn [ret]. now split.
Qed.

Lemma X18_witness :
  exists r k,
    Set_ (doc "{'foo':'bar'}") (js "bar") (js "'baz'") = Ok r
    /\ locateAccessor (ret r) (js "bar") = Ok k
    /\ slice BufferRange (ret r) k (k + len (js "'baz'")) = Ok (js "'baz'").
Proof.
  apply (X18_the_locator_finds_what_Set_has_put [] []
           [Member [] (js "foo") [] [] (js "'bar'") []] [] (js "bar") (js "'baz'")
           (len (js "{'foo':'bar'}"))).
  - ws_tac.
  - ws_tac.
  - apply wf_members_cons; cbn [m_pre m_key m_mid m_sep m_val m_post];
      [ws_tac | str_tac | ws_tac | ws_tac | apply (wf_string (js "bar")); str_tac
       | ws_tac | constructor].
  - str_tac.
  - repeat constructor.
  - discriminate.
  - apply (wf_string (js "baz")). str_tac.
  - intros m [<-|[]] H. discriminate H.
  - vm_compute. discriminate.
Defined.

(** X19: [Set] with a key that is the text of a JSON string and a
    well-formed value keeps a document whose value is an object well formed,
    whether the key is there (the old value is replaced, by the value in
    brackets when it was [null]), is missing (a member is added), or is
    missing and longer than the document (nothing is done). *)
Theorem X19_Set_of_a_key_keeps_the_document_well_formed (w0 w : list byte)
  (ms : list member) (w1 key val : list byte) (cap : Z) :
  all_ws w0 -> all_ws w -> wf_members ms -> all_ws w1 ->
  str_body key -> dot_free key -> key <> [] -> wf_value val ->
  exists r,
    Set_ (Buffer (w0 ++ render_object w ms ++ w1) cap) key val = Ok r
    /\ wf_document (ret r).
Proof.
  intros Hw0 Hw Hms Hw1 Hkey Hd Hne Hval.
  assert (Hdoc : forall ms', wf_members ms' ->
                   wf_document (w0 ++ render_object w ms' ++ w1)).
  { intros ms' Hms'. exists w0, (render_object w ms'), w1.
    repeat split; try assumption. now apply wf_object. }
  destruct (first_member_split key ms) as [Hnone|(ms1 & m & ms2 & -> & Hk & Hfirst)].
  - rewrite Set_top_level_new_key by assumption.
    destruct (_ <? len key); eexists; (split; [reflexivity|]); cbn [ret return_json].
    + now apply Hdoc.
    + apply Hdoc. apply wf_members_app. split; [assumption|].
      apply wf_members_cons; cbn [m_pre m_key m_mid m_sep m_val m_post];
        try assumption; constructor.
  - destruct m as [mpre key' mmid msep old mpost]. cbn [m_key] in Hk. subst key'.
    rewrite Set_top_level_key by assumption.
    eexists. split; [reflexivity|]. cbn [ret]. apply Hdoc.
    apply (wf_members_set ms1 mpre key mmid msep old mpost ms2); [assumption|].
    destruct (bytes_eqb old null); [|assumption].
    replace ("[" :: val ++ ["]"]) with (render_array [] [Element [] val []])
      by (unfold render_array, render_elements, render_element;
          cbn [map commas e_pre e_val e_post app]; now rewrite app_nil_r).
    apply wf_array; [constructor|].
    apply wf_elements_cons; cbn [e_pre e_val e_post];
      try assumption; constructor.
Qed.

Lemma X19_witness :
  exists r,
    Set_ (doc " {'a':null} ") (js "a") (js "7") = Ok r /\ wf_document (ret r).
Proof.
  apply (X19_Set_of_a_key_keeps_the_document_well_formed (js " ") []
           [Member [] (js "a") [] [] null []] (js " ") (js "a") (js "7")
           (len (js " {'a':null} "))).
  - ws_tac.
  - ws_tac.
  - apply wf_members_cons; cbn [m_pre m_key m_mid m_sep m_val m_post];
      [ws_tac | str_tac | ws_tac | ws_tac | apply wf_null | ws_tac | constructor].
  - ws_tac.
  - str_tac.
  - repeat constructor.
  - discriminate.
  - num_tac.
Defined.

(** X20: [Set] on two different keys of the top-level object, in either
    order, gives the same document: the one with both values replaced. *)
Theorem X20_Sets_of_two_keys_commute (w0 w : list byte) (ms1 : list member)
  (p1 k1 mid1 sep1 old1 post1 : list byte) (ms2 : list member)
  (p2 k2 mid2 sep2 old2 post2 : list byte) (ms3 : list member)
  (rest v1 v2 : list byte) (cap ca cb : Z) :
  let d := fun a b =>
    w0 ++ render_object w
            (ms1 ++ Member p1 k1 mid1 sep1 a post1
                 :: ms2 ++ Member p2 k2 mid2 sep2 b post2 :: ms3)
       ++ rest in
  dot_free k1 -> k1 <> [] -> dot_free k2 -> k2 <> [] -> k1 <> k2 ->
  all_ws w0 -> all_ws w ->
  wf_members (ms1 ++ Member p1 k1 mid1 sep1 old1 post1
                  :: ms2 ++ Member p2 k2 mid2 sep2 old2 post2 :: ms3) ->
  Forall (fun x => m_key x <> k1) ms1 ->
  Forall (fun x => m_key x <> k2) (ms1 ++ ms2) ->
  old1 <> null -> old2 <> null -> wf_value v1 -> wf_value v2 ->
  Set_ (Buffer (d old1 old2) cap) k1 v1
  = Ok {| ret := d v1 old2; buf := d old1 old2; shared := false |}
  /\ Set_ (Buffer (d v1 old2) ca) k2 v2
     = Ok {| ret := d v1 v2; buf := d v1 old2; shared := false |}
  /\ Set_ (Buffer (d old1 old2) cap) k2 v2
     = Ok {| ret := d old1 v2; buf := d old1 old2; shared := false |}
  /\ Set_ (Buffer (d old1 v2) cb) k1 v1
     = Ok {| ret := d v1 v2; buf := d old1 v2; shared := false |}.
Proof.
  intros d Hd1 Hne1 Hd2 Hne2 Hk Hw0 Hw Hms Hf1 Hf2 Ho1 Ho2 Hv1 Hv2.
  assert (Hre : forall a b,
             ms1 ++ Member p1 k1 mid1 sep1 a post1
                 :: ms2 ++ Member p2 k2 mid2 sep2 b post2 :: ms3
             = (ms1 ++ Member p1 k1 mid1 sep1 a post1 :: ms2)
                 ++ Member p2 k2 mid2 sep2 b post2 :: ms3).
  { intros a b. now rewrite <- app_assoc. }
  assert (Hf2' : forall a,
             Forall (fun x => m_key x <> k2) (ms1 ++ Member p1 k1 mid1 sep1 a post1 :: ms2)).
  { intros a. apply Forall_app in Hf2 as [Ha Hb]. apply Forall_app. split; [assumption|].
    constructor; [exact Hk | assumption]. }
  assert (Hms1 : wf_members (ms1 ++ Member p1 k1 mid1 sep1 v1 post1
                                 :: ms2 ++ Member p2 k2 mid2 sep2 old2 post2 :: ms3))
    by (now apply (wf_members_set ms1 p1 k1 mid1 sep1 old1 post1 _ v1)).
  assert (Hms2 : wf_members (ms1 ++ Member p1 k1 mid1 sep1 old1 post1
                                 :: ms2 ++ Member p2 k2 mid2 sep2 v2 post2 :: ms3)).
  { rewrite Hre in Hms |- *.
    now apply (wf_members_set _ p2 k2 mid2 sep2 old2 post2 ms3 v2). }
  pose proof (Set_top_level_key w0 w ms1 p1 k1 mid1 sep1 old1 post1 _ rest v1 cap
                Hd1 Hne1 Hw0 Hw Hms Hf1) as H1.
  pose proof (Set_top_level_key w0 w ms1 p1 k1 mid1 sep1 old1 post1 _ rest v1 cb
                Hd1 Hne1 Hw0 Hw Hms2 Hf1) as H4.
  rewrite Hre in Hms, Hms1.
  pose proof (Set_top_level_key w0 w _ p2 k2 mid2 sep2 old2 post2 ms3 rest v2 ca
                Hd2 Hne2 Hw0 Hw Hms1 (Hf2' v1)) as H2.
  pose proof (Set_top_level_key w0 w _ p2 k2 mid2 sep2 old2 post2 ms3 rest v2 cap
                Hd2 Hne2 Hw0 Hw Hms (Hf2' old1)) as H3.
  cbv zeta in H1, H2, H3, H4.
  rewrite (value_not_null old1 Ho1) in H1, H4.
  rewrite (value_not_null old2 Ho2) in H2, H3.
  unfold d. split; [exact H1|]. split; [|split; [|exact H4]].
  - rewrite !Hre. exact H2.
  - rewrite !Hre. exact H3.
Qed.

Lemma X20_witness :
  returned (Set_ (doc "{'a':1,'b':2}") (js "a") (js "3")) = Ok (js "{'a':3,'b':2}")
  /\ returned (Set_ (doc "{'a':3,'b':2}") (js "b") (js "4")) = Ok (js "{'a':3,'b':4}")
  /\ returned (Set_ (doc "{'a':1,'b':2}") (js "b") (js "4")) = Ok (js "{'a':1,'b':4}")
  /\ returned (Set_ (doc "{'a':1,'b':4}") (js "a") (js "3")) = Ok (js "{'a':3,'b':4}").
Proof.
  pose proof (X20_Sets_of_two_keys_commute [] [] []
                [] (js "a") [] [] (js "1") [] []
                [] (js "b") [] [] (js "2") [] [] []
                (js "3") (js "4") (len (js "{'a':1,'b':2}"))
                (len (js "{'a':3,'b':2}")) (len (js "{'a':1,'b':4}"))) as H.
  cbv zeta in H. unfold returned.
  destruct H as (H1 & H2 & H3 & H4).
  - repeat constructor.
  - discriminate.
  - repeat constructor.
  - discriminate.
  - discriminate.
  - ws_tac.
  - ws_tac.
  - repeat (apply wf_members_cons; cbn [m_pre m_key m_mid m_sep m_val m_post];
            [ws_tac | str_tac | ws_tac | ws_tac | num_tac | ws_tac | ]).
    constructor.
  - constructor.
  - constructor.
  - discriminate.
  - discriminate.
  - num_tac.
  - num_tac.
  - change (doc "{'a':1,'b':2}")
      with (Buffer ([] ++ render_object []
                      ([] ++ Member [] (js "a") [] [] (js "1") []
                          :: [] ++ Member [] (js "b") [] [] (js "2") [] :: []) ++ [])
              (len (js "{'a':1,'b':2}"))).
    change (doc "{'a':3,'b':2}")
      with (Buffer ([] ++ render_object []
                      ([] ++ Member [] (js "a") [] [] (js "3") []
                          :: [] ++ Member [] (js "b") [] [] (js "2") [] :: []) ++ [])
              (len (js "{'a':3,'b':2}"))).
    change (doc "{'a':1,'b':4}")
      with (Buffer ([] ++ render_object []
                      ([] ++ Member [] (js "a") [] [] (js "1") []
                          :: [] ++ Member [] (js "b") [] [] (js "4") [] :: []) ++ [])
              (len (js "{'a':1,'b':4}"))).
    rewrite H1, H2, H3, H4. repeat split.
Defined.

Lemma all_ws_spaces (n : nat) : all_ws (repeat " " n).
Proof. induction n; constructor; [reflexivity|assumption]. Qed.

(** The three functions with a path of one accessor that is no key of the
    top-level object. *)
Lemma rewritePath_top_level_new_key (w0 w : list byte) (ms : list member)
  (rest key val : list byte) (cap : Z) (inPlace : bool) :
  dot_free key -> key <> [] ->
  all_ws w0 -> all_ws w -> wf_members ms ->
  Forall (fun x => m_key x <> key) ms ->
  (inPlace = true -> val <> []) ->
  rewritePath (Buffer (w0 ++ render_object w ms ++ rest) cap) key val inPlace
  = if len (render_object w ms ++ rest) <? len key
    then Ok (return_json (w0 ++ render_object w ms ++ rest))
    else Ok {| ret := w0 ++ render_object w (ms ++ [Member [] key [] [] val []]) ++ rest;
               buf := w0 ++ render_object w ms ++ rest;
               shared := false |}.
Proof.
  intros Hd Hne Hw0 Hw Hms Hnone Hval.
  destruct (len (render_object w ms ++ rest) <? len key) eqn:Hguard.
  - apply (rewritePath_reject _ cap key 0 0 val inPlace Hne (reaches_start _ _)).
    apply (iteration_last_none [] _ [] key Hd).
    rewrite locateAccessor_object by assumption. now rewrite Hguard.
  - apply Z.ltb_ge in Hguard.
    pose proof (rewritePath_append_member [] w0 w ms rest [] key val cap inPlace
                  (reaches_start _ _) Hd Hne Hw0 Hw Hms
                  (member_offset_none key ms Hnone) Hguard Hval) as H.
    cbn [app] in H. rewrite H. f_equal. f_equal. unfold render_object.
    rewrite render_members_snoc. norm_app. reflexivity.
Qed.

(** X21: [SetInPlace] with a key that is the text of a JSON string and a
    well-formed value keeps a document whose value is an object well formed
    too: when it writes in place, the spaces it pads with come after the
    value, where JSON allows whitespace, and the buffer keeps its length. *)
Theorem X21_SetInPlace_of_a_key_keeps_the_document_well_formed (w0 w : list byte)
  (ms : list member) (w1 key val : list byte) (cap : Z) :
  all_ws w0 -> all_ws w -> wf_members ms -> all_ws w1 ->
  str_body key -> dot_free key -> key <> [] -> wf_value val ->
  exists r,
    SetInPlace (Buffer (w0 ++ render_object w ms ++ w1) cap) key val = Ok r
    /\ wf_document (ret r)
    /\ (shared r = true ->
        buf r = ret r /\ len (ret r) = len (w0 ++ render_object w ms ++ w1)).
Proof.
  intros Hw0 Hw Hms Hw1 Hkey Hd Hne Hval.
  assert (Hdoc : forall ms', wf_members ms' ->
                   wf_document (w0 ++ render_object w ms' ++ w1)).
  { intros ms' Hms'. exists w0, (render_object w ms'), w1.
    repeat split; try assumption. now apply wf_object. }
  assert (Hval' : val <> []).
  { destruct (wf_value_head val Hval) as (c & tl & -> & _). discriminate. }
  unfold SetInPlace.
  destruct (first_member_split key ms) as [Hnone|(ms1 & m & ms2 & -> & Hk & Hfirst)].
  - rewrite rewritePath_top_level_new_key by (assumption || intros _; assumption).
    destruct (_ <? len key); eexists; (split; [reflexivity|]); cbn [ret buf shared return_json].
    + split; [now apply Hdoc|]. intros _. now split.
    + split; [|discriminate]. apply Hdoc. apply wf_members_app. split; [assumption|].
      apply wf_members_cons; cbn [m_pre m_key m_mid m_sep m_val m_post];
        try assumption; constructor.
  - destruct m as [mpre key' mmid msep old mpost]. cbn [m_key] in Hk. subst key'.
    destruct (rewritePath_at_member [] w0 w ms1 (Member mpre key mmid msep old mpost)
                ms2 w1 [] val cap true (reaches_start _ _) Hd Hne Hw0 Hw Hms Hfirst)
      as (E & Hv & Hf & Hrw).
    cbn [m_key m_val m_post app] in *. rewrite Hrw. clear Hrw.
    assert (Ed : forall v post,
               w0 ++ render_object w (ms1 ++ Member mpre key mmid msep v post :: ms2)
                 ++ w1
               = (w0 ++ "{" :: w ++ members_before ms1
                    ++ member_head (Member mpre key mmid msep old mpost))
                   ++ v ++ (post ++ members_after ms2 ++ "}" :: w1)).
    { intros v post.
      apply (object_with_value w0 w ms1 mpre key mmid msep v post ms2 w1). }
    rewrite (Ed old mpost).
    pose proof Hms as Hms'. apply wf_members_app in Hms' as [Hwf1 Hwf2].
    inversion Hwf2 as [|? ? Hpre Hkey' Hmid Hsep _ Hpost Hrest]; subst.
    cbn [m_pre m_key m_mid m_sep m_val m_post] in *.
    destruct (Z.le_gt_cases (len val) (len old)) as [Hfit|Hlong].
    + rewrite rewriteAt_value_inplace by assumption.
      eexists. split; [reflexivity|]. cbn [ret buf shared return_json].
      replace ((w0 ++ "{" :: w ++ members_before ms1
                  ++ member_head (Member mpre key mmid msep old mpost))
                 ++ val ++ repeat " " (Z.to_nat (len old - len val))
                 ++ mpost ++ members_after ms2 ++ "}" :: w1)
        with (w0 ++ render_object w
                      (ms1 ++ Member mpre key mmid msep val
                                (repeat " " (Z.to_nat (len old - len val)) ++ mpost)
                           :: ms2) ++ w1)
        by (rewrite Ed; f_equal; f_equal; now rewrite <- app_assoc).
      split.
      * apply Hdoc. apply wf_members_app. split; [assumption|].
        apply wf_members_cons; cbn [m_pre m_key m_mid m_sep m_val m_post];
          try assumption.
        apply all_ws_app; [apply all_ws_spaces | assumption].
      * intros _. split; [reflexivity|].
        rewrite (Ed val). lens. lia.
    + rewrite rewriteAt_value_longer by (assumption || lia).
      destruct (bytes_eqb old null) eqn:Hnull.
      * apply bytes_eqb_eq in Hnull. subst old.
        rewrite rewriteAt_null_value.
        eexists. split; [reflexivity|]. cbn [ret buf shared]. split; [|discriminate].
        replace ((w0 ++ "{" :: w ++ members_before ms1
                    ++ member_head (Member mpre key mmid msep null mpost))
                   ++ "[" :: val ++ "]" :: mpost ++ members_after ms2 ++ "}" :: w1)
          with ((w0 ++ "{" :: w ++ members_before ms1
                   ++ member_head (Member mpre key mmid msep null mpost))
                  ++ ("[" :: val ++ ["]"]) ++ (mpost ++ members_after ms2 ++ "}" :: w1))
          by (norm_app; reflexivity).
        rewrite <- (Ed ("[" :: val ++ ["]"]) mpost).
        apply Hdoc. apply wf_members_app. split; [assumption|].
        apply wf_members_cons; cbn [m_pre m_key m_mid m_sep m_val m_post];
          try assumption.
        replace ("[" :: val ++ ["]"]) with (render_array [] [Element [] val []])
          by (unfold render_array, render_elements, render_element;
              cbn [map commas e_pre e_val e_post app]; now rewrite app_nil_r).
        apply wf_array; [constructor|].
        apply wf_elements_cons; cbn [e_pre e_val e_post];
          try assumption; constructor.
      * apply bytes_eqb_neq in Hnull. rewrite rewriteAt_value by assumption.
        eexists. split; [reflexivity|]. cbn [ret buf shared]. split; [|discriminate].
        rewrite <- (Ed val mpost).
        apply Hdoc. apply wf_members_app. split; [assumption|].
        apply wf_members_cons; cbn [m_pre m_key m_mid m_sep m_val m_post];
          assumption.
Qed.

Lemma X21_witness :
  exists r,
    SetInPlace (doc "{'foo':'bar', 'bar':'quux'}") (js "bar") (js "1") = Ok r
    /\ wf_document (ret r)
    /\ (shared r = true ->
        buf r = ret r /\ len (ret r) = len (js "{'foo':'bar', 'bar':'quux'}")).
Proof.
  apply (X21_SetInPlace_of_a_key_keeps_the_document_well_formed [] []
           [Member [] (js "foo") [] [] (js "'bar'") [];
            Member (js " ") (js "bar") [] [] (js "'quux'") []] []
           (js "bar") (js "1") (len (js "{'foo':'bar', 'bar':'quux'}"))).
  - ws_tac.
  - ws_tac.
  - repeat (apply wf_members_cons; cbn [m_pre m_key m_mid m_sep m_val m_post];
            [ws_tac | str_tac | ws_tac | ws_tac
             | apply (wf_string (js "bar")) || apply (wf_string (js "quux")); str_tac
             | ws_tac | ]).
    constructor.
  - ws_tac.
  - str_tac.
  - repeat constructor.
  - discriminate.
  - num_tac.
Defined.

(* ------------------------------------------------------------------ *)
(** * Containers that are not closed, indices, empty raw values *)

(** X22: [indexObject] and [indexArray] answer [-1] on a text with no
    delimiter of their kind and no double quote, and the loops of
    [consumeObject] and [consumeArray] slice with that answer: on a
    container that is cut before its closing delimiter and holds no string
    and no other container of its kind, [consumeValue] fails. *)
Theorem X22_container_without_closing_delimiter (body : list byte) :
  (Forall (fun c => c <> "{" /\ c <> "}" /\ c <> quote) body ->
   indexObject body = -1
   /\ consumeObject ("{" :: body) = Fail BufferRange
   /\ consumeValue ("{" :: body) = Fail BufferRange)
  /\ (Forall (fun c => c <> "[" /\ c <> "]" /\ c <> quote) body ->
      indexArray body = -1
      /\ consumeArray ("[" :: body) = Fail BufferRange
      /\ consumeValue ("[" :: body) = Fail BufferRange).
Proof.
  assert (Hgen : forall opening closing,
             Forall (fun c => c <> opening /\ c <> closing /\ c <> quote) body ->
             indexNested opening closing body = -1
             /\ consumeNested opening closing (opening :: body) = Fail BufferRange).
  { intros opening closing Hbody.
    assert (Hi : indexNested opening closing body = -1).
    { apply index_where_none. eapply Forall_impl; [|exact Hbody].
      intros c (H1 & H2 & H3). unfold special.
      apply eqb_neq in H1, H2, H3. now rewrite H1, H2, H3. }
    split; [exact Hi|].
    unfold consumeNested. rewrite slice_from_one, bind_ok.
    cbn [consumeNested_loop]. change (1 >? 0) with true. cbv iota.
    now rewrite Hi, slice_from_neg. }
  split; intros Hbody; destruct (Hgen _ _ Hbody) as [Hi Hc];
    (split; [exact Hi|]; split; [exact Hc|]);
    unfold consumeValue; rewrite index_zero, bind_ok; byte_tests; exact Hc.
Qed.

Lemma X22_witness :
  consumeValue (js "{ 1, 2") = Fail BufferRange
  /\ consumeValue (js "[ 1, 2") = Fail BufferRange.
Proof.
  split.
  - apply (proj1 (X22_container_without_closing_delimiter (js " 1, 2"))).
    vm_compute. repeat constructor; discriminate.
  - apply (proj2 (X22_container_without_closing_delimiter (js " 1, 2"))).
    vm_compute. repeat constructor; discriminate.
Defined.

(** X23: the locator on a well-formed array of [L] elements, for an
    accessor that is not longer than the text: not-found when [Atoi] does
    not read it or reads a negative number; for an index [n < L] the offset
    of the value of the [n]th element, after the whitespace before it; for
    [n = L] the offset of the closing bracket; not-found for [n > L]. *)
Theorem X23_locateAccessor_on_an_array (w0 w : list byte) (es : list element)
  (rest acc : list byte) :
  all_ws w0 -> all_ws w -> wf_elements es ->
  len acc <= len (render_array w es ++ rest) ->
  match Atoi acc with
  | None => locateAccessor (w0 ++ render_array w es ++ rest) acc = Ok (-1)
  | Some n =>
      if n <? 0 then locateAccessor (w0 ++ render_array w es ++ rest) acc = Ok (-1)
      else if n <? len es then
        exists es1 e es2,
          es = es1 ++ e :: es2 /\ len es1 = n
          /\ locateAccessor (w0 ++ render_array w es ++ rest) acc
             = Ok (len (w0 ++ "[" :: w ++ elements_before es1 ++ e_pre e))
      else if n =? len es then
        locateAccessor (w0 ++ render_array w es ++ rest) acc
        = Ok (len (w0 ++ "[" :: w ++ render_elements es))
      else locateAccessor (w0 ++ render_array w es ++ rest) acc = Ok (-1)
  end.
Proof.
  intros Hw0 Hw Hes Hguard.
  destruct (Atoi acc) as [n|] eqn:Hacc.
  2:{ apply locateAccessor_not_index; [assumption|now left]. }
  destruct (n <? 0) eqn:Hneg.
  { apply Z.ltb_lt in Hneg. apply locateAccessor_not_index; [assumption|].
    right. now exists n. }
  apply Z.ltb_ge in Hneg.
  destruct (n <? len es) eqn:Hin.
  { apply Z.ltb_lt in Hin.
    destruct (list_split_at es n ltac:(lia)) as (es1 & e & es2 & -> & Hn).
    exists es1, e, es2. split; [reflexivity|]. split; [assumption|].
    apply locateAccessor_element; try assumption. now rewrite Hn. }
  apply Z.ltb_ge in Hin.
  destruct (n =? len es) eqn:Heq.
  { apply Z.eqb_eq in Heq. subst n. now apply locateAccessor_array_end. }
  apply Z.eqb_neq in Heq.
  apply (locateAccessor_array_beyond w0 w es rest acc n); try assumption. lia.
Qed.

Lemma X23_witness :
  exists es1 e es2,
    [Element [] (js "1") []; Element [] (js "2") []; Element [] (js "3") []]
    = es1 ++ e :: es2 /\ len es1 = 1
    /\ locateAccessor (js "[1,2,3]") (js "1")
       = Ok (len ([] ++ "[" :: [] ++ elements_before es1 ++ e_pre e)).
Proof.
  apply (X23_locateAccessor_on_an_array [] []
           [Element [] (js "1") []; Element [] (js "2") []; Element [] (js "3") []]
           [] (js "1")).
  - ws_tac.
  - ws_tac.
  - repeat (apply wf_elements_cons; cbn [e_pre e_val e_post];
            [ws_tac | num_tac | ws_tac | ]).
    constructor.
  - vm_compute. discriminate.
Defined.

Lemma rewriteAt_closer_empty (a : list byte) (c : byte) (rest acc : list byte) :
  c = "}" \/ c = "]" ->
  rewriteAt (a ++ c :: rest) (len a) acc [] true = Ok (return_json (a ++ c :: rest)).
Proof.
  intros Hc. unfold rewriteAt. rewrite index_app_len, bind_ok.
  replace (Byte.eqb c "l") with false by (destruct Hc as [->| ->]; reflexivity).
  cbn [andb]. cbv zeta iota.
  rewrite slice_from_app_len, bind_ok, consumeValue_closing, bind_ok by tauto.
  rewrite index_app_len, bind_ok.
  replace (negb (Byte.eqb c "}") && negb (Byte.eqb c "]")) with false
    by (destruct Hc as [->| ->]; reflexivity).
  change (len (@nil byte) <=? 0) with true. cbv iota.
  rewrite (copy_at_at a (c :: rest) [] (len a) eq_refl) by (simpl; lia).
  change (Z.to_nat (0 - len (@nil byte))) with O.
  cbn [bind pad_spaces length skipn app]. reflexivity.
Qed.

(** X24: where the accessor loop ends on a closing brace or bracket, the
    place where a member or an element would be added, [SetRawInPlace]
    with an empty raw value adds nothing: no old bytes, no new bytes, and
    the branch that writes in place returns the buffer as it is. *)
Theorem X24_empty_raw_value_is_not_appended_in_place (json : list byte) (cap : Z)
  (path : list byte) (k : Z) (lastAcc a : list byte) (c : byte) (rest : list byte) :
  path <> [] ->
  locatePath json path = Ok (Done k lastAcc) ->
  json = a ++ c :: rest -> len a = k -> c = "}" \/ c = "]" ->
  SetRawInPlace (Buffer json cap) path [] = Ok (return_json json).
Proof.
  intros Hpath Hloc -> <- Hc. unfold SetRawInPlace, rewritePath.
  destruct path as [|d path]; [contradiction|].
  cbn [bytes]. rewrite Hloc, bind_ok. now apply rewriteAt_closer_empty.
Qed.

Lemma X24_witness :
  SetRawInPlace (doc "{'a':1}") (js "b") [] = Ok (return_json (js "{'a':1}")).
Proof.
  apply (X24_empty_raw_value_is_not_appended_in_place (js "{'a':1}")
           (len (js "{'a':1}")) (js "b") 6 (js "b") (js "{'a':1") "}" []).
  - discriminate.
  - reflexivity.
  - reflexivity.
  - reflexivity.
  - now left.
Defined.

(* ------------------------------------------------------------------ *)
(** * Indices of the top-level array *)

Lemma array_with_value (w0 w : list byte) (es1 : list element)
  (epre v epost : list byte) (es2 : list element) (rest : list byte) :
  w0 ++ render_array w (es1 ++ Element epre v epost :: es2) ++ rest
  = (w0 ++ "[" :: w ++ elements_before es1 ++ epre)
      ++ v ++ (epost ++ elements_after es2 ++ "]" :: rest).
Proof.
  unfold render_array. rewrite render_elements_split.
  cbn [e_pre e_val e_post]. norm_app. reflexivity.
Qed.

Lemma wf_one_element (val : list byte) :
  wf_value val -> wf_value ("[" :: val ++ ["]"]).
Proof.
  intros Hval.
  replace ("[" :: val ++ ["]"]) with (render_array [] [Element [] val []])
    by (unfold render_array, render_elements, render_element;
        cbn [map commas e_pre e_val e_post app]; now rewrite app_nil_r).
  apply wf_array; [constructor|].
  apply wf_elements_cons; cbn [e_pre e_val e_post]; try assumption; constructor.
Qed.

(** X25: [Set] with a path of one accessor and a well-formed value keeps a
    document whose value is an array well formed, whatever the accessor: an
    index of the array (the element is replaced, by the value in brackets
    when it was [null]), its length (an element is added), or anything else
    (nothing is done). *)
Theorem X25_Set_of_an_index_keeps_the_document_well_formed (w0 w : list byte)
  (es : list element) (w1 acc val : list byte) (cap : Z) :
  all_ws w0 -> all_ws w -> wf_elements es -> all_ws w1 ->
  dot_free acc -> acc <> [] -> wf_value val ->
  exists r,
    Set_ (Buffer (w0 ++ render_array w es ++ w1) cap) acc val = Ok r
    /\ wf_document (ret r).
Proof.
  intros Hw0 Hw Hes Hw1 Hd Hne Hval.
  assert (Hdoc : forall es', wf_elements es' ->
                   wf_document (w0 ++ render_array w es' ++ w1)).
  { intros es' Hes'. exists w0, (render_array w es'), w1.
    repeat split; try assumption. now apply wf_array. }
  assert (Hnone : locateAccessor (w0 ++ render_array w es ++ w1) acc = Ok (-1) ->
                  exists r,
                    Set_ (Buffer (w0 ++ render_array w es ++ w1) cap) acc val = Ok r
                    /\ wf_document (ret r)).
  { intros Hloc. exists (return_json (w0 ++ render_array w es ++ w1)). split.
    - apply (rewritePath_reject _ cap acc 0 0 val false Hne (reaches_start _ _)).
      now apply (iteration_last_none [] _ [] acc Hd).
    - cbn [ret return_json]. now apply Hdoc. }
  destruct (Atoi acc) as [n|] eqn:Hacc.
  2:{ apply Hnone. apply locateAccessor_not_index; [assumption|now left]. }
  destruct (Z.lt_ge_cases n 0) as [Hneg|Hpos].
  { apply Hnone. apply locateAccessor_not_index; [assumption|]. right. now exists n. }
  destruct (Z.lt_ge_cases (len (render_array w es ++ w1)) (len acc)) as [Hlong|Hguard].
  { apply Hnone. rewrite (locateAccessor_array w0 w es w1 acc n) by assumption.
    now replace (_ <? len acc) with true by (symmetry; apply Z.ltb_lt; lia). }
  destruct (Z.lt_trichotomy n (len es)) as [Hin|[Heq|Hout]].
  - destruct (list_split_at es n ltac:(lia)) as (es1 & e & es2 & -> & Hn).
    destruct e as [epre old epost].
    destruct (rewritePath_at_element [] w0 w es1 (Element epre old epost) es2 w1 []
                acc val cap false (reaches_start _ _) Hd Hw0 Hw Hes
                ltac:(now rewrite Hn) Hguard) as (_ & Hv & Hf & Hrw).
    cbn [e_pre e_val e_post app] in *. unfold Set_. rewrite Hrw. clear Hrw.
    rewrite (array_with_value w0 w es1 epre old epost es2 w1).
    pose proof Hes as Hes'. apply wf_elements_app in Hes' as [Hwf1 Hwf2].
    inversion Hwf2 as [|? ? Hpre _ Hpost Hrest]; subst.
    cbn [e_pre e_val e_post] in *.
    destruct (bytes_eqb old null) eqn:Hnull.
    + apply bytes_eqb_eq in Hnull. subst old. rewrite rewriteAt_null_value.
      eexists. split; [reflexivity|]. cbn [ret].
      replace ((w0 ++ "[" :: w ++ elements_before es1 ++ epre)
                 ++ "[" :: val ++ "]" :: epost ++ elements_after es2 ++ "]" :: w1)
        with (w0 ++ render_array w
                      (es1 ++ Element epre ("[" :: val ++ ["]"]) epost :: es2) ++ w1)
        by (rewrite array_with_value; norm_app; reflexivity).
      apply Hdoc. apply wf_elements_app. split; [assumption|].
      apply wf_elements_cons; cbn [e_pre e_val e_post]; try assumption.
      now apply wf_one_element.
    + apply bytes_eqb_neq in Hnull. rewrite rewriteAt_value by assumption.
      eexists. split; [reflexivity|]. cbn [ret].
      rewrite <- (array_with_value w0 w es1 epre val epost es2 w1).
      apply Hdoc. apply wf_elements_app. split; [assumption|].
      apply wf_elements_cons; cbn [e_pre e_val e_post]; assumption.
  - subst n.
    pose proof (rewritePath_append_element [] w0 w es w1 [] acc val cap false
                  (reaches_start _ _) Hd Hw0 Hw Hes Hacc Hguard ltac:(discriminate)) as H.
    cbn [app] in H. unfold Set_. rewrite H.
    eexists. split; [reflexivity|]. cbn [ret].
    replace (w0 ++ "[" :: w ++ render_elements es ++ comma_after es ++ val ++ "]" :: w1)
      with (w0 ++ render_array w (es ++ [Element [] val []]) ++ w1)
      by (unfold render_array; rewrite render_elements_snoc; norm_app; reflexivity).
    apply Hdoc. apply wf_elements_app. split; [assumption|].
    apply wf_elements_cons; cbn [e_pre e_val e_post]; try assumption; constructor.
  - apply Hnone. now apply (locateAccessor_array_beyond w0 w es w1 acc n).
Qed.

Lemma X25_witness :
  exists r,
    Set_ (doc "[1, null]") (js "1") (js "'x'") = Ok r /\ wf_document (ret r).
Proof.
  apply (X25_Set_of_an_index_keeps_the_document_well_formed [] []
           [Element [] (js "1") []; Element (js " ") null []] []
           (js "1") (js "'x'") (len (js "[1, null]"))).
  - ws_tac.
  - ws_tac.
  - apply wf_elements_cons; cbn [e_pre e_val e_post]; [ws_tac | num_tac | ws_tac |].
    apply wf_elements_cons; cbn [e_pre e_val e_post];
      [ws_tac | apply wf_null | ws_tac | constructor].
  - ws_tac.
  - repeat constructor.
  - discriminate.
  - apply (wf_string (js "x")). str_tac.
Defined.

(* ------------------------------------------------------------------ *)
(** * The loops end *)

Lemma within_bound_ok {A : Type} (a : A) : within_bound (Ok a).
Proof. discriminate. Qed.

Lemma within_bound_fail {A : Type} (f : failure) :
  f <> FuelExhausted -> within_bound (@Fail A f).
Proof. intros H E. injection E as E. contradiction. Qed.

Lemma within_bound_bind {A B : Type} (m : outcome A) (k : A -> outcome B) :
  within_bound m -> (forall a, m = Ok a -> within_bound (k a)) ->
  within_bound (bind m k).
Proof.
  intros Hm Hk. destruct m as [a|f]; cbn [bind]; [now apply Hk|].
  intros E. apply Hm. injection E as ->. reflexivity.
Qed.

Lemma within_bound_index (f : failure) (s : list byte) (i : Z) :
  f <> FuelExhausted -> within_bound (index f s i).
Proof.
  intros Hf. unfold index. destruct (_ && _); [apply within_bound_ok|].
  now apply within_bound_fail.
Qed.

Lemma within_bound_slice_from (f : failure) (s : list byte) (i : Z) :
  f <> FuelExhausted -> within_bound (slice_from f s i).
Proof.
  intros Hf. unfold slice_from. destruct (_ && _); [apply within_bound_ok|].
  now apply within_bound_fail.
Qed.

Lemma within_bound_slice (f : failure) (s : list byte) (i j : Z) :
  f <> FuelExhausted -> within_bound (slice f s i j).
Proof.
  intros Hf. unfold slice. destruct (_ && _); [apply within_bound_ok|].
  now apply within_bound_fail.
Qed.

Lemma within_bound_store (s : list byte) (i : Z) (c : byte) : within_bound (store s i c).
Proof.
  unfold store. destruct (_ && _); [apply within_bound_ok|].
  now apply within_bound_fail.
Qed.

Lemma within_bound_copy_at (s : list byte) (i : Z) (src : list byte) :
  within_bound (copy_at s i src).
Proof.
  unfold copy_at. apply within_bound_bind.
  - now apply within_bound_slice_from.
  - intros a _. apply within_bound_ok.
Qed.

Lemma within_bound_pad_spaces (count : nat) :
  forall s i j, within_bound (pad_spaces count s i j).
Proof.
  induction count as [|count IH]; intros s i j; cbn [pad_spaces].
  - apply within_bound_ok.
  - apply within_bound_bind; [apply within_bound_store|]. intros a _. apply IH.
Qed.

Lemma within_bound_prevChar_from (json : list byte) (k : nat) (i : Z) :
  within_bound (prevChar_from json k i).
Proof.
  induction k as [|k IH]; cbn [prevChar_from].
  - now apply within_bound_index.
  - apply within_bound_bind; [now apply within_bound_index|].
    intros c _. destruct (nonspace c); [apply within_bound_ok|exact IH].
Qed.

Lemma within_bound_consumeSeparator (s : list byte) : within_bound (consumeSeparator s).
Proof.
  unfold consumeSeparator. apply within_bound_bind.
  - now apply within_bound_slice_from.
  - intros a _. apply within_bound_ok.
Qed.

Lemma within_bound_parseString (s : list byte) : within_bound (parseString s).
Proof.
  unfold parseString. cbv zeta. apply within_bound_bind.
  - now apply within_bound_slice.
  - intros a _. apply within_bound_ok.
Qed.

Lemma within_bound_consumeNested (opening closing : byte) (s : list byte) :
  within_bound (consumeNested opening closing s).
Proof.
  unfold consumeNested. apply within_bound_bind.
  - now apply within_bound_slice_from.
  - intros a _. apply loop_fuel. lia.
Qed.

Lemma within_bound_consumeValue (s : list byte) : within_bound (consumeValue s).
Proof.
  unfold consumeValue. apply within_bound_bind; [now apply within_bound_index|].
  intros c _.
  destruct (Byte.eqb c "{"); [apply within_bound_consumeNested|].
  destruct (Byte.eqb c "["); [apply within_bound_consumeNested|].
  destruct (Byte.eqb c quote); [apply within_bound_ok|].
  destruct (_ || _); [now apply within_bound_slice_from|].
  destruct (Byte.eqb c "f"); [now apply within_bound_slice_from|].
  apply within_bound_ok.
Qed.

Lemma within_bound_separator_if (c : byte) (s : list byte) :
  within_bound (if Byte.eqb c "," then consumeSeparator s else Ok s).
Proof.
  destruct (Byte.eqb c ","); [apply within_bound_consumeSeparator|apply within_bound_ok].
Qed.

(** An iteration over a member takes at least the two quotes of its key, so
    the length of the text bounds the iterations. *)
Lemma within_bound_object_loop (fuel : nat) :
  forall origLen acc s,
    (length s < fuel)%nat -> within_bound (object_loop fuel origLen acc s).
Proof.
  induction fuel as [|fuel IH]; intros origLen acc s Hlen; [lia|].
  rewrite object_loop_unfold.
  apply within_bound_bind; [now apply within_bound_index|]. intros c _.
  destruct (negb _); [|apply within_bound_ok].
  apply within_bound_bind; [apply within_bound_parseString|].
  intros [key s1] E1. apply parseString_len in E1. cbv zeta.
  apply within_bound_bind; [apply within_bound_consumeSeparator|].
  intros s2 E2. apply consumeSeparator_shorter in E2.
  pose proof (consumeWhitespace_len s1) as Hw1.
  destruct (bytes_eqb key acc); [apply within_bound_ok|].
  apply within_bound_bind; [apply within_bound_consumeValue|].
  intros s3 E3. apply consumeValue_len in E3.
  apply within_bound_bind; [now apply within_bound_index|]. intros c' _.
  apply within_bound_bind; [apply within_bound_separator_if|].
  intros s4 E4. apply separator_if_len in E4.
  pose proof (consumeWhitespace_len s3) as Hw3.
  apply IH. unfold len in *. lia.
Qed.

(** Every iteration over an element counts one up towards the index. *)
Lemma within_bound_array_loop (fuel : nat) :
  forall n a s,
    (Z.to_nat (n - a) <= fuel)%nat -> within_bound (array_loop fuel n a s).
Proof.
  induction fuel as [|fuel IH]; intros n a s Hfuel.
  - cbn [array_loop]. destruct (n >? a) eqn:E; [|apply within_bound_ok].
    apply Z.gtb_lt in E. lia.
  - rewrite array_loop_unfold. destruct (n >? a) eqn:E; [|apply within_bound_ok].
    apply Z.gtb_lt in E.
    apply within_bound_bind; [now apply within_bound_index|]. intros c _.
    destruct (negb _); [|apply within_bound_ok].
    apply within_bound_bind; [apply within_bound_consumeValue|]. intros s1 _.
    cbv zeta.
    apply within_bound_bind; [now apply within_bound_index|]. intros c' _.
    apply within_bound_bind; [apply within_bound_separator_if|]. intros s2 _.
    apply IH. lia.
Qed.

Lemma within_bound_locateAccessor (s acc : list byte) :
  within_bound (locateAccessor s acc).
Proof.
  unfold locateAccessor. destruct (_ || _); [apply within_bound_ok|].
  apply within_bound_bind; [now apply within_bound_index|]. intros c _.
  destruct (Byte.eqb c "{").
  { apply within_bound_bind; [apply within_bound_consumeSeparator|]. intros s1 _.
    apply within_bound_object_loop. lia. }
  destruct (Byte.eqb c "[").
  { destruct (Atoi acc) as [n|]; [|apply within_bound_ok].
    destruct (n <? 0); [apply within_bound_ok|].
    apply within_bound_bind; [apply within_bound_consumeSeparator|]. intros s1 _.
    apply within_bound_bind.
    - apply within_bound_array_loop. rewrite Z.sub_0_r. lia.
    - intros [s2 a] _. destruct (n >? a); apply within_bound_ok. }
  destruct (Byte.eqb c "n"); [|apply within_bound_ok].
  destruct (Atoi acc) as [[| |]|]; try apply within_bound_ok.
  apply within_bound_bind; [now apply within_bound_slice_from|].
  intros s1 _. apply within_bound_ok.
Qed.

Lemma within_bound_iteration (json path : list byte) (i j : Z) :
  within_bound (iteration json path i j).
Proof.
  unfold iteration.
  apply within_bound_bind; [now apply within_bound_slice_from|]. intros pj _. cbv zeta.
  apply within_bound_bind; [now apply within_bound_slice|]. intros acc _.
  apply within_bound_bind; [now apply within_bound_slice_from|]. intros ji _.
  apply within_bound_bind; [apply within_bound_locateAccessor|]. intros r _.
  destruct (r =? -1); [apply within_bound_ok|].
  apply within_bound_bind; [now apply within_bound_index|]. intros c _.
  destruct (_ && _); [apply within_bound_ok|].
  destruct (bytes_eqb _ []); apply within_bound_ok.
Qed.

(** The cursor in the path after an iteration that goes on. *)
Lemma iteration_next_bound (json path : list byte) (i j i' j' : Z) :
  iteration json path i j = Ok (Next i' j') -> j < j' <= len path + 1.
Proof.
  unfold iteration. intros H. bind_inv H. cbv zeta in H.
  set (dotIndex := if IndexByte a "." =? -1 then len a else IndexByte a ".") in *.
  assert (Hd : 0 <= dotIndex).
  { unfold dotIndex. pose proof (index_where_bounds (fun d => Byte.eqb d ".") a 0) as Hb.
    fold (IndexByte a ".") in Hb. pose proof (len_nonneg a).
    destruct (IndexByte a "." =? -1) eqn:E1; [lia|]. apply Z.eqb_neq in E1. lia. }
  bind_inv H. apply slice_bounds in E0. bind_inv H. bind_inv H.
  if_inv H; [discriminate H|]. bind_inv H.
  if_inv H; [discriminate H|]. if_inv H; [|discriminate H].
  injection H as _ <-. lia.
Qed.

(** The cursor in the path moves on in every iteration, and an iteration
    with the cursor beyond the end of the path fails on the path. *)
Lemma within_bound_locate_loop (json path : list byte) (fuel : nat) :
  forall i j,
    0 <= j <= len path + 1 -> len path + 2 <= Z.of_nat fuel + j ->
    within_bound (locate_loop fuel json path i j).
Proof.
  induction fuel as [|fuel IH]; intros i j Hj Hfuel; [lia|].
  rewrite locate_loop_unfold.
  apply within_bound_bind; [apply within_bound_iteration|].
  intros [i' j'|k acc|] E; try apply within_bound_ok.
  apply iteration_next_bound in E. apply IH; lia.
Qed.

Lemma locate_loop_ends (json path : list byte) (fuel : nat) :
  forall i j i' j', locate_loop fuel json path i j <> Ok (Next i' j').
Proof.
  induction fuel as [|fuel IH]; intros i j i' j'; [discriminate|].
  rewrite locate_loop_unfold.
  destruct (iteration json path i j) as [[i2 j2|k acc|]|f]; cbn [bind];
    try discriminate.
  apply IH.
Qed.

Lemma within_bound_rewriteAt (json : list byte) (i : Z) (acc val : list byte)
  (inPlace : bool) :
  within_bound (rewriteAt json i acc val inPlace).
Proof.
  unfold rewriteAt.
  apply within_bound_bind; [now apply within_bound_index|]. intros c _. cbv zeta.
  apply within_bound_bind; [now apply within_bound_slice_from|]. intros ji _.
  apply within_bound_bind; [apply within_bound_consumeValue|]. intros rest _.
  apply within_bound_bind.
  - destruct inPlace; [|apply within_bound_ok].
    apply within_bound_bind; [now apply within_bound_index|]. intros c' _.
    destruct (_ <=? _); [|apply within_bound_ok].
    apply within_bound_bind.
    + destruct (_ && _); [|apply within_bound_copy_at].
      apply within_bound_bind; [apply within_bound_store|]. intros j0 _.
      apply within_bound_bind; [apply within_bound_copy_at|]. intros j1 _.
      apply within_bound_store.
    + intros j _. apply within_bound_bind; [apply within_bound_pad_spaces|].
      intros j' _. apply within_bound_ok.
  - intros [out|] _; [apply within_bound_ok|].
    apply within_bound_bind; [now apply within_bound_slice|]. intros pre _.
    apply within_bound_bind; [now apply within_bound_index|]. intros c' _.
    apply within_bound_bind; [|intros mid _; apply within_bound_ok].
    destruct (Byte.eqb c' "}").
    { apply within_bound_bind; [apply within_bound_prevChar_from|].
      intros p _. apply within_bound_ok. }
    destruct (Byte.eqb c' "]").
    { apply within_bound_bind; [apply within_bound_prevChar_from|].
      intros p _. apply within_bound_ok. }
    destruct (Byte.eqb c' "n"); apply within_bound_ok.
Qed.

(** X26: every loop of the locator and of the rewriter ends, on every
    input, well formed or not: the iteration bounds of the embedding are
    never what stops them.  The calls return, fail on an index or a slice
    out of range, or are in the one loop that can spin, the loop of
    [consumeObject] and [consumeArray] on a string with no closing quote. *)
Theorem X26_the_loops_end (json : list byte) (cap : Z) (path val acc : list byte)
  (inPlace : bool) :
  rewritePath (Buffer json cap) path val inPlace <> Fail FuelExhausted
  /\ locateAccessor json acc <> Fail FuelExhausted
  /\ consumeValue json <> Fail FuelExhausted.
Proof.
  split; [|split; [apply within_bound_locateAccessor|apply within_bound_consumeValue]].
  unfold rewritePath. destruct path as [|c path].
  - destruct inPlace; [destruct (_ <=? _)|]; discriminate.
  - cbn [bytes]. apply within_bound_bind.
    + unfold locatePath. apply within_bound_locate_loop.
      * pose proof (len_nonneg (c :: path)). lia.
      * unfold len. lia.
    + intros [i j|k lastAcc|] E.
      * exfalso. exact (locate_loop_ends _ _ _ _ _ _ _ E).
      * apply within_bound_rewriteAt.
      * apply within_bound_ok.
Qed.

(* ------------------------------------------------------------------ *)
(** * A key of an object under a key *)

(** X27: with a path of two keys, [Set] goes through the member of the
    first key in the top-level object to the object that is its value, and
    replaces there the value of the first member with the second key, when
    that value is not [null]; every other byte of the document stays as it
    was. *)
Theorem X27_Set_through_a_key_to_a_key (w0 w : list byte) (ms1 : list member)
  (p1 k1 mid1 sep1 wi : list byte) (is1 : list member)
  (p2 k2 mid2 sep2 old post2 : list byte) (is2 : list member)
  (post1 : list byte) (ms2 : list member) (rest val : list byte) (cap : Z) :
  let inner := fun v =>
    render_object wi (is1 ++ Member p2 k2 mid2 sep2 v post2 :: is2) in
  let d := fun v =>
    w0 ++ render_object w (ms1 ++ Member p1 k1 mid1 sep1 (inner v) post1 :: ms2)
       ++ rest in
  all_ws w0 -> all_ws w ->
  wf_members (ms1 ++ Member p1 k1 mid1 sep1 (inner old) post1 :: ms2) ->
  Forall (fun x => m_key x <> k1) ms1 -> dot_free k1 ->
  all_ws wi -> wf_members (is1 ++ Member p2 k2 mid2 sep2 old post2 :: is2) ->
  Forall (fun x => m_key x <> k2) is1 -> dot_free k2 -> k2 <> [] ->
  old <> null ->
  Set_ (Buffer (d old) cap) (k1 ++ "." :: k2) val
  = Ok {| ret := d val; buf := d old; shared := false |}.
Proof.
  intros inner d Hw0 Hw Hms Hf1 Hd1 Hwi His Hf2 Hd2 Hne2 Hold.
  pose proof (reaches_member w0 w ms1 (Member p1 k1 mid1 sep1 (inner old) post1) ms2
                rest k2 Hw0 Hw Hms Hf1 Hd1) as Hr.
  cbn [m_key] in Hr.
  set (pre := w0 ++ "{" :: w ++ members_before ms1
                ++ member_head (Member p1 k1 mid1 sep1 (inner old) post1)) in *.
  set (rest' := post1 ++ members_after ms2 ++ "}" :: rest).
  assert (Ed : forall v, d v = pre ++ [] ++ inner v ++ rest').
  { intros v. unfold d, pre, rest'.
    rewrite (object_with_value w0 w ms1 p1 k1 mid1 sep1 (inner v) post1 ms2 rest).
    unfold member_head. cbn [m_pre m_key m_mid m_sep]. norm_app. reflexivity. }
  assert (Ep : k1 ++ "." :: k2 = (k1 ++ ["."]) ++ k2) by (now rewrite <- app_assoc).
  assert (Hr' : reaches (pre ++ [] ++ inner old ++ rest') ((k1 ++ ["."]) ++ k2)
                  (len pre) (len (k1 ++ ["."]))).
  { rewrite <- (Ed old), <- Ep. exact Hr. }
  destruct (rewritePath_at_member pre [] wi is1 (Member p2 k2 mid2 sep2 old post2) is2
              rest' (k1 ++ ["."]) val cap false Hr' Hd2 Hne2 ltac:(constructor) Hwi His
              Hf2) as (E & Hv & Hf & Hrw).
  cbn [m_key m_val m_post] in *. unfold Set_. rewrite Ep, !(Ed old).
  unfold inner at 1. rewrite Hrw. clear Hrw.
  rewrite E, rewriteAt_value by assumption.
  f_equal. f_equal; [|now rewrite <- E]. rewrite Ed. unfold inner.
  pose proof (object_with_value [] wi is1 p2 k2 mid2 sep2 val post2 is2 rest') as Ei.
  cbn [app] in Ei. rewrite Ei. norm_app. reflexivity.
Qed.

Lemma X27_witness :
  returned (Set_ (doc "{'name':{'first':'Sara','last':'Anderson'}}") (js "name.last")
              (js "'Smith'"))
  = Ok (js "{'name':{'first':'Sara','last':'Smith'}}").
Proof.
  pose proof (X27_Set_through_a_key_to_a_key [] [] []
                [] (js "name") [] [] []
                [Member [] (js "first") [] [] (js "'Sara'") []]
                [] (js "last") [] [] (js "'Anderson'") [] []
                [] [] [] (js "'Smith'")
                (len (js "{'name':{'first':'Sara','last':'Anderson'}}"))) as H.
  cbv zeta in H. unfold returned.
  assert (Hin : forall v,
             wf_value v ->
             wf_members ([Member [] (js "first") [] [] (js "'Sara'") []]
                           ++ Member [] (js "last") [] [] v [] :: [])).
  { intros v Hv.
    apply wf_members_cons; cbn [m_pre m_key m_mid m_sep m_val m_post];
      [ws_tac | str_tac | ws_tac | ws_tac | apply (wf_string (js "Sara")); str_tac
       | ws_tac | ].
    apply wf_members_cons; cbn [m_pre m_key m_mid m_sep m_val m_post];
      [ws_tac | str_tac | ws_tac | ws_tac | exact Hv | ws_tac | constructor]. }
  assert (Hv : wf_value (js "'Anderson'")) by (apply (wf_string (js "Anderson")); str_tac).
  change (doc "{'name':{'first':'Sara','last':'Anderson'}}")
    with (Buffer ([] ++ render_object []
                    ([] ++ Member [] (js "name") [] []
                             (render_object []
                                ([Member [] (js "first") [] [] (js "'Sara'") []]
                                   ++ Member [] (js "last") [] [] (js "'Anderson'") []
                                   :: []))
                             [] :: []) ++ [])
            (len (js "{'name':{'first':'Sara','last':'Anderson'}}"))).
  change (js "name.last") with (js "name" ++ "." :: js "last").
  rewrite H; [reflexivity | ws_tac | ws_tac | | constructor | repeat constructor | ws_tac
             | now apply Hin | | repeat constructor | discriminate | discriminate].
  - apply wf_members_cons; cbn [m_pre m_key m_mid m_sep m_val m_post];
      [ws_tac | str_tac | ws_tac | ws_tac | | ws_tac | constructor].
    apply wf_object; [ws_tac | now apply Hin].
  - repeat constructor. discriminate.
Defined.

(* ------------------------------------------------------------------ *)
(** * Paths that are ignored *)

(** X28: when the walk along the accessors of a path with the answers of
    the locator stops short (the locator finds nothing for an accessor, or
    an accessor before the last lands on a closing brace or bracket or on the
    last byte of a [null]), [Set] and [SetInPlace] return the buffer itself
    and leave it as it was, on every input.  The test of the loop, which
    reads [json[accIndex]] where the byte at [i + accIndex] is meant, lets no
    such path through. *)
Theorem X28_a_path_that_stops_short_is_ignored (json : list byte) (cap : Z)
  (path val : list byte) :
  path <> [] ->
  walk_stops json 0 (segments path) = Ok true ->
  Set_ (Buffer json cap) path val
  = Ok {| ret := json; buf := json; shared := true |}
  /\ SetInPlace (Buffer json cap) path val
     = Ok {| ret := json; buf := json; shared := true |}.
Proof.
  intros Hp Hm.
  assert (H : locatePath json path = Ok Reject).
  { pose proof (walk_stops_rejected json (segments path) (segments_not_nil path)
                  (segments_dot_free path) [] 0) as H.
    cbn [app] in H. rewrite join_segments in H. apply H; [apply reaches_start|assumption]. }
  unfold Set_, SetInPlace, rewritePath. destruct path as [|c path]; [contradiction|].
  cbn [bytes]. rewrite H. split; reflexivity.
Qed.

(** [Set(`{"foo": [1,2]}`, "foo.2.x", v)]: the index 2 is the length of the
    array and not the last accessor. *)
Lemma X28_witness :
  Set_ (doc "{'foo': [1,2]}") (js "foo.2.x") (js "7")
  = Ok {| ret := js "{'foo': [1,2]}"; buf := js "{'foo': [1,2]}"; shared := true |}
  /\ SetInPlace (doc "{'foo': [1,2]}") (js "foo.2.x") (js "7")
     = Ok {| ret := js "{'foo': [1,2]}"; buf := js "{'foo': [1,2]}"; shared := true |}.
Proof.
  exact (X28_a_path_that_stops_short_is_ignored (js "{'foo': [1,2]}")
           (len (js "{'foo': [1,2]}")) (js "foo.2.x") (js "7")
           ltac:(discriminate) eq_refl).
Defined.

(* ------------------------------------------------------------------ *)
(** * The tests of the repository

    The embedding gives what the tables of [mjson_test.go] expect. *)

Lemma TestRewritePath_passes :
  forallb (run_rewritePath false) TestRewritePath_table = true.
Proof. vm_compute. reflexivity. Qed.

Lemma TestRewritePathInPlace_passes :
  forallb (run_rewritePath true) TestRewritePathInPlace_table = true.
Proof. vm_compute. reflexivity. Qed.

Lemma TestLocateAccessor_passes :
  forallb run_locateAccessor TestLocateAccessor_table = true.
Proof. vm_compute. reflexivity. Qed.

Lemma TestParseString_passes : forallb run_parseString TestParseString_table = true.
Proof. vm_compute. reflexivity. Qed.

Lemma TestConsumeWhitespace_passes :
  forallb (run_scanner (fun s => Ok (consumeWhitespace s))) TestConsumeWhitespace_table
  = true.
Proof. vm_compute. reflexivity. Qed.

Lemma TestPrevChar_passes : forallb run_prevChar TestPrevChar_table = true.
Proof. vm_compute. reflexivity. Qed.

Lemma TestConsumeSeparator_passes :
  forallb (run_scanner consumeSeparator) TestConsumeSeparator_table = true.
Proof. vm_compute. reflexivity. Qed.

Lemma TestConsumeValue_passes :
  forallb (run_scanner consumeValue) TestConsumeValue_table = true.
Proof. vm_compute. reflexivity. Qed.

Lemma TestConsumeObject_passes :
  forallb (run_scanner consumeObject) TestConsumeObject_table = true.
Proof. vm_compute. reflexivity. Qed.

Lemma TestConsumeArray_passes :
  forallb (run_scanner consumeArray) TestConsumeArray_table = true.
Proof. vm_compute. reflexivity. Qed.

Lemma TestConsumeString_passes :
  forallb (run_scanner (fun s => Ok (consumeString s))) TestConsumeString_table = true.
Proof. vm_compute. reflexivity. Qed.

Lemma TestConsumeNumber_passes :
  forallb (run_scanner (fun s => Ok (consumeNumber s))) TestConsumeNumber_table = true.
Proof. vm_compute. reflexivity. Qed.
